(** * A verification development for flax's map generation ([flax/fractor.py])
    and entity construction ([flax/entity.py]).

    Shallow embedding of the map canvas, the fractor pipeline, the binary
    partition fractor, the cellular-automaton cave carver, the valley
    flood connector, the room loop of the ruined-hall fractor, and the
    building of entity types, entities and their relation sets.  Python dicts are modelled as stdpp [gmap]s, sets as
    [gset]s; every random draw is taken from an explicit stream of integers,
    so that a theorem quantifying over the stream quantifies over every
    outcome of the random source. *)

From Stdlib Require Import ZArith Lia String QArith Qround Qabs.
From stdpp Require Import base gmap sets list strings sorting.

Local Open Scope Z_scope.

(* ------------------------------------------------------------------ *)
(** ** Geometry ([flax.geometry], not part of the sources at hand) *)

Definition point : Type := (Z * Z)%type.

Definition px (p : point) : Z := fst p.
Definition py (p : point) : Z := snd p.

(** [Zrange a n] is Python's [range(a, a + n)]. *)
Fixpoint Zrange (a : Z) (n : nat) : list Z :=
  match n with
  | O => []
  | S n' => a :: Zrange (a + 1) n'
  end.

(** Modelled from the spec: [Point.neighbors] of the missing
    [flax.geometry].  The spec's cave carver counts "up to 8 neighbors"
    through this same property (and the code's 4-5 rule adds the cell itself
    to reach 9 cells), and the code iterates [Direction.orthogonal] as a
    proper subset of the directions: the neighbours are the eight cells
    around a point. *)
Definition neighbors (p : point) : list point :=
  let '(x, y) := p in
  [(x, y - 1); (x + 1, y - 1); (x + 1, y); (x + 1, y + 1);
   (x, y + 1); (x - 1, y + 1); (x - 1, y); (x - 1, y - 1)].

(** Modelled from the spec: [Rectangle] of the missing [flax.geometry], an
    axis-aligned rectangle given by its origin (top-left point) and size,
    with inclusive edges ("inclusive bounds arithmetic"). *)
Record Rectangle := mkRect {
  origin_x : Z; origin_y : Z; r_width : Z; r_height : Z
}.

Definition r_left (r : Rectangle) : Z := origin_x r.
Definition r_top (r : Rectangle) : Z := origin_y r.
Definition r_right (r : Rectangle) : Z := origin_x r + r_width r - 1.
Definition r_bottom (r : Rectangle) : Z := origin_y r + r_height r - 1.
Definition r_area (r : Rectangle) : Z := r_width r * r_height r.

(** [Rectangle.from_edges] and [Rectangle.replace]. *)
Definition from_edges (top bottom left right : Z) : Rectangle :=
  mkRect left top (right - left + 1) (bottom - top + 1).
Definition replace_bottom (r : Rectangle) (b : Z) : Rectangle :=
  from_edges (r_top r) b (r_left r) (r_right r).
Definition replace_top (r : Rectangle) (t : Z) : Rectangle :=
  from_edges t (r_bottom r) (r_left r) (r_right r).
Definition replace_right (r : Rectangle) (rt : Z) : Rectangle :=
  from_edges (r_top r) (r_bottom r) (r_left r) rt.
Definition replace_left (r : Rectangle) (l : Z) : Rectangle :=
  from_edges (r_top r) (r_bottom r) l (r_right r).

(** [Size.to_rect(Point.origin())]. *)
Definition size_to_rect (w h : Z) : Rectangle := mkRect 0 0 w h.

(** [point in rect]. *)
Definition in_rect (r : Rectangle) (p : point) : Prop :=
  r_left r <= px p <= r_right r /\ r_top r <= py p <= r_bottom r.

Definition in_rectb (r : Rectangle) (p : point) : bool :=
  (r_left r <=? px p) && (px p <=? r_right r) &&
  (r_top r <=? py p) && (py p <=? r_bottom r).

(** [rect in other_rect]: containment of rectangles. *)
Definition rect_inb (inner outer : Rectangle) : bool :=
  (r_left outer <=? r_left inner) && (r_right inner <=? r_right outer) &&
  (r_top outer <=? r_top inner) && (r_bottom inner <=? r_bottom outer).

(** [Rectangle.iter_points], row by row. *)
Definition iter_points (r : Rectangle) : list point :=
  flat_map (fun y => map (fun x => (x, y)) (Zrange (r_left r) (Z.to_nat (r_width r))))
           (Zrange (r_top r) (Z.to_nat (r_height r))).

(** The points of [Rectangle.iter_border] (their directions are not used
    by the code below). *)
Definition on_borderb (r : Rectangle) (p : point) : bool :=
  (px p =? r_left r) || (px p =? r_right r) ||
  (py p =? r_top r) || (py p =? r_bottom r).
Definition iter_border (r : Rectangle) : list point :=
  filter (fun p => on_borderb r p = true) (iter_points r).

(* ------------------------------------------------------------------ *)
(** ** Entity types ([flax/entity.py]) *)

Inductive physics := Solid | Empty.

(** The entity types the generation code places.  [physics t] is
    [t.components.get(IPhysics)]. *)
Inductive entity_type :=
  | CaveWall | Wall | Floor | Tree | Grass | CutGrass | Dirt | CaveFloor
  | StairsDown | StairsUp
  | Salamango | Armor | Potion | Gem | Crate.

#[global] Instance entity_type_eq_dec : EqDecision entity_type.
Proof. solve_decision. Defined.

Definition physics_of (t : entity_type) : option physics :=
  match t with
  | StairsDown | StairsUp | Floor | Grass | CutGrass | Dirt | CaveFloor => Some Empty
  | CaveWall | Wall | Tree | Salamango => Some Solid
  | Armor | Potion | Gem | Crate => None
  end.

(** A value the canvas stores: either a bare entity type or a configured
    entity instance ([Entity]) of a type; a portal instance carries its
    destination. *)
Inductive placeable :=
  | Bare (t : entity_type)
  | Inst (t : entity_type) (destination : option Z).

#[global] Instance placeable_eq_dec : EqDecision placeable.
Proof. solve_decision. Defined.

Definition ptype (v : placeable) : entity_type :=
  match v with Bare t => t | Inst t _ => t end.

(** [entity_type.components.get(IPhysics) is Empty]. *)
Definition is_emptyb (t : entity_type) : bool :=
  match physics_of t with Some Empty => true | _ => false end.

(* ------------------------------------------------------------------ *)
(** ** Outcomes *)

Inductive exn :=
  | AssertionError (msg : string)
  | ValueError (msg : string)
  | IndexError (msg : string)
  | KeyError
  | AttributeError
  | ZeroDivisionError
  | OverflowError.

(** The result of running Python code: a value, a raised exception, or a
    loop that did not finish within the given number of iterations. *)
Inductive outcome (A : Type) :=
  | Ok (a : A)
  | Raise (e : exn)
  | OutOfFuel.
Arguments Ok {A} a.
Arguments Raise {A} e.
Arguments OutOfFuel {A}.

(* ------------------------------------------------------------------ *)
(** ** The map canvas ([MapCanvas]) *)

Record MapCanvas := mkCanvas {
  rect : Rectangle;
  arch_grid : gmap point placeable;
  item_grid : gmap point (list entity_type);
  creature_grid : gmap point (option entity_type);
  floor_spaces : gset point
}.

Definition rect_points (r : Rectangle) : gset point := list_to_set (iter_points r).

(** [MapCanvas.__init__(size)]. *)
Definition new_canvas (w h : Z) : MapCanvas :=
  let r := size_to_rect w h in
  mkCanvas r
    (gset_to_gmap (Bare CaveWall) (rect_points r))
    (gset_to_gmap [] (rect_points r))
    (gset_to_gmap None (rect_points r))
    ∅.

(** [MapCanvas.clear]: every point of the rectangle gets the tile, then the
    physics of the tile is looked up through [entity_type.components],
    which a configured instance does not have: AttributeError, raised after
    the grid was written.  A canvas method returns how it ended together
    with the canvas as it is left. *)
Definition clear (c : MapCanvas) (v : placeable) : outcome unit * MapCanvas :=
  let arch := foldl (fun g p => <[p := v]> g) (arch_grid c) (iter_points (rect c)) in
  match v with
  | Inst _ _ =>
      (Raise AttributeError,
       mkCanvas (rect c) arch (item_grid c) (creature_grid c) (floor_spaces c))
  | Bare t =>
      (Ok tt,
       mkCanvas (rect c) arch (item_grid c) (creature_grid c)
         (if is_emptyb t then rect_points (rect c) else ∅))
  end.

(** [MapCanvas.set_architecture]: a dict store, then the walkable set is
    updated from the physics of the type (of the instance's type for an
    [Entity]). *)
Definition set_architecture (c : MapCanvas) (p : point) (v : placeable) : MapCanvas :=
  mkCanvas (rect c) (<[p := v]> (arch_grid c)) (item_grid c) (creature_grid c)
    (if is_emptyb (ptype v) then floor_spaces c ∪ {[p]} else floor_spaces c ∖ {[p]}).

(** [MapCanvas.add_item]: [self._item_grid[point].append(entity_type)];
    the subscript raises KeyError on a point the dict does not have. *)
Definition add_item (c : MapCanvas) (p : point) (t : entity_type) : outcome unit * MapCanvas :=
  match item_grid c !! p with
  | None => (Raise KeyError, c)
  | Some l => (Ok tt, mkCanvas (rect c) (arch_grid c) (<[p := l ++ [t]]> (item_grid c))
                        (creature_grid c) (floor_spaces c))
  end.

(** [MapCanvas.set_creature]: a dict store. *)
Definition set_creature (c : MapCanvas) (p : point) (t : entity_type) : MapCanvas :=
  mkCanvas (rect c) (arch_grid c) (item_grid c) (<[p := Some t]> (creature_grid c))
    (floor_spaces c).

(* ------------------------------------------------------------------ *)
(** ** Python floats *)

(** A Python float (IEEE 754 binary64) is represented by its exact value,
    a rational.  Comparing two finite floats compares these values. *)
Definition Qltb (x y : Q) : bool :=
  match (x ?= y)%Q with Lt => true | _ => false end.

(** [2 ^ e] for any integer [e]. *)
Definition pow2Q (e : Z) : Q :=
  if 0 <=? e then inject_Z (2 ^ e) else (/ inject_Z (2 ^ (- e)))%Q.

(** [floor(log2 x)] for [x > 0]. *)
Definition Qlog2_floor (x : Q) : Z :=
  if Qle_bool 1 x then Z.log2 (Qfloor x) else - Z.log2_up (Qceiling (/ x)).

(** The integer nearest to [q], ties to even. *)
Definition round_half_even (q : Q) : Z :=
  let f := Qfloor q in
  match (q - inject_Z f ?= 1 # 2)%Q with
  | Lt => f
  | Gt => f + 1
  | Eq => if Z.even f then f else f + 1
  end.

(** Rounding of [x > 0] to binary64: 53 significant bits, down to the
    subnormal spacing [2 ^ -1074]; [None] when the rounded value is
    [2 ^ 1024] or more (an infinity). *)
Definition b64_round_pos (x : Q) : option Q :=
  let k := Z.max (Qlog2_floor x - 52) (-1074) in
  let r := (inject_Z (round_half_even (x / pow2Q k)) * pow2Q k)%Q in
  if Qle_bool (pow2Q 1024) r then None else Some r.

(** The binary64 value nearest to [q], ties to even: CPython rounds so
    both [int / int] and [float(int)]. *)
Definition b64_round (q : Q) : option Q :=
  match (q ?= 0)%Q with
  | Eq => Some 0%Q
  | Gt => b64_round_pos q
  | Lt => option_map Qopp (b64_round_pos (- q))
  end.

(** Python's true division [a / b] of two ints: [ZeroDivisionError] for
    [b = 0], the correctly rounded float otherwise, and [OverflowError]
    ("integer division result too large for a float") when that float
    would be infinite. *)
Definition int_truediv (a b : Z) : exn + Q :=
  if b =? 0 then inl ZeroDivisionError
  else match b64_round (inject_Z a / inject_Z b) with
       | Some q => inr q
       | None => inl OverflowError
       end.

(* ------------------------------------------------------------------ *)
(** ** The random source and the state of a fractor *)

(** The state threaded through a fractor's methods: its canvas and the
    draws still to come from the process-global random source. *)
Record fstate := mkState { canvas : MapCanvas; rng : list Z }.

(** A method run: how it ended, and the state it leaves (a raised exception
    keeps the mutations made before it, as in Python). *)
Definition M (A : Type) : Type := fstate -> outcome A * fstate.

Definition ret {A} (a : A) : M A := fun s => (Ok a, s).
Definition bind {A B} (m : M A) (k : A -> M B) : M B :=
  fun s => match m s with
           | (Ok a, s') => k a s'
           | (Raise e, s') => (Raise e, s')
           | (OutOfFuel, s') => (OutOfFuel, s')
           end.
Definition throw {A} (e : exn) : M A := fun s => (Raise e, s).

Declare Scope fmonad_scope.
Notation "'let*' x := m 'in' k" := (bind m (fun x => k))
  (at level 200, x name, m at level 100, k at level 200) : fmonad_scope.
Notation "m ;;; k" := (bind m (fun _ => k))
  (at level 100, k at level 200, right associativity) : fmonad_scope.
Local Open Scope fmonad_scope.

Definition get_canvas : M MapCanvas := fun s => (Ok (canvas s), s).
Definition put_canvas (c : MapCanvas) : M unit := fun s => (Ok tt, mkState c (rng s)).
Definition lift_canvas (r : outcome unit * MapCanvas) : M unit :=
  fun s => (fst r, mkState (snd r) (rng s)).

(** One raw draw from the random source. *)
Definition draw : M Z :=
  fun s => match rng s with
           | [] => (Ok 0, s)
           | r :: rs => (Ok r, mkState (canvas s) rs)
           end.

(** [random._randbelow(n)]. *)
Definition randbelow (n : nat) : M nat :=
  let* r := draw in ret (Z.to_nat (r mod Z.of_nat n)).

(** [random.randint(a, b)]: inclusive at both ends. *)
Definition randint (a b : Z) : M Z :=
  if b <? a then throw (ValueError "empty range for randrange()")
  else let* r := draw in ret (a + r mod (b - a + 1)).

(** [random.choice(seq)]. *)
Definition choice {A} (seq : list A) : M A :=
  match seq with
  | [] => throw (IndexError "Cannot choose from an empty sequence")
  | x :: _ => let* j := randbelow (length seq) in ret (default x (seq !! j))
  end.

(** [random.random() < 0.40]. *)
Definition random_below_040 : M bool :=
  let* r := draw in ret (r mod 100 <? 40).

(** The body of [random.sample(population, k)] once [k] has been checked:
    [pool] holds the [n - i] elements still available; [randbelow(n - i)]
    picks one, and the last available element takes its slot.  (For large
    populations CPython draws indices with rejection instead; both ways
    the outcomes are the lists of [k] distinct elements.) *)
Fixpoint sample_loop {A} (k : nat) (pool : list A) : M (list A) :=
  match k with
  | O => ret []
  | S k' =>
      match last pool with
      | None => ret []
      | Some y =>
          let* j := randbelow (length pool) in
          match pool !! j with
          | None => ret []
          | Some x =>
              let* rest := sample_loop k' (take (length pool - 1) (<[j := y]> pool)) in
              ret (x :: rest)
          end
      end
  end.

(** [random.sample(population, k)]. *)
Definition sample {A} (population : list A) (k : nat) : M (list A) :=
  if decide (length population < k)%nat
  then throw (ValueError "Sample larger than population or is negative")
  else sample_loop k population.

(** The integer [int(random.gauss(mu, sigma) + 0.5)] for parameters
    well inside float range, as the modelled callers pass them (canvas
    coordinates and sizes): any integer.  [gauss_int_checked] below is the
    general case, where the draw can be infinite. *)
Definition gauss_int : M Z := draw.

(** The clamping of [random_normal_range] applied to the rounded draw. *)
Definition clamp_range (lb ub ret : Z) : Z :=
  if ret <? lb then lb else if ub <? ret then ub else ret.

(** [random_normal_range(lb, ub)] for bounds well inside float range (at
    most [2 ^ 1000] in absolute value), where [mu] and [sigma] are
    finite floats and the draw is finite; the lemma
    [random_normal_range_checked_small] shows that there it agrees with
    [random_normal_range_checked], the general model below.  The
    modelled callers ([Room.randomize] and [RuinedHallFractor.generate])
    pass int bounds of the size of a canvas. *)
Definition random_normal_range (lb ub : Z) : M Z :=
  let* r := gauss_int in ret (clamp_range lb ub r).

(** [int(random.gauss(mu, sigma) + 0.5)] for any floats [mu] and
    [sigma] (given by their values).  CPython returns
    [mu + z * sigma] with [z = cos(2 pi x) * sqrt(-2 log(1 - y))] and
    [1 - y >= 2 ^ -53], so [|z| < 9]: the draw is finite unless
    [|mu| + 9 |sigma|] exceeds [2 ^ 1022], and [int] of an infinite draw
    raises OverflowError.  A stream value of magnitude [2 ^ 1024] or
    more stands for an infinite draw. *)
Definition gauss_int_checked (mu sigma : Q) : M Z :=
  let* r := draw in
  if (2 ^ 1024 <=? Z.abs r) && Qltb (inject_Z (2 ^ 1022)) (Qabs mu + 9 * Qabs sigma)
  then throw OverflowError
  else ret r.

(** [random_normal_range(lb, ub)] as written, for any ints:
    [mu = (lb + ub) / 2] and [sigma = (ub - lb) / 4] are float true
    divisions, which raise OverflowError beyond float range. *)
Definition random_normal_range_checked (lb ub : Z) : M Z :=
  match int_truediv (lb + ub) 2 with
  | inl e => throw e
  | inr mu =>
      match int_truediv (ub - lb) 4 with
      | inl e => throw e
      | inr sigma =>
          let* r := gauss_int_checked mu sigma in
          ret (clamp_range lb ub r)
      end
  end.

(** Canvas operations inside a fractor. *)
Definition m_set_architecture (p : point) (v : placeable) : M unit :=
  let* c := get_canvas in put_canvas (set_architecture c p v).
Definition m_add_item (p : point) (t : entity_type) : M unit :=
  let* c := get_canvas in lift_canvas (add_item c p t).
Definition m_set_creature (p : point) (t : entity_type) : M unit :=
  let* c := get_canvas in put_canvas (set_creature c p t).

Fixpoint m_iter {A} (f : A -> M unit) (l : list A) : M unit :=
  match l with
  | [] => ret tt
  | x :: l' => f x ;;; m_iter f l'
  end.

(* ------------------------------------------------------------------ *)
(** ** The fractor base class ([Fractor]) *)

(** [Fractor.place_stuff]. *)
Definition place_stuff : M unit :=
  let* c := get_canvas in
  if decide (floor_spaces c = ∅)
  then throw (AssertionError "can't place player with no open spaces")
  else
    let* points := sample (elements (floor_spaces c)) 10 in
    let pt i := default (0, 0) (points !! i) in
    m_set_creature (pt 0%nat) Salamango ;;;
    m_add_item (pt 1%nat) Armor ;;;
    m_add_item (pt 2%nat) Potion ;;;
    m_add_item (pt 3%nat) Potion ;;;
    m_add_item (pt 4%nat) Gem ;;;
    m_add_item (pt 5%nat) Crate.

(** [Fractor.place_portal]: the portal instance is built first, then the
    walkable set is checked. *)
Definition place_portal (portal_type : entity_type) (destination : Z) : M unit :=
  let portal := Inst portal_type (Some destination) in
  let* c := get_canvas in
  if decide (floor_spaces c = ∅)
  then throw (AssertionError "can't place portal with no open spaces")
  else
    let* p := choice (elements (floor_spaces c)) in
    m_set_architecture p portal.

(** A sequence of architecture writes on a canvas, run until the first
    exception. *)
Inductive canvas_call :=
  | CallClear (v : placeable)
  | CallSetArch (p : point) (v : placeable).

Fixpoint run_calls (c : MapCanvas) (calls : list canvas_call) : outcome unit * MapCanvas :=
  match calls with
  | [] => (Ok tt, c)
  | CallClear v :: rest =>
      match clear c v with
      | (Ok _, c') => run_calls c' rest
      | r => r
      end
  | CallSetArch p v :: rest => run_calls (set_architecture c p v) rest
  end.

(** The shape every canvas built through in-bounds writes keeps: the three
    grids are defined exactly on the rectangle, the walkable set lies in
    it. *)
Definition canvas_wf (c : MapCanvas) : Prop :=
  dom (arch_grid c) = rect_points (rect c) /\
  dom (item_grid c) = rect_points (rect c) /\
  dom (creature_grid c) = rect_points (rect c) /\
  floor_spaces c ⊆ rect_points (rect c).

(** The walkable set as the spec describes it: the in-bounds points whose
    architecture is not solid. *)
Definition floor_sync (c : MapCanvas) : Prop :=
  forall p, p ∈ floor_spaces c <->
    in_rect (rect c) p /\ exists v, arch_grid c !! p = Some v /\ is_emptyb (ptype v) = true.

(** The item grid [g] where each listed point has the listed item appended
    to the list it has in [g]. *)
Definition with_appended (g : gmap point (list entity_type))
    (adds : list (point * entity_type)) : gmap point (list entity_type) :=
  foldl (fun acc pt => <[fst pt := default [] (g !! fst pt) ++ [snd pt]]> acc) g adds.

(* ------------------------------------------------------------------ *)
(** ** The cave carver ([generate_caves]) *)

Definition b2z (b : bool) : Z := if b then 1 else 0.

(** [base_grid]: the forced walls, then the forced floors (a point in both
    ends up a floor). *)
Definition caves_base_grid (force_walls force_floors : list point) : gmap point bool :=
  foldl (fun g p => <[p := false]> g)
        (foldl (fun g p => <[p := true]> g) ∅ force_walls) force_floors.

(** [{point: random.random() < 0.40 for point in region.iter_points()}]. *)
Fixpoint random_grid (pts : list point) (g : gmap point bool) : M (gmap point bool) :=
  match pts with
  | [] => ret g
  | p :: pts' => let* b := random_below_040 in random_grid pts' (<[p := b]> g)
  end.

(** [grid[point] + sum(grid.get(neighbor, True) for neighbor in
    point.neighbors)]; [grid] always has every point of the region. *)
Definition wall_count (grid : gmap point bool) (p : point) : Z :=
  b2z (default false (grid !! p)) +
  foldr (fun q acc => b2z (default true (grid !! q)) + acc) 0 (neighbors p).

(** One generation: [next_grid = base_grid.copy()], then every point of the
    region is set by the 4-5 rule. *)
Definition caves_step (region : list point) (base grid : gmap point bool) : gmap point bool :=
  foldl (fun g p => <[p := 5 <=? wall_count grid p]> g) base region.

Fixpoint caves_steps (n : nat) (region : list point) (base grid : gmap point bool) : gmap point bool :=
  match n with
  | O => grid
  | S n' => caves_steps n' region base (caves_step region base grid)
  end.

(** The grid after the initial fill (with [grid.update(base_grid)]) and
    [n] generations, for the given draws. *)
Definition caves_grid_after (n : nat) (region : list point) (force_walls force_floors : list point)
    : M (gmap point bool) :=
  let base := caves_base_grid force_walls force_floors in
  let* grid := random_grid region ∅ in
  ret (caves_steps n region base (base ∪ grid)).

(** [generate_caves(map_canvas, region, wall_tile, force_walls,
    force_floors)], the region given by its points in iteration order. *)
Definition generate_caves (region : list point) (wall_tile : placeable)
    (force_walls force_floors : list point) : M unit :=
  let* grid := caves_grid_after 5 region force_walls force_floors in
  m_iter (fun p => if default false (grid !! p)
                   then m_set_architecture p wall_tile
                   else m_set_architecture p (Bare CaveFloor)) region.

(* ------------------------------------------------------------------ *)
(** ** The binary partition fractor ([BinaryPartitionFractor]) *)

(** A loop that has run out of the iterations it was given. *)
Definition out_of_fuel {A} : M A := fun s => (OutOfFuel, s).

(** [list.sort(key=lambda r: r.size.area, reverse=True)]: a stable sort by
    decreasing area; each region goes after those of area at least its
    own. *)
Fixpoint insert_by_area (r : Rectangle) (l : list Rectangle) : list Rectangle :=
  match l with
  | [] => [r]
  | x :: l' => if r_area x <? r_area r then r :: x :: l' else x :: insert_by_area r l'
  end.

Definition sort_by_area (l : list Rectangle) : list Rectangle :=
  foldl (fun acc r => insert_by_area r acc) [] l.

Section BinaryPartition.

(** [self.minimum_size]. *)
Variables min_width min_height : Z.

Definition partition_horizontal (region : Rectangle) : M (list Rectangle) :=
  let top := r_top region + min_height - 1 in
  let bottom := r_bottom region - min_height in
  if top <=? bottom then
    let* midpoint := randint top (bottom + 1) in
    ret [replace_bottom region midpoint; replace_top region (midpoint + 1)]
  else throw (AssertionError "").

Definition partition_vertical (region : Rectangle) : M (list Rectangle) :=
  let left := r_left region + min_width - 1 in
  let right := r_right region - min_width in
  if left <=? right then
    let* midpoint := randint left (right + 1) in
    ret [replace_right region midpoint; replace_left region (midpoint + 1)]
  else throw (AssertionError "").

(** [partition(region)]: [rel_height] and [rel_width] are float true
    divisions, computed in this order, compared as floats. *)
Definition partition (region : Rectangle) : M (list Rectangle) :=
  match int_truediv (r_height region) min_height with
  | inl e => throw e
  | inr rel_height =>
      match int_truediv (r_width region) min_width with
      | inl e => throw e
      | inr rel_width =>
          if Qltb rel_height 2 && Qltb rel_width 2 then ret [region]
          else if Qltb rel_width rel_height then partition_horizontal region
          else partition_vertical region
      end
  end.

(** [wanted = 7]. *)
Definition wanted : nat := 7.

(** The [while regions and len(regions) < wanted] loop, given [fuel]
    iterations. *)
Fixpoint partition_loop (fuel : nat) (regions : list Rectangle) : M (list Rectangle) :=
  match regions with
  | [] => ret []
  | region :: rest =>
      if decide (length regions < wanted)%nat then
        match fuel with
        | O => out_of_fuel
        | S fuel' =>
            let* new_regions := partition region in
            partition_loop fuel' (sort_by_area (rest ++ new_regions))
        end
      else ret regions
  end.

(** [maximally_partition()], starting from [self.region]. *)
Definition maximally_partition (fuel : nat) (region : Rectangle) : M (list Rectangle) :=
  partition_loop fuel [region].

End BinaryPartition.

(** The number of regions of a list that contain a point. *)
Definition cover_count (l : list Rectangle) (p : point) : nat :=
  length (filter (fun r => in_rectb r p = true) l).

(* ------------------------------------------------------------------ *)
(** ** Rooms, the map generation pipeline and the finalized map *)

(** [Room.randomize(region)] with its default [minimum_size=Size(5, 5)]:
    the room as its rectangle. *)
Definition room_randomize (region : Rectangle) : M Rectangle :=
  let* w := random_normal_range 5 (r_width region) in
  let* h := random_normal_range 5 (r_height region) in
  let* dl := randint 0 (r_width region - w) in
  let* dt := randint 0 (r_height region - h) in
  ret (mkRect (r_left region + dl) (r_top region + dt) w h).

(** [Room.draw_to_canvas(canvas)]: the assertion has no message. *)
Definition draw_to_canvas (room : Rectangle) : M unit :=
  let* c := get_canvas in
  if rect_inb room (rect c) then
    m_iter (fun p => m_set_architecture p (Bare Floor)) (iter_points room) ;;;
    m_iter (fun p => m_set_architecture p (Bare Wall)) (iter_border room)
  else throw (AssertionError "").

(** [Fractor.generate_room(region)]. *)
Definition generate_room (region : Rectangle) : M unit :=
  let* room := room_randomize region in draw_to_canvas room.

(** [BinaryPartitionFractor.generate()], with [self.region] and
    [self.minimum_size], the partition loop given [fuel] iterations. *)
Definition bpf_generate (min_width min_height : Z) (fuel : nat) (region : Rectangle) : M unit :=
  let* regions := maximally_partition min_width min_height fuel region in
  m_iter generate_room regions.

(** Modelled from the spec: [Map] of the missing [flax.map], the finalized
    grid "exposing, per point: the architecture tile instance, the ordered
    item instances, and the optional creature instance".  It is kept as the
    sequence of its [map.place(entity, point)] calls. *)
Definition Map : Type := list (point * placeable).

(** [MapCanvas.maybe_create]: an [Entity] as it is, a type instantiated. *)
Definition maybe_create (v : placeable) : placeable :=
  match v with
  | Bare t => Inst t None
  | Inst t d => Inst t d
  end.

(** The body of [MapCanvas.to_map] over the given points; a subscript of a
    grid that lacks the point raises KeyError. *)
Fixpoint to_map_points (c : MapCanvas) (pts : list point) : outcome Map :=
  match pts with
  | [] => Ok []
  | p :: pts' =>
      match arch_grid c !! p, item_grid c !! p, creature_grid c !! p with
      | Some a, Some items, Some cr =>
          match to_map_points c pts' with
          | Ok rest =>
              Ok ([(p, maybe_create a)] ++ map (fun t => (p, maybe_create (Bare t))) items ++
                  match cr with Some t => [(p, maybe_create (Bare t))] | None => [] end ++ rest)
          | Raise e => Raise e
          | OutOfFuel => OutOfFuel
          end
      | _, _, _ => Raise KeyError
      end
  end.

(** [MapCanvas.to_map()]. *)
Definition to_map (c : MapCanvas) : outcome Map := to_map_points c (iter_points (rect c)).

Definition from_outcome {A} (o : outcome A) : M A := fun s => (o, s).

(** [Fractor.generate_map(up, down)] for the fractor whose [generate()] is
    [generate]; a requested portal's destination is [Some d] (a truthy
    object), an absent one [None]. *)
Definition generate_map (generate : M unit) (up down : option Z) : M Map :=
  generate ;;;
  place_stuff ;;;
  match up with Some d => place_portal StairsUp d | None => ret tt end ;;;
  match down with Some d => place_portal StairsDown d | None => ret tt end ;;;
  let* c := get_canvas in from_outcome (to_map c).

(** The number of entities of type [t] placed on a map. *)
Definition count_type (m : list (point * placeable)) (t : entity_type) : nat :=
  length (filter (fun e => ptype (snd e) = t) m).

(** The canvas holds no stairs: no architecture tile, item or creature
    of a stairs type. *)
Definition is_stairs (t : entity_type) : Prop := t = StairsUp \/ t = StairsDown.

Definition stairs_free (c : MapCanvas) : Prop :=
  (forall p v, arch_grid c !! p = Some v -> ~ is_stairs (ptype v)) /\
  (forall p l t, item_grid c !! p = Some l -> t ∈ l -> ~ is_stairs t) /\
  (forall p t, creature_grid c !! p = Some (Some t) -> ~ is_stairs t).

(** What holds of a canvas of rectangle [R] through the layout and the
    placement of things. *)
Definition gen_inv (R : Rectangle) (c : MapCanvas) : Prop :=
  rect c = R /\ floor_spaces c ⊆ rect_points R /\ stairs_free c.

(** A run of [m] that returns leaves the canvas as it found it. *)
Definition keeps_canvas {A} (m : M A) : Prop :=
  forall s a s', m s = (Ok a, s') -> canvas s' = canvas s.

(** A run of [m] that returns keeps [P] of the canvas. *)
Definition preserves {A} (P : MapCanvas -> Prop) (m : M A) : Prop :=
  forall s a s', P (canvas s) -> m s = (Ok a, s') -> P (canvas s').

(** Whether a run returned. *)
Definition is_ok {A} (o : outcome A) : bool :=
  match o with Ok _ => true | _ => false end.

(** The value a run returned, [d] if it did not. *)
Definition ok_or {A} (d : A) (o : outcome A) : A :=
  match o with Ok a => a | _ => d end.

(** [BinaryPartitionFractor(Size(20, 20), minimum_size=Size(5, 5))
    .generate_map(up=1, down=2)] for the draws [rs] (the partition loop
    given ample iterations); an abbreviation, so the run is always written
    out in full. *)
Abbreviation bpf_run rs :=
  (generate_map (bpf_generate 5 5 100 (size_to_rect 20 20)) (Some 1) (Some 2)
     (mkState (new_canvas 20 20) rs)) (only parsing).

(* ------------------------------------------------------------------ *)
(** ** The valley flood connector ([PerlinFractor.flood_valleys]) *)

(** The height of a point, as the [depthmap] gives it; the algorithm only
    compares heights, so they are modelled by integers. *)
Definition depthmap_t : Type := point -> Z.

(** [sorted(points, key=depthmap.__getitem__)]: Python's sort is stable, so
    a point goes after every earlier point of no greater height. *)
Fixpoint insert_by_depth (depthmap : depthmap_t) (p : point) (l : list point) : list point :=
  match l with
  | [] => [p]
  | q :: l' => if depthmap p <? depthmap q then p :: l else q :: insert_by_depth depthmap p l'
  end.

Definition sort_by_depth (depthmap : depthmap_t) (l : list point) : list point :=
  foldl (fun acc p => insert_by_depth depthmap p acc) [] l.

(** A list in ascending order of height. *)
Fixpoint depth_sorted (depthmap : depthmap_t) (l : list point) : Prop :=
  match l with
  | [] => True
  | x :: l' => Forall (fun y => depthmap x <= depthmap y) l' /\ depth_sorted depthmap l'
  end.

(** [min(points, key=depthmap.__getitem__)] of the non-empty list
    [q0 :: qs]: the first point of least height. *)
Definition min_by_depth (depthmap : depthmap_t) (q0 : point) (qs : list point) : point :=
  foldl (fun best q => if depthmap q <? depthmap best then q else best) q0 qs.

(** The state of the flood: the dicts [flooded], [puddle_map] and
    [path_from_puddle] (a [defaultdict(dict)]: a missing key reads as the
    empty dict; the inner dicts keep insertion order, as association lists)
    and the set [paths]. *)
Record flood_state := mkFlood {
  flooded : gmap point nat;
  puddle_map : gmap nat nat;
  path_from_puddle : gmap point (list (nat * point));
  paths : gset point
}.

(** [puddle_map[flooded[x]]]: the puddle a flooded point belongs to now. *)
Definition puddle_of (fl : gmap point nat) (pm : gmap nat nat) (x : point) : option nat :=
  fl !! x ≫= (pm !!.).

(** The loop over [enumerate(goals)]: puddle [i] for the [i]-th goal, goals
    outside the region skipped. *)
Fixpoint seed_goals (region : list point) (i : nat) (goals : list point)
    (fl : gmap point nat) (pm : gmap nat nat) : gmap point nat * gmap nat nat :=
  match goals with
  | [] => (fl, pm)
  | g :: gs =>
      if decide (g ∈ region) then seed_goals region (S i) gs (<[g := i]> fl) (<[i := i]> pm)
      else seed_goals region (S i) gs fl pm
  end.

(** [adjacent_puddles], a [defaultdict(list)] in insertion order: a group
    [(puddle, q0, qs)] holds the non-empty list [q0 :: qs]. *)
Definition group : Type := (nat * point * list point)%type.

Definition group_key (g : group) : nat := let '(k, _, _) := g in k.

(** [adjacent_puddles[puddle].append(npt)]. *)
Fixpoint add_to_group (k : nat) (q : point) (gs : list group) : list group :=
  match gs with
  | [] => [(k, q, [])]
  | (k', q0, qs) :: gs' =>
      if decide (k = k') then (k', q0, qs ++ [q]) :: gs' else (k', q0, qs) :: add_to_group k q gs'
  end.

(** The loop over [point.neighbors]: a flooded neighbour is filed under
    [puddle_map[flooded[npt]]] (a KeyError if that puddle is unknown). *)
Fixpoint group_neighbors (fl : gmap point nat) (pm : gmap nat nat) (npts : list point)
    (gs : list group) : outcome (list group) :=
  match npts with
  | [] => Ok gs
  | npt :: rest =>
      match fl !! npt with
      | None => group_neighbors fl pm rest gs
      | Some i =>
          match pm !! i with
          | None => Raise KeyError
          | Some pd => group_neighbors fl pm rest (add_to_group pd npt gs)
          end
      end
  end.

(** [d[k] = v] on a dict kept in insertion order. *)
Fixpoint assoc_set {K V} `{EqDecision K} (k : K) (v : V) (l : list (K * V)) : list (K * V) :=
  match l with
  | [] => [(k, v)]
  | (k', v') :: l' => if decide (k = k') then (k, v) :: l' else (k', v') :: assoc_set k v l'
  end.

(** [for puddle, points in adjacent_puddles.items():
       path_from_puddle[point][puddle] = min(points, key=...)]. *)
Definition record_paths (depthmap : depthmap_t) (d : list (nat * point)) (gs : list group)
    : list (nat * point) :=
  foldl (fun d g => let '(k, q0, qs) := g in assoc_set k (min_by_depth depthmap q0 qs) d) d gs.

(** The inner loop of a walk: among the candidates whose puddle maps to
    [puddle], the first one of least height. *)
Fixpoint next_point (depthmap : depthmap_t) (pm : gmap nat nat) (puddle : nat)
    (cands : list (nat * point)) (best : option point) : outcome (option point) :=
  match cands with
  | [] => Ok best
  | (cp, cpt) :: cs =>
      match pm !! cp with
      | None => Raise KeyError
      | Some v =>
          next_point depthmap pm puddle cs
            (if bool_decide (v = puddle) &&
                match best with None => true | Some np => depthmap cpt <? depthmap np end
             then Some cpt else best)
      end
  end.

(** The [while path_point:] walk back from a junction towards the seed of
    [puddle]; a [Point] is a non-empty tuple, so the loop runs until
    [next_point] is [None].  Every step moves to a point flooded earlier, so
    [fuel] = one more than the size of the region is never exhausted. *)
Fixpoint walk (depthmap : depthmap_t) (pm : gmap nat nat) (pfp : gmap point (list (nat * point)))
    (fuel : nat) (puddle : nat) (path_point : point) (ps : gset point) : outcome (gset point) :=
  match fuel with
  | O => OutOfFuel
  | S fuel' =>
      let ps := {[path_point]} ∪ ps in
      match next_point depthmap pm puddle (default [] (pfp !! path_point)) None with
      | Ok None => Ok ps
      | Ok (Some np) => walk depthmap pm pfp fuel' puddle np ps
      | Raise e => Raise e
      | OutOfFuel => OutOfFuel
      end
  end.

(** [for puddle in adjacent_puddles: ...walk...]. *)
Fixpoint walks (depthmap : depthmap_t) (pm : gmap nat nat) (pfp : gmap point (list (nat * point)))
    (fuel : nat) (puddles : list nat) (p : point) (ps : gset point) : outcome (gset point) :=
  match puddles with
  | [] => Ok ps
  | pd :: pds =>
      match walk depthmap pm pfp fuel pd p ps with
      | Ok ps' => walks depthmap pm pfp fuel pds p ps'
      | Raise e => Raise e
      | OutOfFuel => OutOfFuel
      end
  end.

(** The merge loop over [puddle_map.items()]: assigning to the key being
    visited, each entry is rewritten from its own old value. *)
Definition merge_puddles (keys : list nat) (this : nat) (pm : gmap nat nat) : gmap nat nat :=
  map_imap (fun from to => Some (if decide (from ∈ keys \/ to ∈ keys) then this else to)) pm.

(** One iteration of [for point in flood_order]; the boolean is the
    [break] once a single puddle is left. *)
Definition flood_point (depthmap : depthmap_t) (fuel : nat) (st : flood_state) (p : point)
    : outcome (flood_state * bool) :=
  match group_neighbors (flooded st) (puddle_map st) (neighbors p) [] with
  | Raise e => Raise e
  | OutOfFuel => OutOfFuel
  | Ok [] => Ok (st, false)
  | Ok (g :: gs) =>
      let keys := map group_key (g :: gs) in
      let pfp := <[p := record_paths depthmap (default [] (path_from_puddle st !! p)) (g :: gs)]>
                   (path_from_puddle st) in
      let this := foldl Nat.min (group_key g) (map group_key gs) in
      let fl := <[p := this]> (flooded st) in
      if decide (1 < length (g :: gs))%nat then
        match walks depthmap (puddle_map st) pfp fuel keys p ({[p]} ∪ paths st) with
        | Ok ps =>
            let pm := merge_puddles keys this (puddle_map st) in
            Ok (mkFlood fl pm pfp ps, bool_decide (size (map_img pm : gset nat) = 1%nat))
        | Raise e => Raise e
        | OutOfFuel => OutOfFuel
        end
      else Ok (mkFlood fl (puddle_map st) pfp (paths st), false)
  end.

Fixpoint flood_loop (depthmap : depthmap_t) (fuel : nat) (order : list point) (st : flood_state)
    : outcome flood_state :=
  match order with
  | [] => Ok st
  | p :: rest =>
      match flood_point depthmap fuel st p with
      | Ok (st', true) => Ok st'
      | Ok (st', false) => flood_loop depthmap fuel rest st'
      | Raise e => Raise e
      | OutOfFuel => OutOfFuel
      end
  end.

(** [PerlinFractor.flood_valleys(region, goals, depthmap)].  The region is
    given by the list of its points, in the (unspecified) iteration order of
    [frozenset(region.iter_points())]; [goals] in its iteration order. *)
Definition flood_valleys (region goals : list point) (depthmap : depthmap_t) : outcome (gset point) :=
  let '(fl, pm) := seed_goals region 0 goals ∅ ∅ in
  let flood_order := sort_by_depth depthmap (filter (fun q => fl !! q = None) (remove_dups region)) in
  match flood_loop depthmap (S (length region)) flood_order (mkFlood fl pm ∅ ∅) with
  | Ok st => Ok (paths st)
  | Raise e => Raise e
  | OutOfFuel => OutOfFuel
  end.

(** Adjacency through a set of points, for a neighbourhood [nb]. *)
Definition linked (nb : point -> list point) (T : gset point) : relation point :=
  rtc (fun u v => u ∈ T /\ v ∈ T /\ v ∈ nb u).

(** The four axis neighbours of a point (the spec's "4-neighbor
    adjacency"). *)
Definition axis_neighbors (p : point) : list point :=
  let '(x, y) := p in [(x, y - 1); (x + 1, y); (x, y + 1); (x - 1, y)].

(** Whether [p] has a neighbour in the region strictly lower than itself;
    a point without one is a local minimum in the spec's sense (its value
    is ≤ every in-region neighbour's). *)
Definition has_lower_neighbor (nb : point -> list point) (region : list point)
    (depthmap : depthmap_t) (p : point) : bool :=
  existsb (fun q => bool_decide (q ∈ region) && (depthmap q <? depthmap p)) (nb p).

(** Every local minimum of the region is a goal. *)
Definition minima_are_goals (nb : point -> list point) (region goals : list point)
    (depthmap : depthmap_t) : bool :=
  forallb (fun p => bool_decide (p ∈ goals) || has_lower_neighbor nb region depthmap p) region.

(** The goals of the region are exactly its local minima. *)
Definition goals_are_minima (nb : point -> list point) (region goals : list point)
    (depthmap : depthmap_t) : bool :=
  forallb (fun p => Bool.eqb (bool_decide (p ∈ goals)) (negb (has_lower_neighbor nb region depthmap p)))
    region.

(** The goals that lie in the region (the seeds). *)
Definition seeds (region goals : list point) : gset point :=
  list_to_set (filter (fun g => g ∈ region) goals).

(** A seed: a goal that lies in the region. *)
Definition is_seed (region goals : list point) (x : point) : Prop := x ∈ region /\ x ∈ goals.

(** What holds of the flood between two iterations of its loop: the
    puddle ids, the remembered steps back towards the seeds, the puddles of
    neighbouring flooded points, and the links drawn so far. *)
Record flood_inv (region goals : list point) (st : flood_state) : Prop := {
  inv_pm : forall k v, puddle_map st !! k = Some v -> puddle_map st !! v = Some v;
  inv_fl : forall x i, flooded st !! x = Some i -> is_Some (puddle_map st !! i) /\ x ∈ region;
  inv_seed : forall x, is_seed region goals x -> is_Some (flooded st !! x);
  inv_pf : forall x l cp cpt, path_from_puddle st !! x = Some l -> (cp, cpt) ∈ l ->
    cpt ∈ neighbors x /\ is_Some (flooded st !! cpt) /\
    puddle_map st !! cp = puddle_of (flooded st) (puddle_map st) cpt;
  inv_own : forall x i, flooded st !! x = Some i -> ~ is_seed region goals x ->
    exists l c, path_from_puddle st !! x = Some l /\ (i, c) ∈ l;
  inv_adj : forall x y, y ∈ neighbors x -> is_Some (flooded st !! x) -> is_Some (flooded st !! y) ->
    ~ is_seed region goals x \/ ~ is_seed region goals y ->
    puddle_of (flooded st) (puddle_map st) x = puddle_of (flooded st) (puddle_map st) y;
  inv_link : forall a b, is_seed region goals a -> is_seed region goals b ->
    puddle_of (flooded st) (puddle_map st) a = puddle_of (flooded st) (puddle_map st) b ->
    linked neighbors (paths st ∪ seeds region goals) a b;
  inv_paths : forall y, y ∈ paths st -> y ∈ region
}.

(** A 3x3 region with two valleys, at [(0,0)] and [(2,2)], whose floods
    first meet at [(1,0)], diagonally next to [(2,1)]. *)
Definition valley_region : list point := iter_points (mkRect 0 0 3 3).

Definition valley_goals : list point := [(0, 0); (2, 2)].

Definition valley_depth (p : point) : Z :=
  if decide (p = (0, 0)) then 0
  else if decide (p = (2, 2)) then 0
  else if decide (p = (2, 1)) then 2
  else if decide (p = (1, 2)) then 3
  else if decide (p = (1, 0)) then 4
  else if decide (p = (0, 1)) then 5
  else if decide (p = (1, 1)) then 6
  else 9.

Definition valley_paths : gset point := {[(0, 0); (1, 0); (2, 1); (2, 2)]}.


(* ------------------------------------------------------------------ *)
(** ** [random_normal_int] *)

(** [random_normal_int(mu, sigma)] for int arguments of the size of a
    canvas, as the modelled caller (the room widths of
    [RuinedHallFractor.generate]) passes them:
    [mu - 2 * sigma] and [mu + 2 * sigma] are then exact ints, given here
    as rationals, so [math.ceil] and [math.floor] are [Qceiling] and
    [Qfloor] of them; the rounded draw is [gauss_int], then the same
    clamping as in [random_normal_range].  Float arguments (rounded sums,
    nan, infinities), which other callers pass, are not modelled. *)
Definition random_normal_int (mu sigma : Q) : M Z :=
  let* r := gauss_int in
  let lb := Qceiling (mu - 2 * sigma)%Q in
  let ub := Qfloor (mu + 2 * sigma)%Q in
  ret (clamp_range lb ub r).

(* ------------------------------------------------------------------ *)
(** ** Building entity types and entities ([flax/entity.py]) *)

(** A Python dict in insertion order, as an association list. *)
Fixpoint assoc_lookup {K V} `{EqDecision K} (k : K) (d : list (K * V)) : option V :=
  match d with
  | [] => None
  | (k', v) :: d' => if decide (k = k') then Some v else assoc_lookup k d'
  end.

(** [dict.pop(k)] of a key the dict has: its binding is removed. *)
Fixpoint assoc_delete {K V} `{EqDecision K} (k : K) (d : list (K * V)) : list (K * V) :=
  match d with
  | [] => []
  | (k', v) :: d' => if decide (k = k') then d' else (k', v) :: assoc_delete k d'
  end.

(** The interfaces, components and initializers come from the missing
    [flax.component]; they are kept abstract.  A raised [TypeError] is
    [inl msg]. *)
Section EntityConstruction.

Context {Iface Comp Init : Type} `{EqDecision Iface}.

(** [component.interface]. *)
Variable comp_interface : Comp -> Iface.
(** [initializer.interface] and [initializer.component]. *)
Variable init_interface : Init -> Iface.
Variable init_component : Init -> Comp.
(** [issubclass(component, other)]. *)
Variable issubclass : Comp -> Comp -> bool.

(** The loop of [EntityType.__init__] filling [self.components]. *)
Fixpoint add_components (acc : list (Iface * Comp)) (comps : list Comp)
    : string + list (Iface * Comp) :=
  match comps with
  | [] => inr acc
  | c :: cs =>
      match assoc_lookup (comp_interface c) acc with
      | Some _ => inl "Got two components for the same interface"
      | None => add_components (acc ++ [(comp_interface c, c)]) cs
      end
  end.

(** The [components] of [EntityType(c1, c2, ...)]. *)
Definition type_components (comps : list Comp) : string + list (Iface * Comp) :=
  add_components [] comps.

(** The first loop of [Entity.__init__], filling
    [interface_initializers]. *)
Fixpoint collect_initializers (acc : list (Iface * Init)) (inits : list Init)
    : string + list (Iface * Init) :=
  match inits with
  | [] => inr acc
  | i :: is =>
      match assoc_lookup (init_interface i) acc with
      | Some _ => inl "Constructor got two initializers for the same interface"
      | None => collect_initializers (acc ++ [(init_interface i, i)]) is
      end
  end.

(** The loop of [Entity.__init__] over [self.type.components.items()]:
    the initializers run, in order, are logged; [inl i] is the caller's
    initializer [i], [inr c] the component [c] itself. *)
Fixpoint run_initializers (components : list (Iface * Comp)) (pending : list (Iface * Init))
    (log : list (Init + Comp)) : string + list (Init + Comp) :=
  match components with
  | [] => inr log
  | (iface, comp) :: rest =>
      match assoc_lookup iface pending with
      | Some i =>
          if issubclass comp (init_component i)
          then run_initializers rest (assoc_delete iface pending) (log ++ [inl i])
          else inl "Constructor got an initializer which is not a superclass of the actual component"
      | None => run_initializers rest pending (log ++ [inr comp])
      end
  end.

(** [Entity(type, *initializers)] for a type with the given components:
    the initializers it runs; leftover initializers are ignored. *)
Definition entity_init (components : list (Iface * Comp)) (inits : list Init)
    : string + list (Init + Comp) :=
  match collect_initializers [] inits with
  | inl e => inl e
  | inr pending => run_initializers components pending []
  end.

End EntityConstruction.

(** [Entity.relations], a [defaultdict(set)] keyed by the type of a
    relation; relations and their types are kept abstract. *)
Section Relations.

Context {Rel RelType : Type} `{Countable Rel} `{Countable RelType}.

(** [type(relation)]. *)
Variable type_of : Rel -> RelType.

(** [Entity.attach_relation]: the subscript creates an empty set for a new
    type, then the relation is added. *)
Definition attach_relation (rels : gmap RelType (gset Rel)) (r : Rel) : gmap RelType (gset Rel) :=
  let s := default ∅ (rels !! type_of r) in
  <[type_of r := s ∪ {[r]}]> rels.

(** [Entity.detach_relation]: the subscript creates an empty set for a new
    type, then [set.remove] raises KeyError for a relation the set lacks. *)
Definition detach_relation (rels : gmap RelType (gset Rel)) (r : Rel)
    : outcome unit * gmap RelType (gset Rel) :=
  let s := default ∅ (rels !! type_of r) in
  if decide (r ∈ s) then (Ok tt, <[type_of r := s ∖ {[r]}]> rels)
  else (Raise KeyError, <[type_of r := s]> rels).

End Relations.

(* ------------------------------------------------------------------ *)
(** ** The rooms of [RuinedHallFractor.generate] *)

(** The [while num_rooms > 1] loop of [RuinedHallFractor.generate]: it
    runs [num_rooms - 1] times ([k] counts the runs left); Python's [//]
    is [Z.div]. *)
Fixpoint carve_rooms (k : nat) (space : Rectangle) (num_rooms : Z) (rooms : list Rectangle)
    : M (list Rectangle) :=
  match k with
  | O => ret (rooms ++ [space])
  | S k' =>
      let min_width := 7 in
      let avg_width := (r_width space - 1) / num_rooms + 1 in
      let max_width := r_width space - (min_width - 1) * (num_rooms - 1) in
      let* room_width := random_normal_int (inject_Z avg_width)
          (inject_Z (Z.min (max_width - avg_width) (avg_width - min_width) / 3)) in
      let room := replace_right space (r_left space + room_width - 1) in
      carve_rooms k' (replace_left space (r_right room)) (num_rooms - 1) (rooms ++ [room])
  end.

(** The body of [for orig_space in (top_space, bottom_space)] in
    [RuinedHallFractor.generate]: the rooms one space adds to [rooms]. *)
Definition hall_rooms (space : Rectangle) : M (list Rectangle) :=
  let minimum_width := 7 in
  let maximum_rooms := (r_width space - 1) / (minimum_width - 1) in
  let minimum_rooms := maximum_rooms / 6 + 1 in
  let* num_rooms := random_normal_range minimum_rooms maximum_rooms in
  carve_rooms (Z.to_nat (num_rooms - 1)) space num_rooms [].

(* ================================================================== *)
(** * Proofs *)

(** ** Geometry *)

Lemma elem_of_Zrange (a z : Z) (n : nat) :
  z ∈ Zrange a n <-> a <= z < a + Z.of_nat n.
Proof.
  revert a. induction n as [|n IH]; intros a; simpl.
  - rewrite elem_of_nil. lia.
  - rewrite elem_of_cons, IH. lia.
Qed.

Lemma elem_of_iter_points (r : Rectangle) (p : point) :
  p ∈ iter_points r <-> in_rect r p.
Proof.
  destruct p as [x y]. unfold iter_points, in_rect, r_left, r_right, r_top, r_bottom, px, py; simpl.
  rewrite list_elem_of_In, in_flat_map. split.
  - intros (y' & Hy & Hx). apply in_map_iff in Hx as (x' & [= -> ->] & Hx).
    apply list_elem_of_In, elem_of_Zrange in Hy. apply list_elem_of_In, elem_of_Zrange in Hx.
    lia.
  - intros [Hx Hy]. exists y. split.
    + apply list_elem_of_In, elem_of_Zrange. lia.
    + apply in_map_iff. exists x. split; [done|]. apply list_elem_of_In, elem_of_Zrange. lia.
Qed.

Lemma elem_of_rect_points (r : Rectangle) (p : point) :
  p ∈ rect_points r <-> in_rect r p.
Proof. unfold rect_points. rewrite elem_of_list_to_set. apply elem_of_iter_points. Qed.

Lemma in_rectb_spec (r : Rectangle) (p : point) : in_rectb r p = true <-> in_rect r p.
Proof.
  unfold in_rectb, in_rect. rewrite !andb_true_iff, !Z.leb_le. tauto.
Qed.

(** ** The canvas *)

Lemma lookup_foldl_insert {V} (g : gmap point V) (v : V) (l : list point) (p : point) :
  foldl (fun g q => <[q := v]> g) g l !! p = if decide (p ∈ l) then Some v else g !! p.
Proof.
  revert g. induction l as [|q l IH]; intros g; cbn [foldl].
  - case_decide as H; [by apply elem_of_nil in H|done].
  - rewrite IH. case_decide as Hin; case_decide as Hin'; try done.
    + exfalso. apply Hin'. rewrite elem_of_cons. auto.
    + rewrite elem_of_cons in Hin'. destruct Hin' as [->|?]; [|done].
      by rewrite lookup_insert_eq.
    + rewrite lookup_insert_ne; [done|]. intros ->. apply Hin'. rewrite elem_of_cons. auto.
Qed.

Lemma new_canvas_wf (w h : Z) : canvas_wf (new_canvas w h).
Proof.
  unfold canvas_wf, new_canvas; simpl. rewrite !dom_gset_to_gmap. set_solver.
Qed.

Lemma new_canvas_floor_sync (w h : Z) : floor_sync (new_canvas w h).
Proof.
  intros p. unfold new_canvas; simpl. rewrite lookup_gset_to_gmap. split.
  - set_solver.
  - intros (_ & v & Hv & He). destruct (decide (p ∈ rect_points (size_to_rect w h))).
    + rewrite option_guard_True in Hv by done. injection Hv as <-. discriminate.
    + rewrite option_guard_False in Hv by done. discriminate.
Qed.

Lemma clear_floor_sync (c c' : MapCanvas) (v : placeable) :
  clear c v = (Ok tt, c') -> floor_sync c'.
Proof.
  intros Hc. destruct v as [t|t d]; [|discriminate]. unfold clear in Hc.
  injection Hc as <-. intros p; simpl. rewrite lookup_foldl_insert.
  case_decide as Hin; rewrite elem_of_iter_points in Hin.
  - destruct (is_emptyb t) eqn:Ht.
    + rewrite elem_of_rect_points. split; [eauto|tauto].
    + split; [set_solver|]. intros (_ & v & [= <-] & He). simpl in He. congruence.
  - destruct (is_emptyb t) eqn:Ht.
    + rewrite elem_of_rect_points. tauto.
    + split; [set_solver|]. tauto.
Qed.

Lemma set_architecture_floor_sync (c : MapCanvas) (p : point) (v : placeable) :
  floor_sync c -> in_rect (rect c) p -> floor_sync (set_architecture c p v).
Proof.
  intros Hs Hp q. unfold set_architecture; simpl.
  destruct (decide (q = p)) as [->|Hne].
  - rewrite lookup_insert_eq. destruct (is_emptyb (ptype v)) eqn:He.
    + split; [|set_solver]. intros _. eauto.
    + split; [set_solver|]. intros (_ & v' & [= <-] & He'). congruence.
  - rewrite lookup_insert_ne by congruence. rewrite <- (Hs q).
    destruct (is_emptyb (ptype v)); set_solver.
Qed.

Lemma clear_rect (c c' : MapCanvas) (v : placeable) (o : outcome unit) :
  clear c v = (o, c') -> rect c' = rect c.
Proof. unfold clear. destruct v; intros [= _ <-]; done. Qed.

Lemma run_calls_floor_sync (c c' : MapCanvas) (calls : list canvas_call) :
  floor_sync c ->
  (forall p v, CallSetArch p v ∈ calls -> in_rect (rect c) p) ->
  run_calls c calls = (Ok tt, c') -> floor_sync c'.
Proof.
  revert c. induction calls as [|call calls IH]; intros c Hs Hin Hrun; simpl in Hrun.
  - by injection Hrun as <-.
  - destruct call as [v|p v].
    + destruct (clear c v) as [o c1] eqn:Hc. destruct o as [[]| |]; try discriminate.
      apply (IH c1); [by eapply clear_floor_sync| |done].
      intros p v' Hp. rewrite (clear_rect _ _ _ _ Hc). apply (Hin p v').
      rewrite elem_of_cons. auto.
    + apply (IH (set_architecture c p v)); [| |done].
      * apply set_architecture_floor_sync; [done|]. apply (Hin p v). rewrite elem_of_cons. auto.
      * intros q v' Hq. apply (Hin q v'). rewrite elem_of_cons. auto.
Qed.

(** ** C2: the walkable set *)

(** C2 (counterexample).  [set_architecture] stores at any point: writing a
    floor at a point outside the 1x1 canvas puts that point in
    [floor_spaces], which is then not the set of in-bounds walkable points. *)
Lemma floor_spaces_out_of_bounds_cex :
  let r := run_calls (new_canvas 1 1) [CallSetArch (5, 5) (Bare Floor)] in
  fst r = Ok tt /\ (5, 5) ∈ floor_spaces (snd r) /\ ~ in_rect (rect (snd r)) (5, 5) /\
  ~ floor_sync (snd r).
Proof.
  simpl. unfold in_rect, r_left, r_right, r_top, r_bottom, px, py; simpl.
  split; [done|]. split; [set_solver|]. split; [lia|].
  intros Hs. destruct (proj1 (Hs (5, 5)) ltac:(set_solver)) as [Hr _].
  unfold in_rect, r_left, r_right, r_top, r_bottom, px, py in Hr; simpl in Hr. lia.
Qed.

(** C2 (amended).  For every sequence of [clear] / [set_architecture] calls
    on a fresh canvas whose [set_architecture] points lie in the canvas
    rectangle and which completes without an exception, [floor_spaces] is
    exactly the set of in-bounds points whose architecture is non-solid. *)
Theorem floor_spaces_invariant (w h : Z) (calls : list canvas_call) (c : MapCanvas) :
  (forall p v, CallSetArch p v ∈ calls -> in_rect (size_to_rect w h) p) ->
  run_calls (new_canvas w h) calls = (Ok tt, c) ->
  floor_sync c.
Proof.
  intros Hin Hrun. eapply run_calls_floor_sync; [apply new_canvas_floor_sync| |exact Hrun].
  exact Hin.
Qed.

Lemma floor_spaces_invariant_witness :
  (forall p v, CallSetArch p v ∈ [CallClear (Bare Floor); CallSetArch (1, 1) (Bare Wall)] ->
               in_rect (size_to_rect 3 3) p) /\
  run_calls (new_canvas 3 3) [CallClear (Bare Floor); CallSetArch (1, 1) (Bare Wall)]
    = (Ok tt, snd (run_calls (new_canvas 3 3) [CallClear (Bare Floor); CallSetArch (1, 1) (Bare Wall)])) /\
  floor_sync (snd (run_calls (new_canvas 3 3) [CallClear (Bare Floor); CallSetArch (1, 1) (Bare Wall)])).
Proof.
  assert (Hin : forall p v, CallSetArch p v ∈ [CallClear (Bare Floor); CallSetArch (1, 1) (Bare Wall)] ->
               in_rect (size_to_rect 3 3) p).
  { intros p v Hp. rewrite !elem_of_cons, elem_of_nil in Hp.
    destruct Hp as [Hp|[Hp|[]]]; [discriminate|]. injection Hp as -> ->.
    unfold in_rect, r_left, r_right, r_top, r_bottom, px, py; simpl. lia. }
  assert (Hrun : run_calls (new_canvas 3 3) [CallClear (Bare Floor); CallSetArch (1, 1) (Bare Wall)]
    = (Ok tt, snd (run_calls (new_canvas 3 3) [CallClear (Bare Floor); CallSetArch (1, 1) (Bare Wall)])))
    by reflexivity.
  split; [exact Hin|]. split; [exact Hrun|].
  exact (floor_spaces_invariant 3 3 _ _ Hin Hrun).
Defined.

(** ** C4: out-of-bounds writes *)

(** C4 (counterexample).  On a fresh 2x2 canvas, [set_architecture] and
    [set_creature] at the out-of-bounds point (5, 5) raise nothing: they
    store the tile there, adding a key the grids did not have. *)
Lemma out_of_bounds_writes_cex :
  let c := new_canvas 2 2 in
  ~ in_rect (rect c) (5, 5) /\
  arch_grid c !! (5, 5) = None /\
  arch_grid (set_architecture c (5, 5) (Bare Floor)) !! (5, 5) = Some (Bare Floor) /\
  creature_grid c !! (5, 5) = None /\
  creature_grid (set_creature c (5, 5) Salamango) !! (5, 5) = Some (Some Salamango).
Proof.
  simpl. unfold in_rect, r_left, r_right, r_top, r_bottom, px, py; simpl.
  split; [lia|]. split; [reflexivity|]. split; [reflexivity|]. split; reflexivity.
Qed.

(** C4 (amended).  On a well-formed canvas and a point outside its
    rectangle, [add_item] raises KeyError and leaves the canvas as it was,
    while [set_architecture] and [set_creature] perform no bounds check:
    they store the tile there and the grid's key set grows by that point. *)
Theorem out_of_bounds_behaviour (c : MapCanvas) (p : point) (t : entity_type) (v : placeable) :
  canvas_wf c -> ~ in_rect (rect c) p ->
  add_item c p t = (Raise KeyError, c) /\
  arch_grid (set_architecture c p v) !! p = Some v /\
  dom (arch_grid (set_architecture c p v)) = {[p]} ∪ rect_points (rect c) /\
  creature_grid (set_creature c p t) !! p = Some (Some t) /\
  dom (creature_grid (set_creature c p t)) = {[p]} ∪ rect_points (rect c).
Proof.
  intros (Ha & Hi & Hc & _) Hp. rewrite <- elem_of_rect_points in Hp.
  unfold add_item, set_architecture, set_creature; simpl.
  assert (Hn : item_grid c !! p = None) by (apply not_elem_of_dom; congruence).
  rewrite Hn. rewrite !lookup_insert_eq, !dom_insert_L, Ha, Hc. done.
Qed.

Lemma out_of_bounds_behaviour_witness :
  canvas_wf (new_canvas 2 2) /\ ~ in_rect (rect (new_canvas 2 2)) (5, 5) /\
  (add_item (new_canvas 2 2) (5, 5) Armor = (Raise KeyError, new_canvas 2 2) /\
   arch_grid (set_architecture (new_canvas 2 2) (5, 5) (Bare Floor)) !! (5, 5) = Some (Bare Floor) /\
   dom (arch_grid (set_architecture (new_canvas 2 2) (5, 5) (Bare Floor)))
     = {[(5, 5)]} ∪ rect_points (rect (new_canvas 2 2)) /\
   creature_grid (set_creature (new_canvas 2 2) (5, 5) Armor) !! (5, 5) = Some (Some Armor) /\
   dom (creature_grid (set_creature (new_canvas 2 2) (5, 5) Armor))
     = {[(5, 5)]} ∪ rect_points (rect (new_canvas 2 2))).
Proof.
  assert (Hw := new_canvas_wf 2 2).
  assert (Hp : ~ in_rect (rect (new_canvas 2 2)) (5, 5)).
  { unfold in_rect, r_left, r_right, r_top, r_bottom, px, py; simpl. lia. }
  split; [exact Hw|]. split; [exact Hp|].
  exact (out_of_bounds_behaviour _ _ Armor (Bare Floor) Hw Hp).
Defined.

(** ** C7: placing a portal without open space *)

(** C7.  When the walkable set is empty, [place_portal] raises the "no open
    spaces" assertion and leaves the state (canvas and random source)
    exactly as it was. *)
Theorem place_portal_no_open_spaces (portal_type : entity_type) (destination : Z) (s : fstate) :
  floor_spaces (canvas s) = ∅ ->
  place_portal portal_type destination s
    = (Raise (AssertionError "can't place portal with no open spaces"), s).
Proof.
  intros He. unfold place_portal, bind, get_canvas, throw. simpl.
  rewrite decide_True by exact He. reflexivity.
Qed.

Lemma place_portal_no_open_spaces_witness :
  floor_spaces (canvas (mkState (new_canvas 3 3) [1; 2])) = ∅ /\
  place_portal StairsUp 7 (mkState (new_canvas 3 3) [1; 2])
    = (Raise (AssertionError "can't place portal with no open spaces"),
       mkState (new_canvas 3 3) [1; 2]).
Proof.
  assert (He : floor_spaces (canvas (mkState (new_canvas 3 3) [1; 2])) = ∅) by reflexivity.
  split; [exact He|]. exact (place_portal_no_open_spaces StairsUp 7 _ He).
Defined.

(** ** C9: bounded normal sampling *)

Lemma pow2Q_pos (k : Z) : (0 < pow2Q k)%Q.
Proof.
  unfold pow2Q. destruct (0 <=? k) eqn:E.
  - change 0%Q with (inject_Z 0). rewrite <- Zlt_Qlt.
    apply Z.pow_pos_nonneg; [lia|]. apply Z.leb_le in E. lia.
  - apply Qinv_lt_0_compat. change 0%Q with (inject_Z 0). rewrite <- Zlt_Qlt.
    apply Z.pow_pos_nonneg; lia.
Qed.

Lemma pow2Q_le_1 (k : Z) : k < 0 -> (pow2Q k <= 1)%Q.
Proof.
  intros Hk. unfold pow2Q. destruct (0 <=? k) eqn:E; [apply Z.leb_le in E; lia|].
  assert (Hp : 0 < 2 ^ (- k)) by (apply Z.pow_pos_nonneg; lia).
  destruct (2 ^ (- k)) as [|p|p]; try lia.
  unfold Qinv, Qle; simpl. lia.
Qed.

Lemma pow2Q_step_le (x : Q) :
  (0 < x)%Q -> (pow2Q (Z.max (Qlog2_floor x - 52) (-1074)) <= x + 1)%Q.
Proof.
  intros Hx. unfold Qlog2_floor. destruct (Qle_bool 1 x) eqn:E.
  - apply Qle_bool_iff in E.
    assert (Hf : 1 <= Qfloor x) by (change 1 with (Qfloor 1); now apply Qfloor_resp_le).
    destruct (Z.log2_spec (Qfloor x)) as [Hlo _]; [lia|].
    set (k := Z.max _ _).
    apply Qle_trans with x; [|rewrite <- (Qplus_0_r x) at 1; apply Qplus_le_r; discriminate].
    destruct (Z_lt_le_dec k 0) as [Hk|Hk].
    + apply Qle_trans with 1%Q; [now apply pow2Q_le_1|exact E].
    + unfold pow2Q. rewrite (proj2 (Z.leb_le 0 k) Hk).
      apply Qle_trans with (inject_Z (Qfloor x)); [|apply Qfloor_le].
      rewrite <- Zle_Qle. etransitivity; [|exact Hlo].
      apply Z.pow_le_mono_r; [lia|]. unfold k. pose proof (Z.log2_nonneg (Qfloor x)). lia.
  - pose proof (Z.log2_up_nonneg (Qceiling (/ x))).
    apply Qle_trans with 1%Q; [apply pow2Q_le_1; lia|].
    rewrite <- (Qplus_0_l 1) at 1. apply Qplus_le_l. now apply Qlt_le_weak.
Qed.

Lemma round_half_even_bounds (q : Q) :
  Qfloor q <= round_half_even q <= Qfloor q + 1.
Proof.
  unfold round_half_even. destruct (_ ?= _)%Q; [destruct (Z.even _)| |]; lia.
Qed.

Lemma b64_round_pos_small (x : Q) :
  (0 < x)%Q -> (2 * x + 1 < inject_Z (2 ^ 1024))%Q ->
  exists r, b64_round_pos x = Some r /\ (0 <= r)%Q /\ (r <= 2 * x + 1)%Q.
Proof.
  intros Hx Hb. unfold b64_round_pos.
  set (k := Z.max _ _). set (p := pow2Q k). set (m := round_half_even (x / p)).
  assert (Hp : (0 < p)%Q) by apply pow2Q_pos.
  assert (Hpx : (p <= x + 1)%Q) by apply pow2Q_step_le, Hx.
  assert (Hxp : (0 < x / p)%Q) by (apply Qlt_shift_div_l; [exact Hp|]; now rewrite Qmult_0_l).
  assert (Hm0 : 0 <= m).
  { unfold m. pose proof (round_half_even_bounds (x / p)).
    pose proof (Qfloor_resp_le 0 (x / p) (Qlt_le_weak _ _ Hxp)). change (Qfloor 0) with 0 in *. lia. }
  assert (Hm1 : (inject_Z m <= x / p + 1)%Q).
  { apply Qle_trans with (inject_Z (Qfloor (x / p) + 1)).
    - rewrite <- Zle_Qle. unfold m. apply round_half_even_bounds.
    - rewrite inject_Z_plus. apply Qplus_le_l. apply Qfloor_le. }
  assert (Hr0 : (0 <= inject_Z m * p)%Q).
  { apply Qmult_le_0_compat; [change 0%Q with (inject_Z 0); now rewrite <- Zle_Qle|now apply Qlt_le_weak]. }
  assert (Hr1 : (inject_Z m * p <= 2 * x + 1)%Q).
  { apply Qle_trans with ((x / p + 1) * p)%Q.
    - apply Qmult_le_compat_r; [exact Hm1|now apply Qlt_le_weak].
    - assert (E1 : ((x / p + 1) * p == x + p)%Q).
      { field. intros H. rewrite H in Hp. discriminate. }
      assert (E2 : (2 * x + 1 == x + (x + 1))%Q) by ring.
      rewrite E1, E2. now apply Qplus_le_r. }
  assert (Hpow : pow2Q 1024 = inject_Z (2 ^ 1024)) by reflexivity.
  destruct (Qle_bool (pow2Q 1024) _) eqn:E.
  - exfalso. apply Qle_bool_iff in E. rewrite Hpow in E.
    apply (Qlt_not_le _ _ Hb). now apply Qle_trans with (inject_Z m * p)%Q.
  - eexists. split; [reflexivity|]. split; assumption.
Qed.

Lemma b64_round_small (q : Q) :
  (2 * Qabs q + 1 < inject_Z (2 ^ 1024))%Q ->
  exists r, b64_round q = Some r /\ (Qabs r <= 2 * Qabs q + 1)%Q.
Proof.
  intros Hb. unfold b64_round. destruct (q ?= 0)%Q eqn:E.
  - exists 0%Q. split; [reflexivity|]. simpl.
    apply Qle_trans with (2 * Qabs q)%Q.
    + apply Qmult_le_0_compat; [discriminate|apply Qabs_nonneg].
    + rewrite <- (Qplus_0_r (2 * Qabs q)) at 1. apply Qplus_le_r. discriminate.
  - rewrite <- Qlt_alt in E.
    assert (Ha : (Qabs q == - q)%Q) by (apply Qabs_neg; now apply Qlt_le_weak).
    rewrite Ha in Hb.
    destruct (b64_round_pos_small (- q)) as (r & Hr & H0 & H1).
    + change 0%Q with (- 0)%Q. now apply Qopp_lt_compat.
    + exact Hb.
    + rewrite Hr. exists (- r)%Q. split; [reflexivity|].
      rewrite Ha, Qabs_opp, Qabs_pos by exact H0. exact H1.
  - rewrite <- Qgt_alt in E.
    assert (Ha : (Qabs q == q)%Q) by (apply Qabs_pos; now apply Qlt_le_weak).
    rewrite Ha in Hb.
    destruct (b64_round_pos_small q) as (r & Hr & H0 & H1); [exact E|exact Hb|].
    exists r. split; [exact Hr|]. rewrite Ha, Qabs_pos by exact H0. exact H1.
Qed.

Lemma int_truediv_small (a b : Z) :
  0 < b -> 2 * Z.abs a + 1 < 2 ^ 1024 ->
  exists r, int_truediv a b = inr r /\ (Qabs r <= inject_Z (2 * Z.abs a + 1))%Q.
Proof.
  intros Hb Ha. unfold int_truediv. rewrite (proj2 (Z.eqb_neq b 0)) by lia.
  assert (Hq : (Qabs (inject_Z a / inject_Z b) <= inject_Z (Z.abs a))%Q).
  { destruct b as [|pb|pb]; try lia.
    unfold Qdiv, Qinv, Qmult, Qabs, Qle; simpl. destruct a; simpl; nia. }
  destruct (b64_round_small (inject_Z a / inject_Z b)) as (r & Hr & Hle).
  - apply Qle_lt_trans with (inject_Z (2 * Z.abs a + 1)); [|now rewrite <- Zlt_Qlt].
    rewrite inject_Z_plus, inject_Z_mult. apply Qplus_le_l.
    apply Qmult_le_l; [reflexivity|exact Hq].
  - rewrite Hr. exists r. split; [reflexivity|].
    apply Qle_trans with (2 * Qabs (inject_Z a / inject_Z b) + 1)%Q; [exact Hle|].
    rewrite inject_Z_plus, inject_Z_mult. apply Qplus_le_l.
    apply Qmult_le_l; [reflexivity|exact Hq].
Qed.

Lemma int_truediv_raises (a b : Z) (e : exn) :
  b <> 0 -> int_truediv a b = inl e -> e = OverflowError.
Proof.
  intros Hb. unfold int_truediv. rewrite (proj2 (Z.eqb_neq b 0) Hb).
  destruct (b64_round _); [discriminate|]. congruence.
Qed.

Lemma clamp_range_bounds (lb ub r : Z) :
  lb <= ub -> lb <= clamp_range lb ub r <= ub.
Proof.
  intros H. unfold clamp_range. destruct (r <? lb) eqn:H1; [lia|].
  destruct (ub <? r) eqn:H2; rewrite ?Z.ltb_lt, ?Z.ltb_ge in *; lia.
Qed.

(** Within float range the general model is the pipeline's one. *)
Lemma random_normal_range_checked_small (lb ub : Z) (s : fstate) :
  Z.abs lb <= 2 ^ 1000 -> Z.abs ub <= 2 ^ 1000 ->
  random_normal_range_checked lb ub s = random_normal_range lb ub s.
Proof.
  intros Hl Hu.
  assert (E24 : 2 ^ 1024 = 16777216 * 2 ^ 1000) by reflexivity.
  assert (E22 : 2 ^ 1022 = 4194304 * 2 ^ 1000) by reflexivity.
  assert (E0 : 0 < 2 ^ 1000) by reflexivity.
  unfold random_normal_range_checked.
  destruct (int_truediv_small (lb + ub) 2) as (mu & Emu & Hmu); [lia|lia|].
  destruct (int_truediv_small (ub - lb) 4) as (sg & Esg & Hsg); [lia|lia|].
  rewrite Emu, Esg.
  assert (Hbig : Qltb (inject_Z (2 ^ 1022)) (Qabs mu + 9 * Qabs sg) = false).
  { unfold Qltb. destruct (_ ?= _)%Q eqn:E; try reflexivity.
    exfalso. rewrite <- Qlt_alt in E. apply (Qlt_not_le _ _ E).
    apply Qle_trans with
      (inject_Z (2 * Z.abs (lb + ub) + 1) + 9 * inject_Z (2 * Z.abs (ub - lb) + 1))%Q.
    - apply Qplus_le_compat; [exact Hmu|]. apply Qmult_le_l; [reflexivity|exact Hsg].
    - change 9%Q with (inject_Z 9). rewrite <- inject_Z_mult, <- inject_Z_plus, <- Zle_Qle.
      lia. }
  unfold gauss_int_checked, random_normal_range, gauss_int, bind, draw.
  destruct (rng s) as [|r rs]; cbv beta iota zeta; rewrite Hbig, andb_false_r; reflexivity.
Qed.

(** C9.  For [lb <= ub] and whatever the Gaussian draw,
    [random_normal_range(lb, ub)] either returns a value in [[lb, ub]] or
    raises OverflowError; it returns when [|lb|] and [|ub|] are at most
    [2 ^ 1000]; and it raises OverflowError, without drawing, when
    [(lb + ub) / 2] is too large for a float. *)
Theorem random_normal_range_within (lb ub : Z) (s : fstate) :
  lb <= ub ->
  ((exists v s', random_normal_range_checked lb ub s = (Ok v, s') /\ lb <= v <= ub) \/
   (exists s', random_normal_range_checked lb ub s = (Raise OverflowError, s'))) /\
  (Z.abs lb <= 2 ^ 1000 -> Z.abs ub <= 2 ^ 1000 ->
   exists v s', random_normal_range_checked lb ub s = (Ok v, s') /\ lb <= v <= ub) /\
  (int_truediv (lb + ub) 2 = inl OverflowError ->
   random_normal_range_checked lb ub s = (Raise OverflowError, s)).
Proof.
  intros Hle. split; [|split].
  - unfold random_normal_range_checked.
    destruct (int_truediv (lb + ub) 2) as [e|mu] eqn:Emu.
    { right. exists s. apply int_truediv_raises in Emu; [by subst|lia]. }
    destruct (int_truediv (ub - lb) 4) as [e|sg] eqn:Esg.
    { right. exists s. apply int_truediv_raises in Esg; [by subst|lia]. }
    unfold gauss_int_checked, bind, draw.
    destruct (rng s) as [|r rs]; cbv beta iota zeta;
      (destruct (_ && _); [right; eexists; reflexivity|]);
      left; eexists _, _; (split; [reflexivity|]); by apply clamp_range_bounds.
  - intros Hl Hu. rewrite random_normal_range_checked_small by assumption.
    unfold random_normal_range, gauss_int, draw, bind, ret.
    destruct (rng s) as [|r rs]; eexists _, _; (split; [reflexivity|]); by apply clamp_range_bounds.
  - intros E. unfold random_normal_range_checked. by rewrite E.
Qed.

Lemma random_normal_range_within_witness :
  5 <= 9 /\ exists v s', random_normal_range_checked 5 9 (mkState (new_canvas 1 1) [-40]) = (Ok v, s') /\
                         5 <= v <= 9.
Proof.
  assert (H : 5 <= 9) by lia. split; [exact H|].
  apply (proj1 (proj2 (random_normal_range_within 5 9 (mkState (new_canvas 1 1) [-40]) H)));
    apply Z.leb_le; vm_compute; reflexivity.
Defined.

(** C9 (counterexample).  [random_normal_range(0, 10 ** 400)] raises
    OverflowError: [(lb + ub) / 2] is beyond float range. *)
Lemma random_normal_range_overflow_cex :
  0 <= 10 ^ 400 /\
  random_normal_range_checked 0 (10 ^ 400) (mkState (new_canvas 1 1) [])
    = (Raise OverflowError, mkState (new_canvas 1 1) []).
Proof. split; [apply Z.pow_nonneg; lia|]. vm_compute. reflexivity. Qed.

(** ** C10: [clear] touches only the architecture *)

(** C10.  [clear] with an entity type leaves every cell's item list and
    creature as they were (and the rectangle too). *)
Theorem clear_frame (c : MapCanvas) (t : entity_type) :
  exists c', clear c (Bare t) = (Ok tt, c') /\
    item_grid c' = item_grid c /\ creature_grid c' = creature_grid c /\ rect c' = rect c.
Proof. eexists. split; [reflexivity|]. simpl. auto. Qed.

(** ** [random.sample] *)

Lemma swap_remove_perm {A} (pool : list A) (j : nat) (x y : A) :
  pool !! j = Some x -> last pool = Some y ->
  x :: take (length pool - 1) (<[j := y]> pool) ≡ₚ pool.
Proof.
  intros Hj Hy. apply last_Some in Hy as [l ->].
  rewrite length_app; simpl. replace (length l + 1 - 1)%nat with (length l) by lia.
  destruct (decide (j < length l)%nat) as [Hlt|Hge].
  - rewrite insert_app_l by done. rewrite take_app_length' by (rewrite length_insert; lia).
    rewrite lookup_app_l in Hj by done.
    rewrite insert_take_drop by done.
    pose proof (take_drop_middle l j x Hj) as Hl.
    generalize dependent (take j l). generalize dependent (drop (S j) l).
    intros b a Hl. rewrite <- Hl. solve_Permutation.
  - apply lookup_lt_Some in Hj as Hj'. rewrite length_app in Hj'; simpl in Hj'.
    assert (j = length l) as -> by lia.
    rewrite lookup_app_r, Nat.sub_diag in Hj by lia. injection Hj as ->.
    rewrite list_insert_id.
    + rewrite take_app_length. solve_Permutation.
    + rewrite lookup_app_r, Nat.sub_diag by lia. done.
Qed.

Lemma randbelow_spec (n : nat) (s : fstate) :
  (0 < n)%nat ->
  exists j s', randbelow n s = (Ok j, s') /\ (j < n)%nat /\ canvas s' = canvas s.
Proof.
  intros Hn. unfold randbelow, draw, bind, ret.
  destruct (rng s) as [|r rs]; eexists _, _; (split; [reflexivity|]); simpl;
    (split; [|done]).
  - pose proof (Z.mod_pos_bound 0 (Z.of_nat n) ltac:(lia)). lia.
  - pose proof (Z.mod_pos_bound r (Z.of_nat n) ltac:(lia)). lia.
Qed.

(** Whatever the draws, [sample_loop k pool] returns [k] of the pool's
    elements, each taken once: together with the elements left over they
    are a permutation of the pool. *)
Lemma sample_loop_spec {A} (k : nat) (pool : list A) (s : fstate) :
  (k <= length pool)%nat ->
  exists res rest s', sample_loop k pool s = (Ok res, s') /\ canvas s' = canvas s /\
    length res = k /\ res ++ rest ≡ₚ pool.
Proof.
  revert pool s. induction k as [|k IH]; intros pool s Hk; simpl.
  - exists [], pool, s. auto.
  - destruct (last pool) as [y|] eqn:Hy.
    2:{ apply last_None in Hy. subst pool. simpl in Hk. lia. }
    destruct (randbelow_spec (length pool) s ltac:(lia)) as (j & s1 & Hj & Hjl & Hc1).
    unfold bind at 1. rewrite Hj.
    destruct (lookup_lt_is_Some_2 pool j Hjl) as [x Hx]. rewrite Hx.
    pose proof (swap_remove_perm pool j x y Hx Hy) as Hperm.
    destruct (IH (take (length pool - 1) (<[j:=y]> pool)) s1) as (res & rest & s2 & Hr & Hc2 & Hl & Hp).
    { rewrite length_take, length_insert. lia. }
    unfold bind. rewrite Hr. exists (x :: res), rest, s2. simpl.
    split; [done|]. split; [congruence|]. split; [lia|].
    rewrite <- Hperm. by constructor.
Qed.

(** ** C8: [place_stuff] *)

Lemma m_add_item_ok (p : point) (t : entity_type) (c : MapCanvas) (rs : list Z) (l : list entity_type) :
  item_grid c !! p = Some l ->
  m_add_item p t (mkState c rs)
    = (Ok tt, mkState (mkCanvas (rect c) (arch_grid c) (<[p := l ++ [t]]> (item_grid c))
                         (creature_grid c) (floor_spaces c)) rs).
Proof. intros Hl. unfold m_add_item, bind, get_canvas, lift_canvas, add_item; simpl. by rewrite Hl. Qed.

Lemma bind_ok {A B} (m : M A) (k : A -> M B) (s : fstate) (a : A) (s' : fstate) :
  m s = (Ok a, s') -> bind m k s = k a s'.
Proof. intros H. unfold bind. by rewrite H. Qed.

Lemma m_set_creature_eq (p : point) (t : entity_type) (c : MapCanvas) (rs : list Z) :
  m_set_creature p t (mkState c rs) = (Ok tt, mkState (set_creature c p t) rs).
Proof. reflexivity. Qed.

(** C8.  [place_stuff] with no walkable point raises the "no open spaces"
    assertion; with one to nine walkable points it raises the ValueError of
    [random.sample] (a different exception), in both cases before anything
    is placed, leaving the state as it was; with ten or more it picks ten
    distinct walkable points, puts a Salamango on the first and appends
    Armor, Potion, Potion, Gem and Crate to the item lists of the next
    five, changing nothing else of the canvas. *)
Theorem place_stuff_spec (s : fstate) :
  (floor_spaces (canvas s) = ∅ ->
   place_stuff s = (Raise (AssertionError "can't place player with no open spaces"), s)) /\
  ((1 <= size (floor_spaces (canvas s)) < 10)%nat ->
   place_stuff s = (Raise (ValueError "Sample larger than population or is negative"), s)) /\
  (floor_spaces (canvas s) ⊆ dom (item_grid (canvas s)) ->
   (10 <= size (floor_spaces (canvas s)))%nat ->
   exists p0 p1 p2 p3 p4 p5 rest c' rs',
     length (p0 :: p1 :: p2 :: p3 :: p4 :: p5 :: rest) = 10%nat /\
     NoDup (p0 :: p1 :: p2 :: p3 :: p4 :: p5 :: rest) /\
     (forall p, p ∈ p0 :: p1 :: p2 :: p3 :: p4 :: p5 :: rest -> p ∈ floor_spaces (canvas s)) /\
     place_stuff s = (Ok tt, mkState c' rs') /\
     rect c' = rect (canvas s) /\ arch_grid c' = arch_grid (canvas s) /\
     floor_spaces c' = floor_spaces (canvas s) /\
     creature_grid c' = <[p0 := Some Salamango]> (creature_grid (canvas s)) /\
     item_grid c' = with_appended (item_grid (canvas s))
                      [(p1, Armor); (p2, Potion); (p3, Potion); (p4, Gem); (p5, Crate)]).
Proof.
  destruct s as [c rs]; cbn [canvas].
  split; [|split].
  - intros He. unfold place_stuff, bind, get_canvas, throw. cbn beta iota.
    rewrite decide_True by exact He. reflexivity.
  - intros Hn. unfold place_stuff, bind, get_canvas, throw, sample. cbn beta iota.
    cbn [canvas].
    rewrite decide_False by (intros He; rewrite He, size_empty in Hn; lia).
    rewrite decide_True by (unfold size, set_size in Hn; simpl in Hn; lia). reflexivity.
  - intros Hdom Hn.
    assert (Hne : floor_spaces c ≠ ∅) by (intros He; rewrite He, size_empty in Hn; lia).
    assert (Hlen : (10 <= length (elements (floor_spaces c)))%nat)
      by (unfold size, set_size in Hn; simpl in Hn; lia).
    destruct (sample_loop_spec 10 (elements (floor_spaces c)) (mkState c rs) Hlen)
      as (res & rest & s1 & Hr & Hc1 & Hl & Hp).
    assert (Hnd : NoDup res).
    { assert (Hnd2 : NoDup (res ++ rest)) by (rewrite Hp; apply NoDup_elements).
      apply NoDup_app in Hnd2. tauto. }
    assert (Hin : forall p, p ∈ res -> p ∈ floor_spaces c).
    { intros p Hp'. apply elem_of_elements. rewrite <- Hp. apply elem_of_app. auto. }
    unfold place_stuff, bind at 1, get_canvas. cbn beta iota.
    rewrite decide_False by exact Hne.
    unfold sample. cbn [canvas rng]. rewrite decide_False by (intros Hlt; lia).
    unfold bind at 1. rewrite Hr.
    destruct res as [|q0 [|q1 [|q2 [|q3 [|q4 [|q5 res]]]]]]; try (simpl in Hl; lia).
    destruct s1 as [c1 rs1]; cbn [canvas] in Hc1; subst c1.
    exists q0, q1, q2, q3, q4, q5, res.
    assert (Hd : forall p, p ∈ q0 :: q1 :: q2 :: q3 :: q4 :: q5 :: res ->
                           exists l, item_grid c !! p = Some l).
    { intros p Hp'. apply elem_of_dom, Hdom, Hin, Hp'. }
    destruct (Hd q1) as [l1 H1]; [by repeat constructor|].
    destruct (Hd q2) as [l2 H2]; [by repeat constructor|].
    destruct (Hd q3) as [l3 H3]; [by repeat constructor|].
    destruct (Hd q4) as [l4 H4]; [by repeat constructor|].
    destruct (Hd q5) as [l5 H5]; [by repeat constructor|].
    pose proof Hnd as Hnd'.
    apply NoDup_cons in Hnd as [N0 Hnd]. apply NoDup_cons in Hnd as [N1 Hnd].
    apply NoDup_cons in Hnd as [N2 Hnd]. apply NoDup_cons in Hnd as [N3 Hnd].
    apply NoDup_cons in Hnd as [N4 Hnd].
    assert (D12 : q1 ≠ q2) by (intros ->; apply N1; by repeat constructor).
    assert (D13 : q1 ≠ q3) by (intros ->; apply N1; by repeat constructor).
    assert (D14 : q1 ≠ q4) by (intros ->; apply N1; by repeat constructor).
    assert (D15 : q1 ≠ q5) by (intros ->; apply N1; by repeat constructor).
    assert (D23 : q2 ≠ q3) by (intros ->; apply N2; by repeat constructor).
    assert (D24 : q2 ≠ q4) by (intros ->; apply N2; by repeat constructor).
    assert (D25 : q2 ≠ q5) by (intros ->; apply N2; by repeat constructor).
    assert (D34 : q3 ≠ q4) by (intros ->; apply N3; by repeat constructor).
    assert (D35 : q3 ≠ q5) by (intros ->; apply N3; by repeat constructor).
    assert (D45 : q4 ≠ q5) by (intros ->; apply N4; by repeat constructor).
    change (default (0, 0) ((q0 :: q1 :: q2 :: q3 :: q4 :: q5 :: res) !! 0%nat)) with q0.
    change (default (0, 0) ((q0 :: q1 :: q2 :: q3 :: q4 :: q5 :: res) !! 1%nat)) with q1.
    change (default (0, 0) ((q0 :: q1 :: q2 :: q3 :: q4 :: q5 :: res) !! 2%nat)) with q2.
    change (default (0, 0) ((q0 :: q1 :: q2 :: q3 :: q4 :: q5 :: res) !! 3%nat)) with q3.
    change (default (0, 0) ((q0 :: q1 :: q2 :: q3 :: q4 :: q5 :: res) !! 4%nat)) with q4.
    change (default (0, 0) ((q0 :: q1 :: q2 :: q3 :: q4 :: q5 :: res) !! 5%nat)) with q5.
    rewrite (bind_ok _ _ _ _ _ (m_set_creature_eq _ _ _ _)).
    erewrite bind_ok; [|apply m_add_item_ok; exact H1].
    erewrite bind_ok; [|apply m_add_item_ok; cbn [item_grid]; rewrite lookup_insert_ne by done; exact H2].
    erewrite bind_ok; [|apply m_add_item_ok; cbn [item_grid]; rewrite !lookup_insert_ne by done; exact H3].
    erewrite bind_ok; [|apply m_add_item_ok; cbn [item_grid]; rewrite !lookup_insert_ne by done; exact H4].
    rewrite (m_add_item_ok _ _ _ _ l5) by (cbn [item_grid]; rewrite !lookup_insert_ne by done; exact H5).
    eexists _, _. split; [exact Hl|]. split; [exact Hnd'|].
    split; [exact Hin|]. split; [reflexivity|]. cbn [rect arch_grid floor_spaces creature_grid item_grid set_creature].
    split; [done|]. split; [done|]. split; [done|]. split; [done|].
    unfold with_appended. cbn [foldl fst snd]. rewrite H1, H2, H3, H4, H5. reflexivity.
Qed.

Lemma place_stuff_spec_witness :
  let s := mkState (snd (clear (new_canvas 4 4) (Bare Floor))) [3; 1; 4; 1; 5] in
  floor_spaces (canvas s) ⊆ dom (item_grid (canvas s)) /\
  (10 <= size (floor_spaces (canvas s)))%nat /\
   exists p0 p1 p2 p3 p4 p5 rest c' rs',
     length (p0 :: p1 :: p2 :: p3 :: p4 :: p5 :: rest) = 10%nat /\
     NoDup (p0 :: p1 :: p2 :: p3 :: p4 :: p5 :: rest) /\
     (forall p, p ∈ p0 :: p1 :: p2 :: p3 :: p4 :: p5 :: rest -> p ∈ floor_spaces (canvas s)) /\
     place_stuff s = (Ok tt, mkState c' rs') /\
     rect c' = rect (canvas s) /\ arch_grid c' = arch_grid (canvas s) /\
     floor_spaces c' = floor_spaces (canvas s) /\
     creature_grid c' = <[p0 := Some Salamango]> (creature_grid (canvas s)) /\
     item_grid c' = with_appended (item_grid (canvas s))
                      [(p1, Armor); (p2, Potion); (p3, Potion); (p4, Gem); (p5, Crate)].
Proof.
  intros s.
  assert (H1 : floor_spaces (canvas s) ⊆ dom (item_grid (canvas s)))
    by (apply (bool_decide_unpack _); vm_compute; reflexivity).
  assert (H2 : (10 <= size (floor_spaces (canvas s)))%nat)
    by (apply Nat.leb_le; vm_compute; reflexivity).
  split; [exact H1|]. split; [exact H2|].
  exact (proj2 (proj2 (place_stuff_spec s)) H1 H2).
Defined.

(** ** C5: forced cells of the cave carver *)

(** C5 (code bug).  Carving the 3x3 rectangle at the origin with its centre
    forced to be a floor, when every initial draw gives a wall: the centre
    is a point of the region and a forced floor, yet after the first
    generation it is a wall in the grid (the 4-5 rule overwrites the forced
    value copied from [base_grid]), and at the end the wall tile is written
    there. *)
Lemma generate_caves_forced_floor_lost :
  let region := iter_points (mkRect 0 0 3 3) in
  let s := mkState (new_canvas 3 3) (repeat 0 9) in
  (1, 1) ∈ region /\
  (exists g s', caves_grid_after 1 region [] [(1, 1)] s = (Ok g, s') /\
                g !! (1, 1) = Some true) /\
  (exists s', generate_caves region (Bare CaveWall) [] [(1, 1)] s = (Ok tt, s') /\
              arch_grid (canvas s') !! (1, 1) = Some (Bare CaveWall)).
Proof.
  intros region s. split; [|split].
  - apply elem_of_iter_points. unfold in_rect, r_left, r_right, r_top, r_bottom, px, py; cbn. lia.
  - do 2 eexists. split; [vm_compute; reflexivity | vm_compute; reflexivity].
  - eexists. split; [vm_compute; reflexivity | vm_compute; reflexivity].
Qed.

(** ** C6: [maximally_partition] *)

Lemma bind_inv {A B} (m : M A) (k : A -> M B) (s : fstate) (b : B) (s2 : fstate) :
  bind m k s = (Ok b, s2) -> exists a s1, m s = (Ok a, s1) /\ k a s1 = (Ok b, s2).
Proof. unfold bind. destruct (m s) as [[a| |] s1]; intros H; [eauto|discriminate|discriminate]. Qed.

Lemma randint_ok (a b : Z) (s s' : fstate) (v : Z) :
  randint a b s = (Ok v, s') -> a <= v <= b /\ canvas s' = canvas s.
Proof.
  unfold randint. destruct (b <? a) eqn:Hab; [discriminate|]. apply Z.ltb_ge in Hab.
  unfold bind, draw, ret. destruct (rng s) as [|r rs]; intros [= <- <-]; simpl.
  - rewrite Zmod_0_l. split; [lia|done].
  - pose proof (Z.mod_pos_bound r (b - a + 1) ltac:(lia)). split; [lia|done].
Qed.

Lemma cover_count_cons (r : Rectangle) (l : list Rectangle) (p : point) :
  cover_count (r :: l) p = ((if in_rectb r p then 1 else 0) + cover_count l p)%nat.
Proof. unfold cover_count. rewrite filter_cons. destruct (in_rectb r p); case_decide; simpl; congruence. Qed.

Lemma cover_count_nil (p : point) : cover_count [] p = 0%nat.
Proof. reflexivity. Qed.

Lemma cover_count_app (l1 l2 : list Rectangle) (p : point) :
  cover_count (l1 ++ l2) p = (cover_count l1 p + cover_count l2 p)%nat.
Proof. unfold cover_count. by rewrite filter_app, length_app. Qed.

Lemma cover_count_perm (l1 l2 : list Rectangle) (p : point) :
  l1 ≡ₚ l2 -> cover_count l1 p = cover_count l2 p.
Proof. intros H. unfold cover_count. by rewrite H. Qed.

Lemma insert_by_area_perm (r : Rectangle) (l : list Rectangle) :
  insert_by_area r l ≡ₚ r :: l.
Proof.
  induction l as [|x l IH]; simpl; [done|].
  destruct (r_area x <? r_area r); [done|]. rewrite IH. apply perm_swap.
Qed.

Lemma sort_by_area_perm (l : list Rectangle) : sort_by_area l ≡ₚ l.
Proof.
  unfold sort_by_area.
  assert (Hg : forall acc, foldl (fun acc r => insert_by_area r acc) acc l ≡ₚ acc ++ l).
  { induction l as [|x l IH]; intros acc; simpl; [by rewrite app_nil_r|].
    rewrite IH, insert_by_area_perm. solve_Permutation. }
  apply Hg.
Qed.

Lemma in_rectb_false (r : Rectangle) (p : point) : in_rectb r p = false <-> ~ in_rect r p.
Proof. rewrite <- in_rectb_spec. destruct (in_rectb r p); intuition congruence. Qed.

(** The two halves of a split along row [m] (column [m]) cover the region
    exactly once when [m] is one of its rows (columns). *)
Lemma split_rows_cover (r : Rectangle) (m : Z) (p : point) :
  r_top r <= m <= r_bottom r ->
  cover_count [replace_bottom r m; replace_top r (m + 1)] p = cover_count [r] p.
Proof.
  intros Hm. rewrite !cover_count_cons. unfold cover_count; simpl.
  destruct (in_rectb (replace_bottom r m) p) eqn:H1, (in_rectb (replace_top r (m + 1)) p) eqn:H2,
    (in_rectb r p) eqn:H3;
    rewrite ?in_rectb_spec, ?in_rectb_false in *; try reflexivity; exfalso;
    destruct p as [x y]; destruct r as [ox oy w h];
    unfold in_rect, replace_bottom, replace_top, from_edges, r_left, r_right, r_top, r_bottom, px, py in *;
    simpl in *; lia.
Qed.

Lemma split_cols_cover (r : Rectangle) (m : Z) (p : point) :
  r_left r <= m <= r_right r ->
  cover_count [replace_right r m; replace_left r (m + 1)] p = cover_count [r] p.
Proof.
  intros Hm. rewrite !cover_count_cons. unfold cover_count; simpl.
  destruct (in_rectb (replace_right r m) p) eqn:H1, (in_rectb (replace_left r (m + 1)) p) eqn:H2,
    (in_rectb r p) eqn:H3;
    rewrite ?in_rectb_spec, ?in_rectb_false in *; try reflexivity; exfalso;
    destruct p as [x y]; destruct r as [ox oy w h];
    unfold in_rect, replace_right, replace_left, from_edges, r_left, r_right, r_top, r_bottom, px, py in *;
    simpl in *; lia.
Qed.

Lemma partition_cover (mw mh : Z) (r : Rectangle) (s s' : fstate) (l : list Rectangle) (p : point) :
  0 < mw -> 0 < mh -> partition mw mh r s = (Ok l, s') -> cover_count l p = cover_count [r] p.
Proof.
  intros Hw Hh. unfold partition.
  destruct (int_truediv _ _) as [e|rh]; [discriminate|].
  destruct (int_truediv _ _) as [e|rw]; [discriminate|].
  destruct (_ && _); [by intros [= <- _]|].
  destruct (Qltb _ _).
  - unfold partition_horizontal. destruct (_ <=? _) eqn:Hle; [|discriminate].
    apply Z.leb_le in Hle. intros H. apply bind_inv in H as (m & s1 & Hm & [= <- _]).
    apply randint_ok in Hm as [Hm _]. apply split_rows_cover.
    unfold r_bottom, r_top in *. lia.
  - unfold partition_vertical. destruct (_ <=? _) eqn:Hle; [|discriminate].
    apply Z.leb_le in Hle. intros H. apply bind_inv in H as (m & s1 & Hm & [= <- _]).
    apply randint_ok in Hm as [Hm _]. apply split_cols_cover.
    unfold r_right, r_left in *. lia.
Qed.

Lemma partition_loop_cover (mw mh : Z) (fuel : nat) (l : list Rectangle) (s s' : fstate)
    (rs : list Rectangle) (p : point) :
  0 < mw -> 0 < mh -> partition_loop mw mh fuel l s = (Ok rs, s') ->
  cover_count rs p = cover_count l p.
Proof.
  intros Hw Hh. revert l s. induction fuel as [|fuel IH]; intros l s H.
  - destruct l as [|r rest]; simpl in H; [by injection H as <-|].
    destruct (decide _); [discriminate|]. by injection H as <-.
  - destruct l as [|r rest]; simpl in H; [by injection H as <-|].
    destruct (decide _); [|by injection H as <-].
    apply bind_inv in H as (nr & s1 & Hp & Hl).
    rewrite (IH _ _ Hl), (cover_count_perm _ _ _ (sort_by_area_perm _)), cover_count_app.
    rewrite (partition_cover _ _ _ _ _ _ _ Hw Hh Hp), !(cover_count_cons r), cover_count_nil. lia.
Qed.

Lemma filter_two_indices {A} (P : A -> Prop) `{forall x, Decision (P x)} (l : list A)
    (i j : nat) (a b : A) :
  i <> j -> l !! i = Some a -> l !! j = Some b -> P a -> P b ->
  (2 <= length (filter P l))%nat.
Proof.
  assert (Hone : forall l' k c, l' !! k = Some c -> P c -> (1 <= length (filter P l'))%nat).
  { intros l' k c Hk Hc. destruct (filter P l') as [|z f] eqn:Hf; simpl; [|lia].
    assert (c ∈ filter P l') as Hin. { apply list_elem_of_filter. split; [done|]. by eapply list_elem_of_lookup_2. }
    rewrite Hf in Hin. by apply elem_of_nil in Hin. }
  revert i j. induction l as [|x l IH]; intros i j Hij Ha Hb Pa Pb; [done|].
  rewrite filter_cons.
  destruct i as [|i], j as [|j]; simpl in *.
  - done.
  - injection Ha as ->. case_decide; [|done]. simpl. pose proof (Hone _ _ _ Hb Pb). lia.
  - injection Hb as ->. case_decide; [|done]. simpl. pose proof (Hone _ _ _ Ha Pa). lia.
  - pose proof (IH i j ltac:(lia) Ha Hb Pa Pb). case_decide; simpl; lia.
Qed.

(** C6 (amended).  For positive minimum sizes, whenever [maximally_partition]
    returns (it may also loop forever), every point of the original region
    lies in exactly one returned region and no point outside it lies in
    any; hence no two returned regions (at different positions of the list)
    overlap, and each returned region lies within the original one. *)
Theorem maximally_partition_tiles (mw mh : Z) (fuel : nat) (region : Rectangle)
    (s s' : fstate) (rs : list Rectangle) :
  0 < mw -> 0 < mh -> maximally_partition mw mh fuel region s = (Ok rs, s') ->
  (forall p, cover_count rs p = if in_rectb region p then 1%nat else 0%nat) /\
  (forall i j r1 r2 p, i <> j -> rs !! i = Some r1 -> rs !! j = Some r2 ->
                       in_rect r1 p -> in_rect r2 p -> False) /\
  (forall r p, r ∈ rs -> in_rect r p -> in_rect region p).
Proof.
  intros Hw Hh H.
  assert (Hc : forall p, cover_count rs p = if in_rectb region p then 1%nat else 0%nat).
  { intros p. rewrite (partition_loop_cover _ _ _ _ _ _ _ p Hw Hh H), cover_count_cons, cover_count_nil.
    lia. }
  split; [exact Hc|]. split.
  - intros i j r1 r2 p Hij H1 H2 Hp1 Hp2.
    pose proof (filter_two_indices (fun r => in_rectb r p = true) rs i j r1 r2 Hij H1 H2
                  (proj2 (in_rectb_spec _ _) Hp1) (proj2 (in_rectb_spec _ _) Hp2)) as H2le.
    fold (cover_count rs p) in H2le. rewrite Hc in H2le. destruct (in_rectb region p); lia.
  - intros r p Hr Hp. apply in_rectb_spec. specialize (Hc p).
    destruct (in_rectb region p); [done|].
    assert (r ∈ filter (fun r => in_rectb r p = true) rs) as Hin.
    { apply list_elem_of_filter. split; [by apply in_rectb_spec|done]. }
    unfold cover_count in Hc. apply length_zero_iff_nil in Hc. rewrite Hc in Hin.
    by apply elem_of_nil in Hin.
Qed.

Lemma maximally_partition_tiles_witness :
  0 < 5 /\ 0 < 5 /\
  exists rs s', maximally_partition 5 5 10 (mkRect 0 0 20 20) (mkState (new_canvas 1 1) []) = (Ok rs, s') /\
  (forall p, cover_count rs p = if in_rectb (mkRect 0 0 20 20) p then 1%nat else 0%nat) /\
  (forall i j r1 r2 p, i <> j -> rs !! i = Some r1 -> rs !! j = Some r2 ->
                       in_rect r1 p -> in_rect r2 p -> False) /\
  (forall r p, r ∈ rs -> in_rect r p -> in_rect (mkRect 0 0 20 20) p).
Proof.
  split; [lia|]. split; [lia|].
  do 2 eexists. split; [vm_compute; reflexivity|].
  eapply (maximally_partition_tiles 5 5 10 (mkRect 0 0 20 20) (mkState (new_canvas 1 1) [])); [lia|lia|].
  vm_compute. reflexivity.
Defined.

(** C6 (counterexample).  The 3 x 35 region with minimum size 5 x 5 can be
    split (along its height), and [maximally_partition] returns seven
    regions that are each 3 wide, narrower than the minimum width. *)
Lemma maximally_partition_narrow_cex :
  let region := mkRect 0 0 3 35 in
  let s := mkState (new_canvas 1 1) [] in
  (exists l s1, partition 5 5 region s = (Ok l, s1) /\ l <> [region]) /\
  exists rs s', maximally_partition 5 5 10 region s = (Ok rs, s') /\
    length rs = 7%nat /\ Forall (fun r => r_width r = 3) rs.
Proof.
  intros region s. split.
  - do 2 eexists. split; [vm_compute; reflexivity|]. vm_compute. discriminate.
  - do 2 eexists. split; [vm_compute; reflexivity|]. split; [reflexivity|].
    repeat constructor.
Qed.

(** ** C3: the stairs of a binary partition map *)

Lemma keeps_ret {A} (a : A) : keeps_canvas (ret a).
Proof. intros s b s' [= _ <-]. done. Qed.

Lemma keeps_bind {A B} (m : M A) (k : A -> M B) :
  keeps_canvas m -> (forall a, keeps_canvas (k a)) -> keeps_canvas (bind m k).
Proof.
  intros Hm Hk s b s2 H. apply bind_inv in H as (a & s1 & H1 & H2).
  rewrite (Hk _ _ _ _ H2). exact (Hm _ _ _ H1).
Qed.

Lemma keeps_throw {A} (e : exn) : keeps_canvas (A := A) (throw e).
Proof. intros s a s' H. discriminate. Qed.

Lemma keeps_draw : keeps_canvas draw.
Proof. intros s a s'. unfold draw. destruct (rng s); intros [= _ <-]; done. Qed.

Create HintDb keeps.
#[local] Hint Resolve keeps_ret keeps_bind keeps_throw keeps_draw : keeps.

Lemma keeps_randbelow (n : nat) : keeps_canvas (randbelow n).
Proof. unfold randbelow. auto with keeps. Qed.

Lemma keeps_randint (a b : Z) : keeps_canvas (randint a b).
Proof. unfold randint. destruct (b <? a); auto with keeps. Qed.

Lemma keeps_random_normal_range (lb ub : Z) : keeps_canvas (random_normal_range lb ub).
Proof. unfold random_normal_range, gauss_int. auto with keeps. Qed.

#[local] Hint Resolve keeps_randbelow keeps_randint keeps_random_normal_range : keeps.

Lemma keeps_sample_loop {A} (k : nat) (pool : list A) : keeps_canvas (sample_loop k pool).
Proof.
  revert pool. induction k as [|k IH]; intros pool; simpl; [auto with keeps|].
  destruct (last pool); [|auto with keeps].
  apply keeps_bind; [auto with keeps|]. intros j. destruct (pool !! j); auto with keeps.
Qed.

Lemma keeps_sample {A} (pool : list A) (k : nat) : keeps_canvas (sample pool k).
Proof. unfold sample. destruct (decide _); [auto with keeps|apply keeps_sample_loop]. Qed.

Lemma keeps_partition (mw mh : Z) (r : Rectangle) : keeps_canvas (partition mw mh r).
Proof.
  unfold partition, partition_horizontal, partition_vertical.
  repeat (destruct (int_truediv _ _) || destruct (_ && _) || destruct (Qltb _ _) ||
          destruct (_ <=? _));
    auto with keeps.
Qed.

Lemma keeps_partition_loop (mw mh : Z) (fuel : nat) (l : list Rectangle) :
  keeps_canvas (partition_loop mw mh fuel l).
Proof.
  revert l. induction fuel as [|fuel IH]; intros [|r rest]; simpl; auto with keeps.
  - destruct (decide _); [|auto with keeps]. intros s a s' H. discriminate.
  - destruct (decide _); [|auto with keeps]. apply keeps_bind; [apply keeps_partition|done].
Qed.

Lemma keeps_room_randomize (region : Rectangle) : keeps_canvas (room_randomize region).
Proof. unfold room_randomize. auto 10 with keeps. Qed.

Lemma preserves_keeps {A} (P : MapCanvas -> Prop) (m : M A) : keeps_canvas m -> preserves P m.
Proof. intros Hm s a s' HP H. by rewrite (Hm _ _ _ H). Qed.

Lemma preserves_bind {A B} (P : MapCanvas -> Prop) (m : M A) (k : A -> M B) :
  preserves P m -> (forall a, preserves P (k a)) -> preserves P (bind m k).
Proof.
  intros Hm Hk s b s2 HP H. apply bind_inv in H as (a & s1 & H1 & H2).
  exact (Hk _ _ _ _ (Hm _ _ _ HP H1) H2).
Qed.

Lemma preserves_m_iter {A} (P : MapCanvas -> Prop) (f : A -> M unit) (l : list A) :
  (forall x, x ∈ l -> preserves P (f x)) -> preserves P (m_iter f l).
Proof.
  induction l as [|x l IH]; intros Hf; simpl.
  - apply preserves_keeps, keeps_ret.
  - apply preserves_bind; [apply Hf; by left|]. intros _. apply IH. intros y Hy. apply Hf. by right.
Qed.

Lemma m_set_architecture_run (p : point) (v : placeable) (s s' : fstate) (a : unit) :
  m_set_architecture p v s = (Ok a, s') -> canvas s' = set_architecture (canvas s) p v.
Proof.
  unfold m_set_architecture, bind, get_canvas, put_canvas. intros H. simpl in H.
  by injection H as _ <-.
Qed.

Lemma m_set_architecture_inv (R : Rectangle) (p : point) (v : placeable) :
  in_rect R p -> ~ is_stairs (ptype v) -> preserves (gen_inv R) (m_set_architecture p v).
Proof.
  intros Hp Hv s a s' (HR & Hf & Ha & Hi & Hc) H. apply m_set_architecture_run in H. rewrite H.
  unfold gen_inv, stairs_free, set_architecture; simpl. split; [done|]. split; [|split; [|done]].
  - pose proof (proj2 (elem_of_rect_points R p) Hp).
    destruct (is_emptyb (ptype v)); set_solver.
  - intros q w Hq. destruct (decide (q = p)) as [->|Hne].
    + rewrite lookup_insert_eq in Hq. by injection Hq as <-.
    + rewrite lookup_insert_ne in Hq by congruence. exact (Ha _ _ Hq).
Qed.

Lemma rect_inb_in (room R : Rectangle) (p : point) :
  rect_inb room R = true -> in_rect room p -> in_rect R p.
Proof.
  unfold rect_inb, in_rect. rewrite !andb_true_iff, !Z.leb_le. lia.
Qed.

Lemma draw_to_canvas_inv (R room : Rectangle) : preserves (gen_inv R) (draw_to_canvas room).
Proof.
  intros s a s' HP H. unfold draw_to_canvas in H.
  apply bind_inv in H as (c & s1 & Hc & H). injection Hc as <- <-.
  destruct (rect_inb room (rect (canvas s))) eqn:Hin; [|discriminate].
  assert (Hin' : forall p, in_rect room p -> in_rect R p).
  { intros p Hp. destruct HP as [HR _]. rewrite <- HR. exact (rect_inb_in _ _ _ Hin Hp). }
  refine (preserves_bind _ _ _ _ _ s a s' HP H).
  - apply preserves_m_iter. intros p Hp. apply m_set_architecture_inv.
    + apply Hin', elem_of_iter_points, Hp.
    + intros [H'|H']; discriminate.
  - intros _. apply preserves_m_iter. intros p Hp. apply m_set_architecture_inv.
    + apply Hin', elem_of_iter_points. unfold iter_border in Hp.
      apply list_elem_of_filter in Hp. tauto.
    + intros [H'|H']; discriminate.
Qed.

Lemma bpf_generate_inv (R region : Rectangle) (mw mh : Z) (fuel : nat) :
  preserves (gen_inv R) (bpf_generate mw mh fuel region).
Proof.
  unfold bpf_generate. apply preserves_bind.
  - apply preserves_keeps, keeps_partition_loop.
  - intros regions. apply preserves_m_iter. intros r _. unfold generate_room.
    apply preserves_bind; [apply preserves_keeps, keeps_room_randomize|].
    intros room. apply draw_to_canvas_inv.
Qed.

Lemma m_set_creature_inv (R : Rectangle) (p : point) (t : entity_type) :
  ~ is_stairs t -> preserves (gen_inv R) (m_set_creature p t).
Proof.
  intros Ht s a s' (HR & Hf & Ha & Hi & Hc) H.
  unfold m_set_creature, bind, get_canvas, put_canvas in H. injection H as _ <-.
  unfold gen_inv, stairs_free, set_creature; simpl. do 4 (split; [done|]).
  intros q u Hq. destruct (decide (q = p)) as [->|Hne].
  - rewrite lookup_insert_eq in Hq. by injection Hq as <-.
  - rewrite lookup_insert_ne in Hq by congruence. exact (Hc _ _ Hq).
Qed.

Lemma m_add_item_inv (R : Rectangle) (p : point) (t : entity_type) :
  ~ is_stairs t -> preserves (gen_inv R) (m_add_item p t).
Proof.
  intros Ht s a s' (HR & Hf & Ha & Hi & Hc) H.
  unfold m_add_item, bind, get_canvas, lift_canvas, add_item in H. simpl in H.
  destruct (item_grid (canvas s) !! p) as [l|] eqn:Hl; injection H as _ <-; simpl.
  - unfold gen_inv, stairs_free; simpl. do 3 (split; [done|]). split; [|done].
    intros q l' u Hq Hu. destruct (decide (q = p)) as [->|Hne].
    + rewrite lookup_insert_eq in Hq. injection Hq as <-.
      apply elem_of_app in Hu as [Hu|Hu]; [exact (Hi _ _ _ Hl Hu)|].
      apply list_elem_of_singleton in Hu. by subst.
    + rewrite lookup_insert_ne in Hq by congruence. exact (Hi _ _ _ Hq Hu).
  - done.
Qed.

Lemma place_stuff_inv (R : Rectangle) : preserves (gen_inv R) place_stuff.
Proof.
  intros s a s' HP H. unfold place_stuff in H.
  apply bind_inv in H as (c & s1 & Hc & H). injection Hc as <- <-.
  destruct (decide _); [discriminate|].
  refine (preserves_bind _ _ _ _ _ s a s' HP H); [apply preserves_keeps, keeps_sample|]. intros points.
  assert (Hns : forall t, t ∈ [Salamango; Armor; Potion; Gem; Crate] -> ~ is_stairs t).
  { intros t Ht [->| ->]; repeat (apply elem_of_cons in Ht as [Ht|Ht]; [discriminate|]);
      by apply elem_of_nil in Ht. }
  repeat (apply preserves_bind; [first [apply m_set_creature_inv | apply m_add_item_inv];
                                 apply Hns; set_solver|intros _]).
  apply m_add_item_inv, Hns. set_solver.
Qed.

Lemma choice_ok {A} (l : list A) (s s' : fstate) (x : A) :
  choice l s = (Ok x, s') -> x ∈ l /\ canvas s' = canvas s.
Proof.
  destruct l as [|y l]; [discriminate|]. unfold choice. intros H.
  apply bind_inv in H as (j & s1 & Hj & Hr). injection Hr as <- <-.
  split; [|exact (keeps_randbelow _ _ _ _ Hj)].
  destruct ((y :: l) !! j) eqn:Hl; simpl; [by eapply list_elem_of_lookup_2|by left].
Qed.

Lemma place_portal_run (T : entity_type) (d : Z) (s s' : fstate) (a : unit) :
  place_portal T d s = (Ok a, s') ->
  exists p, p ∈ floor_spaces (canvas s) /\ canvas s' = set_architecture (canvas s) p (Inst T (Some d)).
Proof.
  intros H. unfold place_portal in H.
  apply bind_inv in H as (c & s1 & Hc & H). injection Hc as <- <-.
  destruct (decide _); [discriminate|].
  apply bind_inv in H as (p & s2 & Hp & H). apply choice_ok in Hp as [Hp Hs2].
  exists p. split; [by apply elem_of_elements|].
  rewrite (m_set_architecture_run _ _ _ _ _ H), Hs2. done.
Qed.

Lemma new_canvas_inv (w h : Z) : gen_inv (size_to_rect w h) (new_canvas w h).
Proof.
  unfold gen_inv, stairs_free, new_canvas; simpl. split; [done|]. split; [set_solver|].
  split; [|split].
  - intros p v Hp. apply lookup_gset_to_gmap_Some in Hp as [_ <-]. intros [H|H]; discriminate.
  - intros p l t Hp Ht. apply lookup_gset_to_gmap_Some in Hp as [_ <-]. by apply elem_of_nil in Ht.
  - intros p t Hp. apply lookup_gset_to_gmap_Some in Hp as [_ Hp]. discriminate.
Qed.

Lemma NoDup_Zrange (a : Z) (n : nat) : NoDup (Zrange a n).
Proof.
  revert a. induction n as [|n IH]; intros a; simpl; constructor; [|apply IH].
  rewrite elem_of_Zrange. lia.
Qed.

Lemma NoDup_iter_points (r : Rectangle) : NoDup (iter_points r).
Proof.
  unfold iter_points.
  generalize (NoDup_Zrange (r_left r) (Z.to_nat (r_width r))).
  generalize (NoDup_Zrange (r_top r) (Z.to_nat (r_height r))).
  generalize (Zrange (r_left r) (Z.to_nat (r_width r))) as xs.
  generalize (Zrange (r_top r) (Z.to_nat (r_height r))) as ys.
  intros ys xs Hys Hxs.
  assert (Hrow : forall y : Z, NoDup (map (fun x : Z => (x, y)) xs)).
  { intros y. clear Hys. induction Hxs as [|x xs Hx Hxs IH]; simpl; constructor; [|exact IH].
    rewrite list_elem_of_In, in_map_iff. intros (x' & [= ->] & Hin).
    apply Hx, list_elem_of_In, Hin. }
  induction Hys as [|y ys Hy Hys IH]; simpl; [constructor|].
  apply NoDup_app. split; [apply Hrow|]. split; [|exact IH].
  intros [x y'] H1 H2. rewrite list_elem_of_In, in_map_iff in H1.
  destruct H1 as (x' & [= -> ->] & _).
  rewrite list_elem_of_In, in_flat_map in H2. destruct H2 as (y'' & Hy'' & Hin).
  rewrite in_map_iff in Hin. destruct Hin as (x'' & [= -> ->] & _).
  apply Hy, list_elem_of_In, Hy''.
Qed.

Lemma count_type_app (m1 m2 : Map) (t : entity_type) :
  count_type (m1 ++ m2) t = (count_type m1 t + count_type m2 t)%nat.
Proof. unfold count_type. by rewrite filter_app, length_app. Qed.

Lemma count_type_nil (t : entity_type) : count_type [] t = 0%nat.
Proof. reflexivity. Qed.

Lemma count_type_cons (e : point * placeable) (m : list (point * placeable)) (t : entity_type) :
  count_type (e :: m) t = ((if decide (ptype (snd e) = t) then 1 else 0) + count_type m t)%nat.
Proof. unfold count_type. rewrite filter_cons. by case_decide. Qed.

Lemma count_type_items (p : point) (items : list entity_type) (t : entity_type) :
  t ∉ items -> count_type (map (fun u => (p, Inst u None)) items) t = 0%nat.
Proof.
  induction items as [|u items IH]; intros Ht; [done|]. simpl. unfold count_type in *.
  rewrite filter_cons. simpl. case_decide as Hu.
  - subst. exfalso. apply Ht. by left.
  - apply IH. intros Hin. apply Ht. by right.
Qed.

(** The entities of a type on the finalized map are its architecture
    tiles of that type when no item or creature has it. *)
Lemma to_map_points_count (c : MapCanvas) (pts : list point) (g : Map) (t : entity_type) :
  to_map_points c pts = Ok g ->
  (forall p l, item_grid c !! p = Some l -> t ∉ l) ->
  (forall p u, creature_grid c !! p = Some (Some u) -> u <> t) ->
  count_type g t = length (filter (fun p => option_map ptype (arch_grid c !! p) = Some t) pts).
Proof.
  intros H Hi Hc. revert g H. induction pts as [|p pts IH]; intros g H; cbn [to_map_points] in H.
  - by injection H as <-.
  - destruct (arch_grid c !! p) as [a|] eqn:Ha; [|discriminate].
    destruct (item_grid c !! p) as [items|] eqn:Hit; [|discriminate].
    destruct (creature_grid c !! p) as [cr|] eqn:Hcr; [|discriminate].
    destruct (to_map_points c pts) as [rest| |] eqn:Hr; [|discriminate|discriminate].
    injection H as <-.
    assert (Hcr0 : count_type match cr with Some u => [(p, Inst u None)] | None => [] end t = 0%nat).
    { destruct cr as [u|]; [|done]. rewrite count_type_cons, count_type_nil.
      case_decide as Hu; [|done]. exfalso. exact (Hc _ _ Hcr Hu). }
    rewrite count_type_cons, !count_type_app, (IH rest eq_refl), (count_type_items _ _ _ (Hi _ _ Hit)), Hcr0.
    rewrite filter_cons, Ha. simpl.
    assert (Hm : ptype (maybe_create a) = ptype a) by (by destruct a).
    rewrite Hm. case_decide as H1; case_decide as H2; simpl.
    + lia.
    + exfalso. apply H2. by rewrite H1.
    + exfalso. apply H1. by injection H2.
    + lia.
Qed.

Lemma filter_ext_in {A} (P Q : A -> Prop) `{forall x, Decision (P x)} `{forall x, Decision (Q x)}
    (l : list A) :
  (forall x, x ∈ l -> P x <-> Q x) -> filter P l = filter Q l.
Proof.
  induction l as [|x l IH]; intros HPQ; [done|]. rewrite !filter_cons.
  rewrite IH by (intros y Hy; apply HPQ; by right).
  specialize (HPQ x ltac:(by left)).
  case_decide; case_decide; tauto || done.
Qed.

Lemma filter_none {A} (P : A -> Prop) `{forall x, Decision (P x)} (l : list A) :
  (forall x, x ∈ l -> ~ P x) -> filter P l = [].
Proof.
  induction l as [|x l IH]; intros Hn; [done|]. rewrite filter_cons.
  rewrite decide_False by (apply Hn; by left). apply IH. intros y Hy. apply Hn. by right.
Qed.

Lemma filter_eq_NoDup {A} `{EqDecision A} (l : list A) (a : A) :
  NoDup l -> a ∈ l -> length (filter (fun x => x = a) l) = 1%nat.
Proof.
  induction 1 as [|x l Hx Hl IH]; intros Ha; [by apply elem_of_nil in Ha|].
  rewrite filter_cons. case_decide as Hxa.
  - subst x. simpl. rewrite filter_none; [done|].
    intros y Hy ->. exact (Hx Hy).
  - apply IH. apply elem_of_cons in Ha as [->|Ha]; [done|exact Ha].
Qed.

Lemma point_in_rect_points (R : Rectangle) (p : point) : p ∈ rect_points R -> p ∈ iter_points R.
Proof. intros H. apply elem_of_iter_points, elem_of_rect_points, H. Qed.

(** C3 (amended).  On the 20 x 20 canvas with minimum size 5 x 5, for
    every run of [generate_map] requesting both portals that returns a map
    (whatever the draws and however many iterations the partition loop
    takes): the up portal is put on a point [pu] that was walkable just
    before, the down portal on a point [pd] walkable just before it (which
    may be [pu], since stairs are walkable); the finalized map holds
    exactly one StairsDown, and one StairsUp unless [pd = pu], in which
    case the down stairs replaced it and there is none; both stairs types
    are not solid. *)
Theorem bpf_generate_map_stairs (fuel : nat) (u d : Z) (rs : list Z) (g : Map) (s' : fstate) :
  generate_map (bpf_generate 5 5 fuel (size_to_rect 20 20)) (Some u) (Some d)
    (mkState (new_canvas 20 20) rs) = (Ok g, s') ->
  exists s0 s1 s2 pu pd,
    bpf_generate 5 5 fuel (size_to_rect 20 20) (mkState (new_canvas 20 20) rs) = (Ok tt, s0) /\
    place_stuff s0 = (Ok tt, s1) /\
    pu ∈ floor_spaces (canvas s1) /\ place_portal StairsUp u s1 = (Ok tt, s2) /\
    canvas s2 = set_architecture (canvas s1) pu (Inst StairsUp (Some u)) /\
    pd ∈ floor_spaces (canvas s2) /\ place_portal StairsDown d s2 = (Ok tt, s') /\
    canvas s' = set_architecture (canvas s2) pd (Inst StairsDown (Some d)) /\
    to_map (canvas s') = Ok g /\
    count_type g StairsDown = 1%nat /\
    count_type g StairsUp = (if decide (pu = pd) then 0%nat else 1%nat) /\
    is_emptyb StairsUp = true /\ is_emptyb StairsDown = true.
Proof.
  intros H. set (R := size_to_rect 20 20) in *. set (s := mkState (new_canvas 20 20) rs) in *.
  unfold generate_map in H.
  apply bind_inv in H as ([] & s0 & Hgen & H).
  apply bind_inv in H as ([] & s1 & Hps & H).
  apply bind_inv in H as ([] & s2 & Hup & H).
  apply bind_inv in H as ([] & s3 & Hdn & H).
  unfold bind, get_canvas, from_outcome in H. injection H as Hg <-.
  pose proof (new_canvas_inv 20 20) as I.
  pose proof (bpf_generate_inv R R 5 5 fuel s tt s0 I Hgen) as I0.
  pose proof (place_stuff_inv R s0 tt s1 I0 Hps) as (HR1 & Hf1 & Ha1 & Hi1 & Hc1).
  destruct (place_portal_run _ _ _ _ _ Hup) as (pu & Hpu & Hs2).
  destruct (place_portal_run _ _ _ _ _ Hdn) as (pd & Hpd & Hs3).
  exists s0, s1, s2, pu, pd. do 9 (split; [done|]).
  assert (Hpu' : pu ∈ iter_points (rect (canvas s3))).
  { rewrite Hs3, Hs2. simpl. rewrite HR1. apply point_in_rect_points, Hf1, Hpu. }
  assert (Hpd' : pd ∈ iter_points (rect (canvas s3))).
  { rewrite Hs3. simpl. rewrite Hs2. simpl. rewrite HR1. apply point_in_rect_points.
    rewrite Hs2 in Hpd. simpl in Hpd. apply elem_of_union in Hpd as [Hpd|Hpd].
    - apply Hf1, Hpd.
    - apply elem_of_singleton in Hpd. subst. apply Hf1, Hpu. }
  assert (Hit : item_grid (canvas s3) = item_grid (canvas s1)) by (rewrite Hs3, Hs2; done).
  assert (Hcr : creature_grid (canvas s3) = creature_grid (canvas s1)) by (rewrite Hs3, Hs2; done).
  assert (Har : arch_grid (canvas s3) =
                <[pd := Inst StairsDown (Some d)]> (<[pu := Inst StairsUp (Some u)]> (arch_grid (canvas s1))))
    by (rewrite Hs3, Hs2; done).
  assert (Hcount : forall t, is_stairs t ->
    count_type g t = length (filter (fun p => option_map ptype (arch_grid (canvas s3) !! p) = Some t)
                                    (iter_points (rect (canvas s3))))).
  { intros t Ht. apply to_map_points_count; [exact Hg| |].
    - intros p l Hl Htl. rewrite Hit in Hl. exact (Hi1 _ _ _ Hl Htl Ht).
    - intros p v Hv ->. rewrite Hcr in Hv. exact (Hc1 _ _ Hv Ht). }
  split; [|split; [|split; reflexivity]].
  - rewrite Hcount by (by right).
    rewrite (filter_ext_in _ (fun p => p = pd)); [apply filter_eq_NoDup; [apply NoDup_iter_points|exact Hpd']|].
    intros p _. rewrite Har. destruct (decide (p = pd)) as [->|Hne].
    + rewrite lookup_insert_eq. simpl. tauto.
    + rewrite lookup_insert_ne by congruence. destruct (decide (p = pu)) as [->|Hne'].
      * rewrite lookup_insert_eq. simpl. split; [intros [=]|done].
      * rewrite lookup_insert_ne by congruence.
        destruct (arch_grid (canvas s1) !! p) as [v|] eqn:Hv; simpl; [|split; [intros [=]|done]].
        split; [|done]. intros [= Hvt]. exfalso. apply (Ha1 _ _ Hv). right. exact Hvt.
  - rewrite Hcount by (by left). case_decide as Heq.
    + subst pd. rewrite filter_none; [done|]. intros p _. rewrite Har.
      destruct (decide (p = pu)) as [->|Hne].
      * rewrite lookup_insert_eq. simpl. intros [=].
      * rewrite !lookup_insert_ne by congruence.
        destruct (arch_grid (canvas s1) !! p) as [v|] eqn:Hv; simpl; [|intros [=]].
        intros [= Hvt]. apply (Ha1 _ _ Hv). left. exact Hvt.
    + rewrite (filter_ext_in _ (fun p => p = pu)); [apply filter_eq_NoDup; [apply NoDup_iter_points|exact Hpu']|].
      intros p _. rewrite Har. destruct (decide (p = pd)) as [->|Hne].
      * rewrite lookup_insert_eq. simpl. split; [intros [=]|intros ->; done].
      * rewrite lookup_insert_ne by congruence. destruct (decide (p = pu)) as [->|Hne'].
        -- rewrite lookup_insert_eq. simpl. tauto.
        -- rewrite lookup_insert_ne by congruence.
           destruct (arch_grid (canvas s1) !! p) as [v|] eqn:Hv; simpl; [|split; [intros [=]|done]].
           split; [|done]. intros [= Hvt]. exfalso. apply (Ha1 _ _ Hv). left. exact Hvt.
Qed.

Lemma outcome_ok_eta {A} (r : outcome A * fstate) (d : A) :
  is_ok (fst r) = true -> r = (Ok (ok_or d (fst r)), snd r).
Proof. destruct r as [[a| |] s]; simpl; by intros. Qed.

Lemma bpf_generate_map_stairs_witness :
  is_ok (fst (bpf_run (repeat 0 44 ++ [0; 1]))) = true /\
  exists s0 s1 s2 pu pd,
    bpf_generate 5 5 100 (size_to_rect 20 20) (mkState (new_canvas 20 20) (repeat 0 44 ++ [0; 1])) = (Ok tt, s0) /\
    place_stuff s0 = (Ok tt, s1) /\
    pu ∈ floor_spaces (canvas s1) /\ place_portal StairsUp 1 s1 = (Ok tt, s2) /\
    canvas s2 = set_architecture (canvas s1) pu (Inst StairsUp (Some 1)) /\
    pd ∈ floor_spaces (canvas s2) /\
    place_portal StairsDown 2 s2 = (Ok tt, snd (bpf_run (repeat 0 44 ++ [0; 1]))) /\
    canvas (snd (bpf_run (repeat 0 44 ++ [0; 1])))
      = set_architecture (canvas s2) pd (Inst StairsDown (Some 2)) /\
    to_map (canvas (snd (bpf_run (repeat 0 44 ++ [0; 1]))))
      = Ok (ok_or [] (fst (bpf_run (repeat 0 44 ++ [0; 1])))) /\
    count_type (ok_or [] (fst (bpf_run (repeat 0 44 ++ [0; 1]))))
      StairsDown = 1%nat /\
    count_type (ok_or [] (fst (bpf_run (repeat 0 44 ++ [0; 1]))))
      StairsUp = (if decide (pu = pd) then 0%nat else 1%nat) /\
    is_emptyb StairsUp = true /\ is_emptyb StairsDown = true.
Proof.
  assert (Hok : is_ok (fst (bpf_run (repeat 0 44 ++ [0; 1]))) = true)
    by (vm_compute; reflexivity).
  split; [exact Hok|].
  pose proof (outcome_ok_eta _ [] Hok) as H.
  exact (bpf_generate_map_stairs 100 1 2 (repeat 0 44 ++ [0; 1]) _ _ H).
Defined.

(** C3 (counterexample).  When every draw is 0, the run on the 20 x 20
    canvas with minimum size 5 x 5 returns a map, and the down portal falls
    on the point of the up portal: the map has no StairsUp. *)
Lemma bpf_generate_map_stairs_cex :
  exists g, bpf_run [] = (Ok g, snd (bpf_run [])) /\
    count_type g StairsUp = 0%nat /\ count_type g StairsDown = 1%nat.
Proof.
  assert (Hok : is_ok (fst (bpf_run [])) = true) by (vm_compute; reflexivity).
  exists (ok_or [] (fst (bpf_run []))).
  split; [exact (outcome_ok_eta (A := Map) (bpf_run []) [] Hok)|].
  split; vm_compute; reflexivity.
Qed.

(** ** C1: the valley flood connector ([flood_valleys]) *)


(** ** The valley flood connector *)

Lemma neighbors_sym (x y : point) : y ∈ neighbors x -> x ∈ neighbors y.
Proof.
  destruct x as [a b], y as [c d]. unfold neighbors.
  rewrite !elem_of_cons, elem_of_nil.
  intros H. repeat destruct H as [H|H]; try contradiction; injection H as -> ->;
    repeat (first [left; f_equal; lia | right]).
Qed.

Lemma linked_mono (nb : point -> list point) (T T' : gset point) (a b : point) :
  T ⊆ T' -> linked nb T a b -> linked nb T' a b.
Proof.
  intros HT H. induction H as [|x y z (Hx & Hy & Hn) _ IH]; [reflexivity|].
  eapply rtc_l; [|exact IH]. repeat split; [set_solver|set_solver|done].
Qed.

Lemma linked_sym (T : gset point) (a b : point) :
  linked neighbors T a b -> linked neighbors T b a.
Proof.
  intros H. induction H as [|x y z (Hx & Hy & Hn) _ IH]; [reflexivity|].
  eapply rtc_r; [exact IH|]. repeat split; [done|done|]. by apply neighbors_sym.
Qed.

Lemma linked_trans (nb : point -> list point) (T : gset point) (a b c : point) :
  linked nb T a b -> linked nb T b c -> linked nb T a c.
Proof. intros H1 H2. by etrans. Qed.

Lemma linked_step (nb : point -> list point) (T : gset point) (a b : point) :
  a ∈ T -> b ∈ T -> b ∈ nb a -> linked nb T a b.
Proof. intros. apply rtc_once. auto. Qed.

Lemma elem_of_insert_by_depth (d : depthmap_t) (p x : point) (l : list point) :
  x ∈ insert_by_depth d p l <-> x = p \/ x ∈ l.
Proof.
  induction l as [|q l IH]; simpl.
  - rewrite elem_of_cons, elem_of_nil. tauto.
  - destruct (d p <? d q); rewrite !elem_of_cons; [tauto|]. rewrite IH. tauto.
Qed.

Lemma elem_of_sort_by_depth_aux (d : depthmap_t) (x : point) (acc l : list point) :
  x ∈ foldl (fun acc p => insert_by_depth d p acc) acc l <-> x ∈ acc \/ x ∈ l.
Proof.
  revert acc. induction l as [|p l IH]; intros acc; simpl.
  - rewrite elem_of_nil. tauto.
  - rewrite IH, elem_of_insert_by_depth, elem_of_cons. tauto.
Qed.

Lemma elem_of_sort_by_depth (d : depthmap_t) (x : point) (l : list point) :
  x ∈ sort_by_depth d l <-> x ∈ l.
Proof. unfold sort_by_depth. rewrite elem_of_sort_by_depth_aux, elem_of_nil. tauto. Qed.

Lemma NoDup_insert_by_depth (d : depthmap_t) (p : point) (l : list point) :
  p ∉ l -> NoDup l -> NoDup (insert_by_depth d p l).
Proof.
  induction l as [|q l IH]; simpl; intros Hp Hl.
  - constructor; [set_solver|constructor].
  - rewrite elem_of_cons in Hp. apply NoDup_cons in Hl as [Hq Hl].
    destruct (d p <? d q); constructor.
    + rewrite elem_of_cons. tauto.
    + by constructor.
    + rewrite elem_of_insert_by_depth. intros [->|?]; tauto.
    + apply IH; tauto.
Qed.

Lemma NoDup_sort_by_depth_aux (d : depthmap_t) (acc l : list point) :
  NoDup acc -> NoDup l -> (forall x, x ∈ acc -> x ∉ l) ->
  NoDup (foldl (fun acc p => insert_by_depth d p acc) acc l).
Proof.
  intros Ha Hl. revert acc Ha. induction Hl as [|p l Hp Hl IH]; intros acc Ha Hd; simpl; [done|].
  apply IH.
  - apply NoDup_insert_by_depth; [|done]. intros Hin. apply (Hd p Hin). set_solver.
  - intros x. rewrite elem_of_insert_by_depth. intros [->|Hx]; [done|].
    intros Hxl. apply (Hd x Hx). set_solver.
Qed.

Lemma NoDup_sort_by_depth (d : depthmap_t) (l : list point) :
  NoDup l -> NoDup (sort_by_depth d l).
Proof. intros Hl. apply NoDup_sort_by_depth_aux; [constructor|done|set_solver]. Qed.

Lemma depth_sorted_insert (d : depthmap_t) (p : point) (l : list point) :
  depth_sorted d l -> depth_sorted d (insert_by_depth d p l).
Proof.
  induction l as [|q l IH]; simpl; intros Hs.
  - split; [constructor|done].
  - destruct Hs as [Hq Hs]. destruct (d p <? d q) eqn:E.
    + apply Z.ltb_lt in E. simpl. split; [|done]. constructor; [lia|].
      eapply Forall_impl; [exact Hq|]. simpl. lia.
    + apply Z.ltb_ge in E. simpl. split; [|by apply IH].
      apply Forall_forall. intros y. rewrite elem_of_insert_by_depth.
      intros [->|Hy]; [lia|]. by eapply Forall_forall in Hq.
Qed.

Lemma depth_sorted_sort (d : depthmap_t) (l : list point) :
  depth_sorted d (sort_by_depth d l).
Proof.
  unfold sort_by_depth.
  assert (H : forall acc, depth_sorted d acc ->
            depth_sorted d (foldl (fun acc p => insert_by_depth d p acc) acc l)).
  { induction l as [|p l IH]; intros acc Hacc; simpl; [done|].
    apply IH, depth_sorted_insert, Hacc. }
  apply H. done.
Qed.

Lemma depth_sorted_lookup (d : depthmap_t) (l : list point) (i j : nat) (x y : point) :
  depth_sorted d l -> (i < j)%nat -> l !! i = Some x -> l !! j = Some y -> d x <= d y.
Proof.
  revert i j. induction l as [|z l IH]; intros i j Hs Hij Hx Hy; [done|].
  destruct Hs as [Hz Hs]. destruct i as [|i], j as [|j]; simpl in *; try lia.
  - injection Hx as <-. rewrite Forall_forall in Hz. apply Hz. by eapply list_elem_of_lookup_2.
  - eapply IH; [exact Hs| |exact Hx|exact Hy]. lia.
Qed.

Lemma seed_goals_spec (region : list point) (goals : list point) (i : nat)
    (fl : gmap point nat) (pm : gmap nat nat) (fl' : gmap point nat) (pm' : gmap nat nat) :
  seed_goals region i goals fl pm = (fl', pm') ->
  (forall x j, fl !! x = Some j -> (j < i)%nat /\ pm !! j = Some j) ->
  (forall k v, pm !! k = Some v -> v = k) ->
  (forall x y j, fl !! x = Some j -> fl !! y = Some j -> x = y) ->
  (forall x j, fl' !! x = Some j -> pm' !! j = Some j) /\
  (forall k v, pm' !! k = Some v -> v = k) /\
  (forall x y j, fl' !! x = Some j -> fl' !! y = Some j -> x = y) /\
  (forall x, is_Some (fl' !! x) <-> is_Some (fl !! x) \/ (x ∈ region /\ x ∈ goals)).
Proof.
  revert i fl pm. induction goals as [|g gs IH]; intros i fl pm Hrun Hfl Hpm Hinj; simpl in Hrun.
  - injection Hrun as <- <-. split; [|split; [done|split; [done|]]].
    + intros x j Hx. apply (Hfl x j Hx).
    + intros x. rewrite elem_of_nil. tauto.
  - destruct (decide (g ∈ region)) as [Hg|Hg].
    + destruct (IH _ _ _ Hrun) as (H1 & H2 & H3 & H4).
      * intros x j. destruct (decide (x = g)) as [->|Hne].
        -- rewrite lookup_insert_eq. intros [= <-]. rewrite lookup_insert_eq. split; [lia|done].
        -- rewrite lookup_insert_ne by congruence. intros Hx. destruct (Hfl x j Hx) as [Hj Hpj].
           split; [lia|]. rewrite lookup_insert_ne by lia. done.
      * intros k v. destruct (decide (k = i)) as [->|Hne].
        -- rewrite lookup_insert_eq. congruence.
        -- rewrite lookup_insert_ne by congruence. apply Hpm.
      * intros x y j. destruct (decide (x = g)) as [->|Hx], (decide (y = g)) as [->|Hy];
          rewrite ?lookup_insert_eq, ?lookup_insert_ne by congruence; try done.
        -- intros [= <-] Hy'. destruct (Hfl y i Hy'). lia.
        -- intros Hx' [= <-]. destruct (Hfl x i Hx'). lia.
        -- apply Hinj.
      * split; [done|split; [done|split; [done|]]]. intros x. rewrite H4, elem_of_cons.
        destruct (decide (x = g)) as [->|Hne].
        -- rewrite lookup_insert_eq. split; intros _; [right; split; [done|by left]|left; done].
        -- rewrite lookup_insert_ne by congruence. tauto.
    + destruct (IH _ _ _ Hrun) as (H1 & H2 & H3 & H4).
      * intros x j Hx. destruct (Hfl x j Hx). split; [lia|done].
      * done.
      * done.
      * split; [done|split; [done|split; [done|]]]. intros x. rewrite H4, elem_of_cons.
        split; [tauto|]. intros [?|(Hr & [->|Hx])]; [tauto|contradiction|tauto].
Qed.

Lemma add_to_group_in (k k' : nat) (q q' q0 : point) (qs : list point) (gs : list group) :
  (k', q0, qs) ∈ add_to_group k q gs -> q' ∈ q0 :: qs ->
  (k' = k /\ q' = q) \/ exists q0' qs', (k', q0', qs') ∈ gs /\ q' ∈ q0' :: qs'.
Proof.
  induction gs as [|[[k1 q1] qs1] gs IH]; simpl.
  - intros H Hq. apply list_elem_of_singleton in H. injection H as -> -> ->.
    apply list_elem_of_singleton in Hq as ->. tauto.
  - intros H Hq. destruct (decide (k = k1)) as [->|Hne]; apply elem_of_cons in H.
    + destruct H as [[= -> -> ->]|Hin].
      * rewrite elem_of_cons, elem_of_app, list_elem_of_singleton in Hq.
        destruct Hq as [->|[Hq| ->]]; [right..|left; done].
        -- exists q1, qs1. split; [apply elem_of_cons; by left|apply elem_of_cons; by left].
        -- exists q1, qs1. split; [apply elem_of_cons; by left|]. apply elem_of_cons. by right.
      * right. exists q0, qs. split; [apply elem_of_cons; by right|done].
    + destruct H as [[= -> -> ->]|Hin].
      * right. exists q1, qs1. split; [apply elem_of_cons; by left|done].
      * destruct (IH Hin Hq) as [?|(q0' & qs' & H1 & H2)]; [tauto|].
        right. exists q0', qs'. split; [apply elem_of_cons; by right|done].
Qed.

Lemma add_to_group_keys (k k' : nat) (q : point) (gs : list group) :
  k' ∈ map group_key gs \/ k' = k -> k' ∈ map group_key (add_to_group k q gs).
Proof.
  induction gs as [|[[k1 q1] qs1] gs IH]; simpl.
  - rewrite elem_of_nil, elem_of_cons. tauto.
  - destruct (decide (k = k1)) as [->|Hne]; simpl; rewrite !elem_of_cons; [tauto|].
    intros H. destruct H as [[-> | H] | ->]; [tauto|right; apply IH; tauto|right; apply IH; tauto].
Qed.

Lemma group_neighbors_spec (fl : gmap point nat) (pm : gmap nat nat) (npts : list point)
    (gs gs' : list group) :
  group_neighbors fl pm npts gs = Ok gs' ->
  (forall k q0 qs q, (k, q0, qs) ∈ gs' -> q ∈ q0 :: qs ->
     (exists q0' qs', (k, q0', qs') ∈ gs /\ q ∈ q0' :: qs') \/
     (q ∈ npts /\ puddle_of fl pm q = Some k)) /\
  (forall k, k ∈ map group_key gs -> k ∈ map group_key gs') /\
  (forall q, q ∈ npts -> is_Some (fl !! q) ->
     exists k, puddle_of fl pm q = Some k /\ k ∈ map group_key gs').
Proof.
  revert gs. induction npts as [|npt rest IH]; intros gs Hrun; simpl in Hrun.
  - injection Hrun as <-. split; [|split; [done|]].
    + intros k q0 qs q H1 H2. left. eauto.
    + intros q. rewrite elem_of_nil. done.
  - destruct (fl !! npt) as [i|] eqn:Ei.
    + destruct (pm !! i) as [pd|] eqn:Ep; [|done].
      destruct (IH _ Hrun) as (H1 & H2 & H3). split; [|split].
      * intros k q0 qs q Hin Hq. destruct (H1 k q0 qs q Hin Hq) as [(q0' & qs' & Hin' & Hq')|[Hq' Hr]].
        -- destruct (add_to_group_in _ _ _ _ _ _ _ Hin' Hq') as [[-> ->]|?]; [|by left].
           right. unfold puddle_of. rewrite Ei. simpl. split; [apply elem_of_cons; by left|done].
        -- right. split; [apply elem_of_cons; by right|done].
      * intros k Hk. apply H2, add_to_group_keys. by left.
      * intros q. rewrite elem_of_cons. intros [->|Hq] Hs.
        -- exists pd. unfold puddle_of. rewrite Ei. split; [done|]. apply H2, add_to_group_keys. by right.
        -- by apply H3.
    + destruct (IH _ Hrun) as (H1 & H2 & H3). split; [|split].
      * intros k q0 qs q Hin Hq. destruct (H1 k q0 qs q Hin Hq) as [?|[Hq' Hr]]; [by left|].
        right. split; [apply elem_of_cons; by right|done].
      * done.
      * intros q. rewrite elem_of_cons. intros [->|Hq] Hs; [|by apply H3].
        rewrite Ei in Hs. by destruct Hs.
Qed.

Lemma assoc_set_in {K V} `{EqDecision K} (k a : K) (v b : V) (l : list (K * V)) :
  (a, b) ∈ assoc_set k v l -> (a, b) = (k, v) \/ (a, b) ∈ l.
Proof.
  induction l as [|[k' v'] l IH]; simpl.
  - rewrite elem_of_cons, elem_of_nil. tauto.
  - destruct (decide (k = k')); rewrite !elem_of_cons; [tauto|]. intros [?|H]; [tauto|].
    destruct (IH H); tauto.
Qed.

Lemma assoc_set_key {K V} `{EqDecision K} (k a : K) (v : V) (l : list (K * V)) :
  a = k \/ (exists c, (a, c) ∈ l) -> exists c, (a, c) ∈ assoc_set k v l.
Proof.
  intros Ha. destruct (decide (a = k)) as [->|Hne].
  - exists v. clear Ha. induction l as [|[k' v'] l IH]; simpl; [apply elem_of_cons; by left|].
    destruct (decide (k = k')); apply elem_of_cons; [by left|right; apply IH].
  - destruct Ha as [?|[c Hc]]; [done|]. exists c.
    induction l as [|[k' v'] l IH]; simpl; [by apply elem_of_nil in Hc|].
    apply elem_of_cons in Hc as [Hc|Hc].
    + injection Hc as <- <-. destruct (decide (k = a)); [congruence|]. apply elem_of_cons. by left.
    + destruct (decide (k = k')); apply elem_of_cons; right; [done|by apply IH].
Qed.

Lemma min_by_depth_in (d : depthmap_t) (q0 : point) (qs : list point) :
  min_by_depth d q0 qs ∈ q0 :: qs.
Proof.
  unfold min_by_depth. revert q0. induction qs as [|q qs IH]; intros q0; simpl;
    [apply elem_of_cons; by left|].
  destruct (d q <? d q0).
  - specialize (IH q). rewrite elem_of_cons in IH |- *. rewrite elem_of_cons. tauto.
  - specialize (IH q0). rewrite elem_of_cons in IH |- *. rewrite elem_of_cons. tauto.
Qed.

Lemma record_paths_in (d : depthmap_t) (l : list (nat * point)) (gs : list group) (cp : nat) (cpt : point) :
  (cp, cpt) ∈ record_paths d l gs ->
  (cp, cpt) ∈ l \/ exists q0 qs, (cp, q0, qs) ∈ gs /\ cpt = min_by_depth d q0 qs.
Proof.
  unfold record_paths. revert l. induction gs as [|[[k q0] qs] gs IH]; intros l; simpl; [tauto|].
  intros H. destruct (IH _ H) as [H'|(q0' & qs' & Hin & ->)].
  - destruct (assoc_set_in _ _ _ _ _ H') as [[= -> ->]|?]; [|tauto].
    right. exists q0, qs. split; [apply elem_of_cons; by left|done].
  - right. exists q0', qs'. split; [apply elem_of_cons; by right|done].
Qed.

Lemma record_paths_key (d : depthmap_t) (l : list (nat * point)) (gs : list group) (k : nat) :
  k ∈ map group_key gs \/ (exists c, (k, c) ∈ l) -> exists c, (k, c) ∈ record_paths d l gs.
Proof.
  unfold record_paths. revert l. induction gs as [|[[k' q0] qs] gs IH]; intros l; simpl.
  - rewrite elem_of_nil. intros [[]|?]; done.
  - rewrite elem_of_cons. intros [[->|H]|H]; apply IH; [right|left|right]; [|done|];
      apply assoc_set_key; tauto.
Qed.

Lemma next_point_spec (d : depthmap_t) (pm : gmap nat nat) (puddle : nat)
    (cands : list (nat * point)) (best r : option point) :
  next_point d pm puddle cands best = Ok r ->
  (r = best \/ exists cp cpt, r = Some cpt /\ (cp, cpt) ∈ cands /\ pm !! cp = Some puddle) /\
  (r = None -> forall cp cpt, (cp, cpt) ∈ cands -> pm !! cp <> Some puddle).
Proof.
  revert best. induction cands as [|[cp cpt] cs IH]; intros best Hrun; simpl in Hrun.
  - injection Hrun as <-. split; [by left|]. intros _ ? ? H. by apply elem_of_nil in H.
  - destruct (pm !! cp) as [v|] eqn:Ev; [|done].
    destruct (IH _ Hrun) as [H1 H2]. split.
    + destruct H1 as [->|(cp' & cpt' & -> & Hin & Hp)].
      * destruct (bool_decide (v = puddle) && _) eqn:Eb; [|by left].
        apply andb_true_iff in Eb as [Eb _]. apply bool_decide_eq_true in Eb as ->.
        right. exists cp, cpt. split; [done|]. split; [apply elem_of_cons; by left|done].
      * right. exists cp', cpt'. split; [done|]. split; [apply elem_of_cons; by right|done].
    + intros Hr. assert (Hb : (if bool_decide (v = puddle) &&
          match best with None => true | Some np => d cpt <? d np end
          then Some cpt else best) = None).
      { destruct H1 as [<-|(? & ? & -> & _)]; [done|congruence]. }
      intros cp' cpt'. rewrite elem_of_cons. intros [[= -> ->]|Hin].
      * rewrite Ev. intros [= ->]. rewrite bool_decide_true in Hb by done.
        destruct best; simpl in Hb; [|done].
        destruct (d cpt <? d p); done.
      * exact (H2 Hr _ _ Hin).
Qed.

Lemma merge_puddles_lookup (keys : list nat) (this : nat) (pm : gmap nat nat) (k : nat) :
  (forall k v, pm !! k = Some v -> pm !! v = Some v) ->
  (forall k, k ∈ keys -> pm !! k = Some k) ->
  merge_puddles keys this pm !! k = (fun v => if decide (v ∈ keys) then this else v) <$> pm !! k.
Proof.
  intros Hpm Hk. unfold merge_puddles. rewrite map_lookup_imap.
  destruct (pm !! k) as [v|] eqn:Ev; simpl; [|done]. f_equal.
  destruct (decide (k ∈ keys)) as [Hin|Hin].
  - rewrite Hk in Ev by done. injection Ev as <-.
    rewrite decide_True by tauto. by rewrite decide_True.
  - destruct (decide (v ∈ keys)); [rewrite decide_True by tauto|rewrite decide_False by tauto]; done.
Qed.

Lemma map_img_single (pm : gmap nat nat) :
  size (map_img pm : gset nat) = 1%nat -> exists c, forall k v, pm !! k = Some v -> v = c.
Proof.
  intros Hs. destruct (size_1_elem_of _ Hs) as [c Hc]. exists c. intros k v Hk.
  assert (Hv : v ∈ (map_img pm : gset nat)) by (eapply elem_of_map_img_2; exact Hk).
  rewrite Hc in Hv. set_solver.
Qed.

Lemma foldl_min_in (k : nat) (ks : list nat) : foldl Nat.min k ks ∈ k :: ks.
Proof.
  revert k. induction ks as [|k' ks IH]; intros k; simpl; [set_solver|].
  pose proof (IH (Nat.min k k')) as H. apply elem_of_cons in H as [->|H]; [|set_solver].
  destruct (Nat.min_spec k k') as [[_ ->]|[_ ->]]; set_solver.
Qed.

Lemma elem_of_group_keys (k : nat) (gs : list group) :
  k ∈ map group_key gs <-> exists q0 qs, (k, q0, qs) ∈ gs.
Proof.
  induction gs as [|[[k' q0] qs] gs IH]; simpl.
  - rewrite elem_of_nil. split; [done|]. intros (? & ? & H). by apply elem_of_nil in H.
  - rewrite elem_of_cons, IH. split.
    + intros [->|(q0' & qs' & H)]; [exists q0, qs; apply elem_of_cons; by left|].
      exists q0', qs'. apply elem_of_cons. by right.
    + intros (q0' & qs' & H). apply elem_of_cons in H as [[= -> -> ->]|H]; [by left|].
      right. eauto.
Qed.

Section FloodValleys.

Variables region goals : list point.
Variable depthmap : depthmap_t.

Lemma walk_spec (fl : gmap point nat) (pm : gmap nat nat) (pfp : gmap point (list (nat * point)))
    (fuel : nat) (puddle : nat) (x : point) (ps ps' : gset point) :
  (forall y l cp cpt, pfp !! y = Some l -> (cp, cpt) ∈ l ->
     cpt ∈ neighbors y /\ is_Some (fl !! cpt) /\ pm !! cp = puddle_of fl pm cpt) ->
  (forall y i, fl !! y = Some i -> ~ is_seed region goals y ->
     exists l c, pfp !! y = Some l /\ (i, c) ∈ l) ->
  walk depthmap pm pfp fuel puddle x ps = Ok ps' ->
  is_Some (fl !! x) ->
  (is_seed region goals x /\ puddle_of fl pm x = Some puddle) \/
  (exists l cp cpt, pfp !! x = Some l /\ (cp, cpt) ∈ l /\ pm !! cp = Some puddle) ->
  ps ⊆ ps' /\ x ∈ ps' /\ (forall y, y ∈ ps' -> y ∈ ps \/ is_Some (fl !! y)) /\
  exists s, is_seed region goals s /\ puddle_of fl pm s = Some puddle /\ linked neighbors ps' x s.
Proof.
  intros Hv Ho. revert x ps. induction fuel as [|fuel IH]; intros x ps Hrun Hx Hpre;
    simpl in Hrun; [done|].
  destruct (next_point depthmap pm puddle (default [] (pfp !! x)) None) as [[np|]| |] eqn:En;
    try discriminate.
  - destruct (next_point_spec _ _ _ _ _ _ En) as [[Hr|(cp & cpt & [= ->] & Hin & Hp)] _];
      [done|].
    destruct (pfp !! x) as [l|] eqn:El; simpl in Hin; [|by apply elem_of_nil in Hin].
    destruct (Hv x l cp cpt El Hin) as (Hnb & Hfl & Hcp). rewrite Hp in Hcp.
    assert (Hpre' : (is_seed region goals cpt /\ puddle_of fl pm cpt = Some puddle) \/
      (exists l cp cpt', pfp !! cpt = Some l /\ (cp, cpt') ∈ l /\ pm !! cp = Some puddle)).
    { destruct (decide (is_seed region goals cpt)) as [Hs|Hs]; [left; done|right].
      destruct Hfl as [i Hi]. destruct (Ho cpt i Hi Hs) as (l' & c & Hl' & Hic).
      exists l', i, c. split; [done|split; [done|]].
      unfold puddle_of in Hcp. rewrite Hi in Hcp. done. }
    destruct (IH _ _ Hrun Hfl Hpre') as (Hsub & Hin' & Hnew & s & Hs & Hps & Hlink).
    split; [set_solver|split; [set_solver|split]].
    + intros y Hy. destruct (Hnew y Hy) as [Hy'|]; [|by right].
      apply elem_of_union in Hy' as [Hy'|]; [|by left].
      apply elem_of_singleton in Hy' as ->. by right.
    + exists s. split; [done|split; [done|]]. eapply rtc_l; [|exact Hlink].
      split; [set_solver|split; [done|done]].
  - injection Hrun as <-. destruct (next_point_spec _ _ _ _ _ _ En) as [_ Hno].
    specialize (Hno eq_refl).
    destruct Hpre as [[Hs Hp]|(l & cp & cpt & El & Hin & Hp)].
    + split; [set_solver|split; [set_solver|split]].
      * intros y. rewrite elem_of_union, elem_of_singleton. intros [->|?]; [by right|by left].
      * exists x. split; [done|split; [done|reflexivity]].
    + exfalso. apply (Hno cp cpt); [rewrite El; done|done].
Qed.

Lemma walks_spec (fl : gmap point nat) (pm : gmap nat nat) (pfp : gmap point (list (nat * point)))
    (fuel : nat) (keys : list nat) (p : point) (ps ps' : gset point) :
  (forall y l cp cpt, pfp !! y = Some l -> (cp, cpt) ∈ l ->
     cpt ∈ neighbors y /\ is_Some (fl !! cpt) /\ pm !! cp = puddle_of fl pm cpt) ->
  (forall y i, fl !! y = Some i -> ~ is_seed region goals y ->
     exists l c, pfp !! y = Some l /\ (i, c) ∈ l) ->
  walks depthmap pm pfp fuel keys p ps = Ok ps' ->
  is_Some (fl !! p) ->
  (forall k, k ∈ keys ->
     (is_seed region goals p /\ puddle_of fl pm p = Some k) \/
     (exists l cp cpt, pfp !! p = Some l /\ (cp, cpt) ∈ l /\ pm !! cp = Some k)) ->
  ps ⊆ ps' /\ (forall y, y ∈ ps' -> y ∈ ps \/ is_Some (fl !! y)) /\
  forall k, k ∈ keys ->
    exists s, is_seed region goals s /\ puddle_of fl pm s = Some k /\ linked neighbors ps' p s.
Proof.
  intros Hv Ho. revert ps. induction keys as [|k keys IH]; intros ps Hrun Hp Hpre; simpl in Hrun.
  - injection Hrun as <-. split; [done|split; [by left|]]. intros k Hk. by apply elem_of_nil in Hk.
  - destruct (walk depthmap pm pfp fuel k p ps) as [ps1| |] eqn:Ew; try discriminate.
    destruct (walk_spec _ _ _ _ _ _ _ _ Hv Ho Ew Hp (Hpre k ltac:(apply elem_of_cons; by left)))
      as (Hsub1 & _ & Hnew1 & s & Hs & Hps & Hlink).
    destruct (IH _ Hrun Hp) as (Hsub2 & Hnew2 & Hall).
    { intros k' Hk'. apply Hpre. apply elem_of_cons. by right. }
    split; [set_solver|split].
    + intros y Hy. destruct (Hnew2 y Hy) as [Hy'|]; [|by right].
      destruct (Hnew1 y Hy'); [by left|by right].
    + intros k'. rewrite elem_of_cons. intros [->|Hk']; [|by apply Hall].
      exists s. split; [done|split; [done|]]. by eapply linked_mono.
Qed.

Lemma flood_point_spec (fuel : nat) (st st' : flood_state) (p : point) (b : bool) :
  flood_inv region goals st -> flooded st !! p = None -> p ∈ region ->
  flood_point depthmap fuel st p = Ok (st', b) ->
  flood_inv region goals st' /\
  (forall x, x <> p -> flooded st' !! x = flooded st !! x) /\
  ((exists q, q ∈ neighbors p /\ is_Some (flooded st !! q)) -> is_Some (flooded st' !! p)) /\
  (b = true -> exists c, forall k v, puddle_map st' !! k = Some v -> v = c).
Proof.
  intros Hinv Hp Hpr Hrun. unfold flood_point in Hrun.
  destruct (group_neighbors (flooded st) (puddle_map st) (neighbors p) []) as [gs0| |] eqn:Eg;
    try discriminate.
  destruct (group_neighbors_spec _ _ _ _ _ Eg) as (Hg1 & _ & Hg3).
  destruct gs0 as [|g gs].
  { injection Hrun as <- <-. split; [done|split; [done|split; [|done]]].
    intros (q & Hq & Hqs). destruct (Hg3 q Hq Hqs) as (k & _ & Hk). by apply elem_of_nil in Hk. }
  remember (map group_key (g :: gs)) as keys eqn:Ekeys.
  remember (foldl Nat.min (group_key g) (map group_key gs)) as this eqn:Ethis.
  remember (<[p := record_paths depthmap (default [] (path_from_puddle st !! p)) (g :: gs)]>
              (path_from_puddle st)) as pfp eqn:Epfp.
  remember (<[p := this]> (flooded st)) as fl eqn:Efl.
  set (F := flooded st) in *. set (PM := puddle_map st) in *.
  assert (Hmem : forall k q0 qs q, (k, q0, qs) ∈ g :: gs -> q ∈ q0 :: qs ->
            q ∈ neighbors p /\ puddle_of F PM q = Some k).
  { intros k q0 qs q Hin Hq. destruct (Hg1 k q0 qs q Hin Hq) as [(? & ? & Hn & _)|H];
      [by apply elem_of_nil in Hn|exact H]. }
  assert (Hkeys : forall k, k ∈ keys -> PM !! k = Some k).
  { intros k Hk. subst keys. apply elem_of_group_keys in Hk as (q0 & qs & Hin).
    destruct (Hmem k q0 qs q0 Hin ltac:(apply elem_of_cons; by left)) as [_ Hq].
    unfold puddle_of in Hq. destruct (F !! q0) as [i|]; simpl in Hq; [|done].
    eapply inv_pm; [exact Hinv|exact Hq]. }
  assert (Hthis : this ∈ keys).
  { subst this keys. apply foldl_min_in. }
  assert (HpS : ~ is_seed region goals p).
  { intros Hs. destruct (inv_seed _ _ _ Hinv p Hs) as [? Hs']. fold F in Hs'. congruence. }
  assert (HflF : forall x, x <> p -> fl !! x = F !! x).
  { intros x Hx. subst fl. by rewrite lookup_insert_ne by congruence. }
  assert (Hflp : fl !! p = Some this).
  { subst fl. by rewrite lookup_insert_eq. }
  assert (Hnp : forall x, is_Some (F !! x) -> x <> p).
  { intros x [i Hi] ->. congruence. }
  (* the remembered steps, read with the old puddles *)
  assert (Hent : forall y l cp cpt, pfp !! y = Some l -> (cp, cpt) ∈ l ->
            cpt ∈ neighbors y /\ is_Some (F !! cpt) /\ PM !! cp = puddle_of F PM cpt).
  { intros y l cp cpt. subst pfp. destruct (decide (y = p)) as [->|Hne].
    - rewrite lookup_insert_eq. intros [= <-] Hin.
      destruct (record_paths_in depthmap (default [] (path_from_puddle st !! p)) (g :: gs) cp cpt Hin)
        as [Hin'|(q0 & qs & Hin' & ->)].
      + destruct (path_from_puddle st !! p) as [l0|] eqn:El0; simpl in Hin';
          [|by apply elem_of_nil in Hin'].
        exact (inv_pf _ _ _ Hinv p l0 cp _ El0 Hin').
      + destruct (Hmem cp q0 qs _ Hin' (min_by_depth_in depthmap q0 qs)) as [Hnb Hq].
        split; [done|split].
        * unfold puddle_of in Hq. destruct (F !! min_by_depth depthmap q0 qs); [done|].
          simpl in Hq. done.
        * rewrite Hq. apply Hkeys. subst keys. apply elem_of_group_keys. eauto.
    - rewrite lookup_insert_ne by congruence. intros El Hin.
      exact (inv_pf _ _ _ Hinv y l cp cpt El Hin). }
  assert (Hown : forall y i, fl !! y = Some i -> ~ is_seed region goals y ->
            exists l c, pfp !! y = Some l /\ (i, c) ∈ l).
  { intros y i. destruct (decide (y = p)) as [->|Hne].
    - rewrite Hflp. intros [= <-] _. subst pfp. rewrite lookup_insert_eq.
      eexists. destruct (record_paths_key depthmap (default [] (path_from_puddle st !! p)) (g :: gs) this)
        as [c Hc]; [left; by subst keys|].
      exists c. split; [done|exact Hc].
    - rewrite HflF by done. intros Hi Hs. subst pfp. rewrite lookup_insert_ne by congruence.
      exact (inv_own _ _ _ Hinv y i Hi Hs). }
  (* the walks see the new [flooded] and the old [puddle_map] *)
  assert (Hpuw : forall x, x <> p -> puddle_of fl PM x = puddle_of F PM x).
  { intros x Hx. unfold puddle_of. by rewrite HflF. }
  assert (Hv : forall y l cp cpt, pfp !! y = Some l -> (cp, cpt) ∈ l ->
            cpt ∈ neighbors y /\ is_Some (fl !! cpt) /\ PM !! cp = puddle_of fl PM cpt).
  { intros y l cp cpt El Hin. destruct (Hent y l cp cpt El Hin) as (Hnb & Hs & Hc).
    pose proof (Hnp _ Hs) as Hne. rewrite HflF, Hpuw by done. done. }
  (* the puddles after the merge *)
  set (f := fun v => if decide (v ∈ keys) then this else v).
  assert (Hfthis : f this = this).
  { unfold f. by rewrite decide_True. }
  assert (Hgen : forall pm' ps,
    (forall k, pm' !! k = f <$> PM !! k) ->
    paths st ⊆ ps ->
    (forall y, y ∈ ps -> y ∈ paths st \/ is_Some (fl !! y)) ->
    ((exists k1 k2, k1 ∈ keys /\ k2 ∈ keys /\ k1 <> k2) ->
      forall k, k ∈ keys -> exists s, is_seed region goals s /\ puddle_of F PM s = Some k /\
        linked neighbors ps p s) ->
    flood_inv region goals (mkFlood fl pm' pfp ps)).
  { intros pm' ps Hpm' Hsub Hnew Hjoin.
    assert (Hpu : forall x, x <> p -> puddle_of fl pm' x = f <$> puddle_of F PM x).
    { intros x Hx. unfold puddle_of. rewrite HflF by done.
      destruct (F !! x); simpl; [apply Hpm'|done]. }
    assert (Hpup : puddle_of fl pm' p = Some this).
    { unfold puddle_of. rewrite Hflp. simpl. rewrite Hpm', Hkeys by done. simpl. by rewrite Hfthis. }
    assert (Hflreg : forall x, is_Some (fl !! x) -> x ∈ region).
    { intros x. destruct (decide (x = p)) as [->|Hne]; [done|]. rewrite HflF by done.
      intros [i Hi]. exact (proj2 (inv_fl _ _ _ Hinv x i Hi)). }
    constructor; simpl.
    - intros k v. rewrite Hpm'. destruct (PM !! k) as [v0|] eqn:Ev0; simpl; [|done].
      intros [= <-]. pose proof (inv_pm _ _ _ Hinv k v0 Ev0) as Hv0. fold PM in Hv0.
      rewrite Hpm'. unfold f. destruct (decide (v0 ∈ keys)) as [Hin|Hin].
      + rewrite (Hkeys this Hthis). simpl. by rewrite decide_True.
      + rewrite Hv0. simpl. by rewrite decide_False.
    - intros x i. destruct (decide (x = p)) as [->|Hne].
      + rewrite Hflp. intros [= <-]. rewrite Hpm', Hkeys by done. split; [done|done].
      + rewrite HflF by done. intros Hi. destruct (inv_fl _ _ _ Hinv x i Hi) as [[v Hv'] Hx].
        rewrite Hpm'. fold PM in Hv'. rewrite Hv'. split; [done|done].
    - intros x Hs. destruct (inv_seed _ _ _ Hinv x Hs) as [i Hi].
      rewrite HflF by (apply Hnp; by exists i). by exists i.
    - intros x l cp cpt El Hin. destruct (Hent x l cp cpt El Hin) as (Hnb & Hs & Hc).
      pose proof (Hnp _ Hs) as Hne. rewrite HflF, Hpu, <- Hc, Hpm' by done. done.
    - exact Hown.
    - intros x y Hnb Hx Hy Hs. destruct (decide (x = p)) as [->|Hxp], (decide (y = p)) as [->|Hyp].
      + done.
      + rewrite HflF in Hy by done. destruct (Hg3 y Hnb Hy) as (k & Hk & Hkin).
        rewrite Hpup, Hpu, Hk by done. simpl. unfold f. rewrite decide_True; [done|by subst keys].
      + rewrite HflF in Hx by done. apply neighbors_sym in Hnb.
        destruct (Hg3 x Hnb Hx) as (k & Hk & Hkin).
        rewrite Hpup, Hpu, Hk by done. simpl. unfold f. rewrite decide_True; [done|by subst keys].
      + rewrite HflF in Hx, Hy by done. rewrite !Hpu by done.
        pose proof (inv_adj _ _ _ Hinv x y Hnb Hx Hy Hs) as E. fold F PM in E. by rewrite E.
    - intros a b' Ha Hb'.
      destruct (inv_seed _ _ _ Hinv a Ha) as [ia Hia].
      destruct (inv_seed _ _ _ Hinv b' Hb') as [ib Hib].
      assert (Hap : a <> p) by (apply Hnp; by exists ia).
      assert (Hbp : b' <> p) by (apply Hnp; by exists ib).
      destruct (inv_fl _ _ _ Hinv a ia Hia) as [[ra Hra] _].
      destruct (inv_fl _ _ _ Hinv b' ib Hib) as [[rb Hrb] _].
      assert (Hpa : puddle_of F PM a = Some ra) by (unfold puddle_of; fold F in Hia; rewrite Hia; done).
      assert (Hpb : puddle_of F PM b' = Some rb) by (unfold puddle_of; fold F in Hib; rewrite Hib; done).
      rewrite !Hpu, Hpa, Hpb by done. simpl. intros [= Hf].
      destruct (decide (ra = rb)) as [<-|Hne].
      + eapply linked_mono; [|apply (inv_link _ _ _ Hinv a b' Ha Hb'); fold F PM; congruence]. set_solver.
      + assert (Hboth : ra ∈ keys /\ rb ∈ keys).
        { unfold f in Hf. destruct (decide (ra ∈ keys)), (decide (rb ∈ keys)); subst; tauto. }
        destruct Hboth as [Hka Hkb].
        destruct (Hjoin ltac:(exists ra, rb; tauto) ra Hka) as (sa & Hsa & Hpsa & Hla).
        destruct (Hjoin ltac:(exists ra, rb; tauto) rb Hkb) as (sb & Hsb & Hpsb & Hlb).
        apply linked_trans with sa.
        { eapply linked_mono; [|apply (inv_link _ _ _ Hinv a sa Ha Hsa); fold F PM; congruence]. set_solver. }
        apply linked_trans with p.
        { apply linked_sym. eapply linked_mono; [|exact Hla]. set_solver. }
        apply linked_trans with sb.
        { eapply linked_mono; [|exact Hlb]. set_solver. }
        eapply linked_mono; [|apply (inv_link _ _ _ Hinv sb b' Hsb Hb'); fold F PM; congruence]. set_solver.
    - intros y Hy. destruct (Hnew y Hy) as [Hy'|Hy'].
      + exact (inv_paths _ _ _ Hinv y Hy').
      + by apply Hflreg. }
  destruct (decide (1 < length (g :: gs))%nat) as [Hlen|Hlen].
  - destruct (walks depthmap PM pfp fuel keys p ({[p]} ∪ paths st)) as [ps| |] eqn:Ew;
      try discriminate.
    injection Hrun as <- <-.
    destruct (walks_spec fl PM pfp fuel keys p _ ps Hv Hown Ew ltac:(by rewrite Hflp))
      as (Hsub & Hnew & Hall).
    { intros k Hk. right. subst pfp. rewrite lookup_insert_eq.
      destruct (record_paths_key depthmap (default [] (path_from_puddle st !! p)) (g :: gs) k)
        as [c Hc]; [left; by subst keys|].
      eexists _, k, c. split; [done|split; [exact Hc|by apply Hkeys]]. }
    split; [|split; [exact HflF|split; [intros _; simpl; by rewrite Hflp|]]].
    + apply Hgen.
      * intros k. apply merge_puddles_lookup; [exact (inv_pm _ _ _ Hinv)|exact Hkeys].
      * set_solver.
      * intros y Hy. destruct (Hnew y Hy) as [Hy'|]; [|by right].
        apply elem_of_union in Hy' as [Hy'|]; [|by left].
        apply elem_of_singleton in Hy' as ->. right. by rewrite Hflp.
      * intros _ k Hk. destruct (Hall k Hk) as (s & Hs & Hps & Hl). exists s.
        split; [done|split; [|done]].
        destruct (inv_seed _ _ _ Hinv s Hs) as [i Hi].
        rewrite <- Hpuw; [done|]. apply Hnp. by exists i.
    + simpl. intros Hb. apply map_img_single. by apply bool_decide_eq_true in Hb.
  - injection Hrun as <- <-.
    assert (Hgs : gs = []) by (destruct gs; [done|simpl in Hlen; lia]). subst gs.
    split; [|split; [exact HflF|split; [intros _; simpl; by rewrite Hflp|done]]].
    apply Hgen.
    + intros k. destruct (PM !! k) as [v|]; simpl; [|done]. f_equal. unfold f.
      destruct (decide (v ∈ keys)) as [Hin|]; [|done].
      subst keys this. simpl in Hin |- *. by apply list_elem_of_singleton in Hin.
    + done.
    + intros y Hy. by left.
    + intros (k1 & k2 & H1 & H2 & Hne). subst keys. simpl in H1, H2.
      apply list_elem_of_singleton in H1, H2. congruence.
Qed.

End FloodValleys.

Section FloodLoop.

Variables region goals : list point.
Variable depthmap : depthmap_t.

Lemma flood_loop_spec (fuel : nat) (order : list point) (st st' : flood_state) :
  flood_inv region goals st -> NoDup order ->
  (forall p, p ∈ order -> flooded st !! p = None /\ p ∈ region) ->
  flood_loop depthmap fuel order st = Ok st' ->
  flood_inv region goals st' /\
  (forall x, is_Some (flooded st !! x) -> is_Some (flooded st' !! x)) /\
  ((exists c, forall k v, puddle_map st' !! k = Some v -> v = c) \/
   ((forall i p, order !! i = Some p -> exists q, q ∈ neighbors p /\
        (is_Some (flooded st !! q) \/ exists j, (j < i)%nat /\ order !! j = Some q)) ->
    forall p, p ∈ order -> is_Some (flooded st' !! p))).
Proof.
  revert st. induction order as [|p rest IH]; intros st Hinv Hnd Hord Hrun; simpl in Hrun.
  - injection Hrun as <-. split; [done|split; [done|right]].
    intros _ p Hp. by apply elem_of_nil in Hp.
  - destruct (flood_point depthmap fuel st p) as [[st1 b]| |] eqn:Ep; try discriminate.
    destruct (Hord p ltac:(apply elem_of_cons; by left)) as [Hpn Hpr].
    destruct (flood_point_spec region goals depthmap fuel st st1 p b Hinv Hpn Hpr Ep)
      as (Hinv1 & Hsame & Hfl1 & Hb).
    assert (Hmono1 : forall x, is_Some (flooded st !! x) -> is_Some (flooded st1 !! x)).
    { intros x Hx. rewrite Hsame; [done|]. intros ->. rewrite Hpn in Hx. by destruct Hx. }
    destruct b.
    + injection Hrun as <-. split; [done|split; [done|left; by apply Hb]].
    + apply NoDup_cons in Hnd as [Hpnot Hnd].
      destruct (IH st1 Hinv1 Hnd) as (Hinv' & Hmono' & Hor); [|done|].
      { intros q Hq. split; [|apply Hord; apply elem_of_cons; by right].
        rewrite Hsame; [exact (proj1 (Hord q ltac:(apply elem_of_cons; by right)))|].
        intros ->. done. }
      split; [done|split; [intros x Hx; by apply Hmono', Hmono1|]].
      destruct Hor as [Hc|Hall]; [by left|right].
      intros Hgood.
      assert (Hp1 : is_Some (flooded st1 !! p)).
      { destruct (Hgood 0%nat p eq_refl) as (q & Hq & [Hqs|(j & Hj & _)]); [|lia].
        apply Hfl1. eauto. }
      intros q Hq. apply elem_of_cons in Hq as [->|Hq]; [by apply Hmono'|].
      apply Hall; [|done].
      intros i x Hx. destruct (Hgood (S i) x Hx) as (q' & Hq' & [Hqs|(j & Hj & Hjq)]).
      * exists q'. split; [done|left; by apply Hmono1].
      * exists q'. split; [done|]. destruct j as [|j].
        -- simpl in Hjq. injection Hjq as <-. by left.
        -- right. exists j. split; [lia|done].
Qed.

End FloodLoop.

Lemma seeds_spec (region goals : list point) (x : point) :
  x ∈ seeds region goals <-> is_seed region goals x.
Proof. unfold seeds, is_seed. rewrite elem_of_list_to_set, list_elem_of_filter. tauto. Qed.

(** C1 (amended).  Whenever [flood_valleys] returns a point set, the set
    lies within the region; and if every local minimum of the region (a
    point with no strictly lower in-region [Point.neighbors] neighbour) is
    a goal and the region is connected under [Point.neighbors], then any
    two goals in the region are linked, by [Point.neighbors] (8-neighbour)
    steps, through the returned points and the in-region goals. *)
Theorem flood_valleys_connects (region goals : list point) (depthmap : depthmap_t) (ps : gset point) :
  flood_valleys region goals depthmap = Ok ps ->
  ps ⊆ list_to_set region /\
  (minima_are_goals neighbors region goals depthmap = true ->
   (forall a b, a ∈ region -> b ∈ region -> linked neighbors (list_to_set region) a b) ->
   forall a b, a ∈ seeds region goals -> b ∈ seeds region goals ->
   linked neighbors (ps ∪ seeds region goals) a b).
Proof.
  unfold flood_valleys. destruct (seed_goals region 0 goals ∅ ∅) as [fl pm] eqn:Es.
  set (order := sort_by_depth depthmap (filter (fun q => fl !! q = None) (remove_dups region))).
  destruct (flood_loop depthmap (S (length region)) order (mkFlood fl pm ∅ ∅)) as [st| |] eqn:El;
    try discriminate.
  intros [= <-].
  destruct (seed_goals_spec region goals 0 ∅ ∅ fl pm Es) as (Hs1 & Hs2 & Hs3 & Hs4).
  { intros ? ? H. by rewrite lookup_empty in H. }
  { intros ? ? H. by rewrite lookup_empty in H. }
  { intros ? ? ? H. by rewrite lookup_empty in H. }
  assert (Hfl0 : forall x, is_Some (fl !! x) <-> is_seed region goals x).
  { intros x. rewrite Hs4, lookup_empty. unfold is_seed.
    split; [intros [[? H]|H]; [done|done]|by right]. }
  assert (Hinv0 : flood_inv region goals (mkFlood fl pm ∅ ∅)).
  { constructor; simpl.
    - intros k v Hk. pose proof (Hs2 k v Hk) as ->. done.
    - intros x i Hi. split; [eexists; by eapply Hs1|].
      exact (proj1 (proj1 (Hfl0 x) (ex_intro _ i Hi))).
    - intros x Hx. by apply Hfl0.
    - intros x l cp cpt H. by rewrite lookup_empty in H.
    - intros x i Hi Hns. exfalso. apply Hns, Hfl0. by exists i.
    - intros x y _ Hx Hy [Hn|Hn]; exfalso; apply Hn, Hfl0; done.
    - intros a b Ha Hb. apply Hfl0 in Ha as [ia Ha]. apply Hfl0 in Hb as [ib Hb].
      unfold puddle_of. rewrite Ha, Hb. simpl. rewrite (Hs1 a ia Ha), (Hs1 b ib Hb).
      intros [= <-]. rewrite (Hs3 a b ia Ha Hb). reflexivity.
    - intros y Hy. by apply elem_of_empty in Hy. }
  assert (Hnd : NoDup order).
  { apply NoDup_sort_by_depth, NoDup_filter, NoDup_remove_dups. }
  assert (Hord : forall p, p ∈ order -> fl !! p = None /\ p ∈ region).
  { intros p Hp. unfold order in Hp.
    rewrite elem_of_sort_by_depth, list_elem_of_filter, elem_of_remove_dups in Hp. done. }
  assert (Hin_order : forall p, p ∈ region -> fl !! p = None -> p ∈ order).
  { intros p Hp Hn. unfold order.
    rewrite elem_of_sort_by_depth, list_elem_of_filter, elem_of_remove_dups. done. }
  destruct (flood_loop_spec region goals depthmap _ _ _ _ Hinv0 Hnd Hord El)
    as (Hinv & Hmono & Hor).
  split.
  { intros y Hy. apply elem_of_list_to_set. exact (inv_paths _ _ _ Hinv y Hy). }
  intros Hmin Hconn a b Ha Hb. apply seeds_spec in Ha, Hb.
  destruct Hor as [[c Hc]|Hall].
  - apply (inv_link _ _ _ Hinv a b Ha Hb).
    destruct (inv_seed _ _ _ Hinv a Ha) as [ia Hia].
    destruct (inv_seed _ _ _ Hinv b Hb) as [ib Hib].
    destruct (inv_fl _ _ _ Hinv a ia Hia) as [[va Hva] _].
    destruct (inv_fl _ _ _ Hinv b ib Hib) as [[vb Hvb] _].
    unfold puddle_of. rewrite Hia, Hib. simpl. rewrite Hva, Hvb.
    by rewrite (Hc _ _ Hva), (Hc _ _ Hvb).
  - assert (Hflall : forall x, x ∈ region -> is_Some (flooded st !! x)).
    { intros x Hx. destruct (fl !! x) as [i|] eqn:Ex.
      - apply Hmono. simpl. by rewrite Ex.
      - apply Hall; [|by apply Hin_order].
        intros i p Hp. simpl.
        assert (Hpo : p ∈ order) by (eapply list_elem_of_lookup_2; exact Hp).
        destruct (Hord p Hpo) as [Hpn Hpr].
        unfold minima_are_goals in Hmin. rewrite forallb_forall in Hmin.
        pose proof (Hmin p (proj1 (list_elem_of_In _ _) Hpr)) as Hm.
        apply orb_true_iff in Hm as [Hg|Hl].
        + exfalso. apply bool_decide_eq_true in Hg.
          assert (Hsp : is_Some (fl !! p)) by (apply Hfl0; split; done).
          rewrite Hpn in Hsp. by destruct Hsp.
        + unfold has_lower_neighbor in Hl. apply existsb_exists in Hl as (q & Hq & Hql).
          apply andb_true_iff in Hql as [Hqr Hqd].
          apply bool_decide_eq_true in Hqr. apply Z.ltb_lt in Hqd.
          exists q. split; [by apply list_elem_of_In|].
          destruct (fl !! q) as [iq|] eqn:Eq; [left; by exists iq|right].
          destruct (list_elem_of_lookup_1 order q (Hin_order q Hqr Eq)) as [j Hj].
          exists j. split; [|done].
          destruct (Nat.lt_ge_cases j i) as [|Hji]; [done|exfalso].
          destruct (decide (i = j)) as [<-|Hne].
          * rewrite Hp in Hj. injection Hj as ->. lia.
          * pose proof (depth_sorted_lookup depthmap order i j p q
              (depth_sorted_sort _ _) ltac:(lia) Hp Hj). lia. }
    assert (Hstep : forall x, linked neighbors (list_to_set region) a x ->
      exists s, is_seed region goals s /\
        puddle_of (flooded st) (puddle_map st) s = puddle_of (flooded st) (puddle_map st) x /\
        linked neighbors (paths st ∪ seeds region goals) a s).
    { unfold linked at 1. apply rtc_ind_r.
      - exists a. split; [done|split; reflexivity].
      - intros y z _ (Hy & Hz & Hn) (s & Hs & Hps & Hl).
        apply elem_of_list_to_set in Hy, Hz.
        destruct (decide ((y ∈ region /\ y ∈ goals) /\ (z ∈ region /\ z ∈ goals)))
          as [[Hsy Hsz]|Hn'].
        + exists z. split; [done|split; [reflexivity|]].
          apply linked_trans with s; [done|]. apply linked_trans with y.
          * apply (inv_link _ _ _ Hinv s y Hs Hsy Hps).
          * apply linked_step; [apply elem_of_union_r, seeds_spec; done|
              apply elem_of_union_r, seeds_spec; done|done].
        + exists s. split; [done|split; [|done]]. rewrite Hps.
          apply (inv_adj _ _ _ Hinv y z Hn (Hflall y Hy) (Hflall z Hz)).
          unfold is_seed. destruct (decide (y ∈ region /\ y ∈ goals)); [right|left]; tauto. }
    destruct (Hstep b (Hconn a b (proj1 Ha) (proj1 Hb))) as (s & Hs & Hps & Hl).
    apply linked_trans with s; [done|].
    apply (inv_link _ _ _ Hinv s b Hs Hb Hps).
Qed.

Lemma valley_region_eq :
  valley_region = [(0, 0); (1, 0); (2, 0); (0, 1); (1, 1); (2, 1); (0, 2); (1, 2); (2, 2)].
Proof. reflexivity. Qed.

(** C1 (counterexample).  In the 3 x 3 region with valleys at [(0,0)] and
    [(2,2)] (the goals are exactly the local minima, under both the axis
    and the 8-neighbourhood), [flood_valleys] returns the path
    [(0,0)], [(1,0)], [(2,1)], [(2,2)], whose middle step is diagonal: the
    two goals are not linked by 4-neighbour steps through the result and
    the goals. *)
Theorem flood_valleys_diagonal_cex :
  goals_are_minima axis_neighbors valley_region valley_goals valley_depth = true /\
  goals_are_minima neighbors valley_region valley_goals valley_depth = true /\
  flood_valleys valley_region valley_goals valley_depth = Ok valley_paths /\
  ~ linked axis_neighbors (valley_paths ∪ seeds valley_region valley_goals) (0, 0) (2, 2).
Proof.
  split; [vm_compute; reflexivity|split; [vm_compute; reflexivity|split; [vm_compute; reflexivity|]]].
  intros Hl.
  assert (Hreach : forall y, linked axis_neighbors (valley_paths ∪ seeds valley_region valley_goals) (0, 0) y ->
            y = (0, 0) \/ y = (1, 0)).
  { unfold linked. apply rtc_ind_r; [by left|].
    intros y z _ (_ & Hz & Hn) Hy.
    destruct Hy as [-> | ->]; simpl in Hn;
      repeat (apply elem_of_cons in Hn as [-> | Hn]; [|]);
      try (by apply elem_of_nil in Hn); try (by left); try (by right);
      exfalso; revert Hz; apply bool_decide_eq_false_1; vm_compute; reflexivity. }
  destruct (Hreach _ Hl) as [H | H]; discriminate.
Qed.

(** The amended C1 on the same region: its run, its minima, its
    connectivity and the link between the two goals. *)
Lemma flood_valleys_connects_witness :
  flood_valleys valley_region valley_goals valley_depth = Ok valley_paths /\
  minima_are_goals neighbors valley_region valley_goals valley_depth = true /\
  (forall a b, a ∈ valley_region -> b ∈ valley_region ->
     linked neighbors (list_to_set valley_region) a b) /\
  linked neighbors (valley_paths ∪ seeds valley_region valley_goals) (0, 0) (2, 2).
Proof.
  assert (Hrun : flood_valleys valley_region valley_goals valley_depth = Ok valley_paths)
    by (vm_compute; reflexivity).
  assert (Hmin : minima_are_goals neighbors valley_region valley_goals valley_depth = true)
    by (vm_compute; reflexivity).
  assert (Hhub : forall a, a ∈ valley_region -> linked neighbors (list_to_set valley_region) (1, 1) a).
  { intros a Ha. rewrite valley_region_eq in Ha.
    repeat (apply elem_of_cons in Ha as [-> | Ha]; [|]); [..|by apply elem_of_nil in Ha];
      (reflexivity || (apply linked_step;
        [apply (bool_decide_unpack _); vm_compute; reflexivity
        |apply (bool_decide_unpack _); vm_compute; reflexivity
        |apply list_elem_of_In; vm_compute; tauto])). }
  assert (Hconn : forall a b, a ∈ valley_region -> b ∈ valley_region ->
            linked neighbors (list_to_set valley_region) a b).
  { intros a b Ha Hb. apply linked_trans with (1, 1); [apply linked_sym; by apply Hhub|by apply Hhub]. }
  split; [exact Hrun|split; [exact Hmin|split; [exact Hconn|]]].
  apply (proj2 (flood_valleys_connects valley_region valley_goals valley_depth valley_paths Hrun)
    Hmin Hconn); apply (bool_decide_unpack _); vm_compute; reflexivity.
Defined.

(* ------------------------------------------------------------------ *)
(** ** Further properties: random_normal_int *)
Lemma clamp_range_cases (lb ub r : Z) :
  clamp_range lb ub r = lb \/ clamp_range lb ub r = ub \/ (lb <= clamp_range lb ub r <= ub).
Proof.
  unfold clamp_range. destruct (r <? lb) eqn:H1; [by left|].
  destruct (ub <? r) eqn:H2; [by right; left|right; right; rewrite ?Z.ltb_lt, ?Z.ltb_ge in *; lia].
Qed.

Lemma random_normal_int_run (mu sigma : Q) (s : fstate) :
  exists r s', random_normal_int mu sigma s
    = (Ok (clamp_range (Qceiling (mu - 2 * sigma)) (Qfloor (mu + 2 * sigma)) r), s') /\
    canvas s' = canvas s.
Proof.
  unfold random_normal_int, gauss_int, draw, bind, ret.
  destruct (rng s) as [|r rs]; eauto.
Qed.



(* ------------------------------------------------------------------ *)
(** ** Further properties: Partitioning *)
Lemma randint_draw (a b r : Z) (c : MapCanvas) (rs : list Z) :
  a <= b -> randint a b (mkState c (r :: rs)) = (Ok (a + r mod (b - a + 1)), mkState c rs).
Proof. intros H. unfold randint. destruct (b <? a) eqn:E; [lia|]. reflexivity. Qed.

Lemma randint_total (a b : Z) (s : fstate) :
  a <= b -> exists v s', randint a b s = (Ok v, s') /\ a <= v <= b /\ canvas s' = canvas s.
Proof.
  intros H. destruct (randint a b s) as [[v| |] s'] eqn:E.
  - exists v, s'. split; [done|]. exact (randint_ok _ _ _ _ _ E).
  - revert E. unfold randint. destruct (b <? a) eqn:E'; [lia|].
    unfold bind, draw, ret. destruct (rng s); discriminate.
  - revert E. unfold randint. destruct (b <? a) eqn:E'; [lia|].
    unfold bind, draw, ret. destruct (rng s); discriminate.
Qed.

(** X3.  [partition_horizontal] raises its assertion, leaving the state as
    it was, exactly when the region is less than twice the minimum height
    tall.  Otherwise it splits the region after a row [m]: the upper part
    is at least [min_height] tall, the lower part at least [min_height - 1]
    (the upper end of [randint] is inclusive), both keep the region's
    columns, their heights add up to the region's, and the canvas is left
    as it was. *)
Theorem partition_horizontal_spec (mh : Z) (region : Rectangle) (s : fstate) :
  (r_height region < 2 * mh ->
   partition_horizontal mh region s = (Raise (AssertionError ""), s)) /\
  (2 * mh <= r_height region ->
   exists m s', partition_horizontal mh region s
                = (Ok [replace_bottom region m; replace_top region (m + 1)], s') /\
     canvas s' = canvas s /\
     mh <= r_height (replace_bottom region m) /\
     mh - 1 <= r_height (replace_top region (m + 1)) /\
     r_height (replace_bottom region m) + r_height (replace_top region (m + 1)) = r_height region /\
     r_top (replace_bottom region m) = r_top region /\
     r_bottom (replace_top region (m + 1)) = r_bottom region /\
     r_left (replace_bottom region m) = r_left region /\ r_width (replace_bottom region m) = r_width region /\
     r_left (replace_top region (m + 1)) = r_left region /\ r_width (replace_top region (m + 1)) = r_width region).
Proof.
  unfold partition_horizontal. split.
  - intros H. destruct (_ <=? _) eqn:E; [|reflexivity]. apply Z.leb_le in E.
    unfold r_bottom, r_top in E. lia.
  - intros H. destruct (_ <=? _) eqn:E; [|apply Z.leb_gt in E; unfold r_bottom, r_top in E; lia].
    apply Z.leb_le in E.
    destruct (randint_total (r_top region + mh - 1) (r_bottom region - mh + 1) s ltac:(lia))
      as (m & s' & Hr & Hm & Hc).
    exists m, s'. unfold bind. rewrite Hr. split; [reflexivity|]. split; [exact Hc|].
    destruct region as [ox oy w h].
    unfold replace_bottom, replace_top, from_edges, r_left, r_right, r_top, r_bottom in *; simpl in *.
    repeat split; lia.
Qed.

(** X4.  [partition_vertical] raises its assertion, leaving the state as
    it was, exactly when the region is less than twice the minimum width
    wide.  Otherwise it splits the region after a column [m]: the left
    part is at least [min_width] wide, the right part at least
    [min_width - 1], both keep the region's rows, their widths add up to
    the region's, and the canvas is left as it was. *)
Theorem partition_vertical_spec (mw : Z) (region : Rectangle) (s : fstate) :
  (r_width region < 2 * mw ->
   partition_vertical mw region s = (Raise (AssertionError ""), s)) /\
  (2 * mw <= r_width region ->
   exists m s', partition_vertical mw region s
                = (Ok [replace_right region m; replace_left region (m + 1)], s') /\
     canvas s' = canvas s /\
     mw <= r_width (replace_right region m) /\
     mw - 1 <= r_width (replace_left region (m + 1)) /\
     r_width (replace_right region m) + r_width (replace_left region (m + 1)) = r_width region /\
     r_left (replace_right region m) = r_left region /\
     r_right (replace_left region (m + 1)) = r_right region /\
     r_top (replace_right region m) = r_top region /\ r_height (replace_right region m) = r_height region /\
     r_top (replace_left region (m + 1)) = r_top region /\ r_height (replace_left region (m + 1)) = r_height region).
Proof.
  unfold partition_vertical. split.
  - intros H. destruct (_ <=? _) eqn:E; [|reflexivity]. apply Z.leb_le in E.
    unfold r_right, r_left in E. lia.
  - intros H. destruct (_ <=? _) eqn:E; [|apply Z.leb_gt in E; unfold r_right, r_left in E; lia].
    apply Z.leb_le in E.
    destruct (randint_total (r_left region + mw - 1) (r_right region - mw + 1) s ltac:(lia))
      as (m & s' & Hr & Hm & Hc).
    exists m, s'. unfold bind. rewrite Hr. split; [reflexivity|]. split; [exact Hc|].
    destruct region as [ox oy w h].
    unfold replace_right, replace_left, from_edges, r_left, r_right, r_top, r_bottom in *; simpl in *.
    repeat split; lia.
Qed.

(** X5.  The second part of a split can be one short of the minimum: on a
    region at least twice the minimum tall (wide), the draw
    [height - 2 * min_height + 1] ([width - 2 * min_width + 1]) gives a
    lower (right) part exactly [min_height - 1] tall
    ([min_width - 1] wide). *)
Theorem partition_short_piece (mw mh : Z) (region : Rectangle) (c : MapCanvas) :
  (2 * mh <= r_height region ->
   exists m, partition_horizontal mh region (mkState c [r_height region - 2 * mh + 1])
             = (Ok [replace_bottom region m; replace_top region (m + 1)], mkState c []) /\
     r_height (replace_top region (m + 1)) = mh - 1) /\
  (2 * mw <= r_width region ->
   exists m, partition_vertical mw region (mkState c [r_width region - 2 * mw + 1])
             = (Ok [replace_right region m; replace_left region (m + 1)], mkState c []) /\
     r_width (replace_left region (m + 1)) = mw - 1).
Proof.
  split; intros H.
  - unfold partition_horizontal. destruct (_ <=? _) eqn:E;
      [|apply Z.leb_gt in E; unfold r_bottom, r_top in E; lia].
    unfold bind. rewrite randint_draw by (unfold r_bottom, r_top; lia).
    eexists. split; [reflexivity|].
    rewrite Z.mod_small by (unfold r_bottom, r_top; lia).
    destruct region as [ox oy w h].
    unfold replace_top, from_edges, r_left, r_right, r_top, r_bottom in *; simpl in *. lia.
  - unfold partition_vertical. destruct (_ <=? _) eqn:E;
      [|apply Z.leb_gt in E; unfold r_right, r_left in E; lia].
    unfold bind. rewrite randint_draw by (unfold r_right, r_left; lia).
    eexists. split; [reflexivity|].
    rewrite Z.mod_small by (unfold r_right, r_left; lia).
    destruct region as [ox oy w h].
    unfold replace_left, from_edges, r_left, r_right, r_top, r_bottom in *; simpl in *. lia.
Qed.

Lemma partition_length (mw mh : Z) (r : Rectangle) (s s' : fstate) (l : list Rectangle) :
  partition mw mh r s = (Ok l, s') -> length l = 1%nat \/ length l = 2%nat.
Proof.
  unfold partition, partition_horizontal, partition_vertical.
  destruct (int_truediv _ _); [discriminate|]. destruct (int_truediv _ _); [discriminate|].
  destruct (_ && _); [intros [= <- _]; by left|].
  destruct (Qltb _ _); (destruct (_ <=? _); [|discriminate]);
    intros H; apply bind_inv in H as (m & s1 & _ & [= <- _]); by right.
Qed.

(** [partition] compares the float quotients: the region [1 x (2^54 + 1)]
    with minimum size [1 x (2^53 + 1)] has [rel_height = 2.0] (the exact
    quotient is just below 2), so it is split along its height, where the
    assertion fails. *)
Lemma partition_rounded_quotient :
  partition 1 (2 ^ 53 + 1) (mkRect 0 0 1 (2 ^ 54 + 1)) (mkState (new_canvas 1 1) [])
  = (Raise (AssertionError ""), mkState (new_canvas 1 1) []).
Proof. vm_compute. reflexivity. Qed.

(** [float(2^53 + 1) = float(2^53)]: the region [2^53 x (2^53 + 1)] with
    minimum size [1 x 1] is split vertically. *)
Lemma partition_rounded_tie :
  forall s, partition 1 1 (mkRect 0 0 (2 ^ 53) (2 ^ 53 + 1)) s
            = partition_vertical 1 (mkRect 0 0 (2 ^ 53) (2 ^ 53 + 1)) s.
Proof.
  intros s. unfold partition.
  assert (Eh : int_truediv (r_height (mkRect 0 0 (2 ^ 53) (2 ^ 53 + 1))) 1
               = inr (inject_Z (2 ^ 53))) by (vm_compute; reflexivity).
  assert (Ew : int_truediv (r_width (mkRect 0 0 (2 ^ 53) (2 ^ 53 + 1))) 1
               = inr (inject_Z (2 ^ 53))) by (vm_compute; reflexivity).
  rewrite Eh, Ew.
  assert (Et : Qltb (inject_Z (2 ^ 53)) 2 = false) by (vm_compute; reflexivity).
  assert (Es : Qltb (inject_Z (2 ^ 53)) (inject_Z (2 ^ 53)) = false) by (vm_compute; reflexivity).
  rewrite Et, Es. reflexivity.
Qed.

Lemma insert_by_area_sorted (r : Rectangle) (l : list Rectangle) :
  Sorted (fun a b => r_area b <= r_area a) l ->
  Sorted (fun a b => r_area b <= r_area a) (insert_by_area r l).
Proof.
  induction l as [|x l IH]; intros Hs; simpl; [by repeat constructor|].
  destruct (r_area x <? r_area r) eqn:E.
  - apply Z.ltb_lt in E. constructor; [done|]. constructor. lia.
  - apply Z.ltb_ge in E. apply Sorted_inv in Hs as [Hs Hh].
    constructor; [by apply IH|].
    destruct l as [|y l']; simpl; [constructor; lia|].
    destruct (r_area y <? r_area r); constructor; first [lia | by inversion Hh].
Qed.

Lemma sort_by_area_sorted (l : list Rectangle) :
  Sorted (fun a b => r_area b <= r_area a) (sort_by_area l).
Proof.
  unfold sort_by_area.
  assert (Hg : forall acc, Sorted (fun a b => r_area b <= r_area a) acc ->
            Sorted (fun a b => r_area b <= r_area a) (foldl (fun acc r => insert_by_area r acc) acc l)).
  { induction l as [|x l IH]; intros acc Ha; simpl; [done|]. apply IH, insert_by_area_sorted, Ha. }
  apply Hg. constructor.
Qed.

Lemma partition_loop_seven (mw mh : Z) (fuel : nat) (l : list Rectangle) (s s' : fstate) (rs : list Rectangle) :
  l <> [] -> (length l <= 7)%nat -> Sorted (fun a b => r_area b <= r_area a) l ->
  partition_loop mw mh fuel l s = (Ok rs, s') ->
  length rs = 7%nat /\ Sorted (fun a b => r_area b <= r_area a) rs.
Proof.
  revert l s. induction fuel as [|fuel IH]; intros [|r rest] s Hne Hlen Hs H; [done| |done|];
    simpl in H.
  - destruct (decide _) as [Hlt|Hge]; [discriminate|].
    injection H as <- _. unfold wanted in Hge. simpl in *. split; [lia|done].
  - destruct (decide _) as [Hlt|Hge].
    + apply bind_inv in H as (nl & s1 & Hp & H). apply partition_length in Hp.
      unfold wanted in Hlt. simpl in Hlt.
      apply (IH (sort_by_area (rest ++ nl)) s1); [| |apply sort_by_area_sorted|exact H].
      * intros He. pose proof (f_equal length He) as Hl. rewrite sort_by_area_perm, length_app in Hl.
        simpl in Hl. lia.
      * rewrite sort_by_area_perm, length_app. lia.
    + injection H as <- _. unfold wanted in Hge. simpl in *. split; [lia|done].
Qed.

(** X7.  Whenever [maximally_partition] returns, it returns exactly
    [wanted] = 7 regions, sorted by non-increasing area. *)
Theorem maximally_partition_seven (mw mh : Z) (fuel : nat) (region : Rectangle)
    (s s' : fstate) (rs : list Rectangle) :
  maximally_partition mw mh fuel region s = (Ok rs, s') ->
  length rs = wanted /\ Sorted (fun a b => r_area b <= r_area a) rs.
Proof.
  intros H. apply (partition_loop_seven mw mh fuel [region] s s'); [done|simpl; lia| |exact H].
  repeat constructor.
Qed.

Lemma maximally_partition_seven_witness :
  exists rs s', maximally_partition 5 5 10 (mkRect 0 0 20 20) (mkState (new_canvas 1 1) []) = (Ok rs, s') /\
    length rs = wanted /\ Sorted (fun a b => r_area b <= r_area a) rs.
Proof.
  do 2 eexists. split; [vm_compute; reflexivity|].
  eapply (maximally_partition_seven 5 5 10 (mkRect 0 0 20 20) (mkState (new_canvas 1 1) [])).
  vm_compute. reflexivity.
Defined.

Lemma partition_horizontal_spec_witness :
  (r_height (mkRect 0 0 4 5) < 2 * 3 /\
   partition_horizontal 3 (mkRect 0 0 4 5) (mkState (new_canvas 1 1) [])
   = (Raise (AssertionError ""), mkState (new_canvas 1 1) [])) /\
  (2 * 3 <= r_height (mkRect 0 0 4 8) /\
   exists m s', partition_horizontal 3 (mkRect 0 0 4 8) (mkState (new_canvas 1 1) [5])
                = (Ok [replace_bottom (mkRect 0 0 4 8) m; replace_top (mkRect 0 0 4 8) (m + 1)], s') /\
     3 <= r_height (replace_bottom (mkRect 0 0 4 8) m)).
Proof.
  assert (H1 : r_height (mkRect 0 0 4 5) < 2 * 3) by (simpl; lia).
  assert (H2 : 2 * 3 <= r_height (mkRect 0 0 4 8)) by (simpl; lia).
  split; [split; [exact H1|exact (proj1 (partition_horizontal_spec 3 _ _) H1)]|].
  split; [exact H2|].
  destruct (proj2 (partition_horizontal_spec 3 (mkRect 0 0 4 8) (mkState (new_canvas 1 1) [5])) H2)
    as (m & s' & E & _ & Hm & _).
  exists m, s'. split; [exact E|exact Hm].
Defined.

Lemma partition_vertical_spec_witness :
  (r_width (mkRect 0 0 5 4) < 2 * 3 /\
   partition_vertical 3 (mkRect 0 0 5 4) (mkState (new_canvas 1 1) [])
   = (Raise (AssertionError ""), mkState (new_canvas 1 1) [])) /\
  (2 * 3 <= r_width (mkRect 0 0 8 4) /\
   exists m s', partition_vertical 3 (mkRect 0 0 8 4) (mkState (new_canvas 1 1) [5])
                = (Ok [replace_right (mkRect 0 0 8 4) m; replace_left (mkRect 0 0 8 4) (m + 1)], s') /\
     3 <= r_width (replace_right (mkRect 0 0 8 4) m)).
Proof.
  assert (H1 : r_width (mkRect 0 0 5 4) < 2 * 3) by (simpl; lia).
  assert (H2 : 2 * 3 <= r_width (mkRect 0 0 8 4)) by (simpl; lia).
  split; [split; [exact H1|exact (proj1 (partition_vertical_spec 3 _ _) H1)]|].
  split; [exact H2|].
  destruct (proj2 (partition_vertical_spec 3 (mkRect 0 0 8 4) (mkState (new_canvas 1 1) [5])) H2)
    as (m & s' & E & _ & Hm & _).
  exists m, s'. split; [exact E|exact Hm].
Defined.

Lemma partition_short_piece_witness :
  2 * 3 <= r_height (mkRect 0 0 4 8) /\ 2 * 3 <= r_width (mkRect 0 0 8 4) /\
  (exists m, partition_horizontal 3 (mkRect 0 0 4 8)
               (mkState (new_canvas 1 1) [r_height (mkRect 0 0 4 8) - 2 * 3 + 1])
             = (Ok [replace_bottom (mkRect 0 0 4 8) m; replace_top (mkRect 0 0 4 8) (m + 1)],
                mkState (new_canvas 1 1) []) /\
     r_height (replace_top (mkRect 0 0 4 8) (m + 1)) = 2) /\
  (exists m, partition_vertical 3 (mkRect 0 0 8 4)
               (mkState (new_canvas 1 1) [r_width (mkRect 0 0 8 4) - 2 * 3 + 1])
             = (Ok [replace_right (mkRect 0 0 8 4) m; replace_left (mkRect 0 0 8 4) (m + 1)],
                mkState (new_canvas 1 1) []) /\
     r_width (replace_left (mkRect 0 0 8 4) (m + 1)) = 2).
Proof.
  assert (H1 : 2 * 3 <= r_height (mkRect 0 0 4 8)) by (simpl; lia).
  assert (H2 : 2 * 3 <= r_width (mkRect 0 0 8 4)) by (simpl; lia).
  split; [exact H1|]. split; [exact H2|]. split.
  - exact (proj1 (partition_short_piece 3 3 (mkRect 0 0 4 8) (new_canvas 1 1)) H1).
  - exact (proj2 (partition_short_piece 3 3 (mkRect 0 0 8 4) (new_canvas 1 1)) H2).
Defined.

(* ------------------------------------------------------------------ *)
(** ** Further properties: Rooms *)
Lemma random_normal_range_run (lb ub : Z) (s : fstate) :
  exists r s', random_normal_range lb ub s = (Ok (clamp_range lb ub r), s') /\ canvas s' = canvas s.
Proof.
  unfold random_normal_range, gauss_int, draw, bind, ret.
  destruct (rng s) as [|r rs]; eauto.
Qed.

Lemma room_randomize_ok (region : Rectangle) (s s' : fstate) (room : Rectangle) :
  room_randomize region s = (Ok room, s') ->
  rect_inb room region = true /\
  Z.min 5 (r_width region) <= r_width room <= r_width region /\
  Z.min 5 (r_height region) <= r_height room <= r_height region /\
  canvas s' = canvas s.
Proof.
  unfold room_randomize. intros H.
  apply bind_inv in H as (w & s1 & Hw & H). apply bind_inv in H as (h & s2 & Hh & H).
  apply bind_inv in H as (dl & s3 & Hdl & H). apply bind_inv in H as (dt & s4 & Hdt & [= <- <-]).
  destruct (random_normal_range_run 5 (r_width region) s) as (rw & s1' & Ew & Cw).
  rewrite Hw in Ew. injection Ew as -> <-.
  destruct (random_normal_range_run 5 (r_height region) s1) as (rh & s2' & Eh & Ch).
  rewrite Hh in Eh. injection Eh as -> <-.
  apply randint_ok in Hdl as [Hdl C3]. apply randint_ok in Hdt as [Hdt C4].
  pose proof (clamp_range_cases 5 (r_width region) rw).
  pose proof (clamp_range_cases 5 (r_height region) rh).
  split; [|split; [simpl; lia|split; [simpl; lia|congruence]]].
  unfold rect_inb, r_left, r_right, r_top, r_bottom; simpl.
  rewrite !andb_true_iff, !Z.leb_le. unfold r_left, r_top in *. lia.
Qed.

(** X8.  Whenever [Room.randomize(region)] returns a room, the room lies
    within the region, and in each dimension it is at least 5 (at least
    the region's own size when that is smaller) and at most the region's
    size; the canvas is left as it was. *)
Theorem room_randomize_within (region : Rectangle) (s s' : fstate) (room : Rectangle) :
  room_randomize region s = (Ok room, s') ->
  rect_inb room region = true /\
  Z.min 5 (r_width region) <= r_width room <= r_width region /\
  Z.min 5 (r_height region) <= r_height room <= r_height region /\
  canvas s' = canvas s.
Proof. apply room_randomize_ok. Qed.

Lemma room_randomize_within_witness :
  exists room s', room_randomize (mkRect 2 3 9 7) (mkState (new_canvas 1 1) [6; 12; 3; 1]) = (Ok room, s') /\
  rect_inb room (mkRect 2 3 9 7) = true /\
  Z.min 5 (r_width (mkRect 2 3 9 7)) <= r_width room <= r_width (mkRect 2 3 9 7) /\
  Z.min 5 (r_height (mkRect 2 3 9 7)) <= r_height room <= r_height (mkRect 2 3 9 7) /\
  canvas s' = canvas (mkState (new_canvas 1 1) [6; 12; 3; 1]).
Proof.
  do 2 eexists. split; [vm_compute; reflexivity|].
  apply (room_randomize_within (mkRect 2 3 9 7) (mkState (new_canvas 1 1) [6; 12; 3; 1])).
  vm_compute. reflexivity.
Defined.

Lemma room_randomize_total (region : Rectangle) (s : fstate) :
  5 <= r_width region -> 5 <= r_height region ->
  exists room s', room_randomize region s = (Ok room, s').
Proof.
  intros Hw Hh. unfold room_randomize.
  destruct (random_normal_range_run 5 (r_width region) s) as (rw & s1 & Ew & _).
  destruct (random_normal_range_run 5 (r_height region) s1) as (rh & s2 & Eh & _).
  pose proof (clamp_range_bounds 5 (r_width region) rw Hw).
  pose proof (clamp_range_bounds 5 (r_height region) rh Hh).
  destruct (randint_total 0 (r_width region - clamp_range 5 (r_width region) rw) s2 ltac:(lia))
    as (dl & s3 & Edl & _).
  destruct (randint_total 0 (r_height region - clamp_range 5 (r_height region) rh) s3 ltac:(lia))
    as (dt & s4 & Edt & _).
  do 2 eexists. unfold bind at 1. rewrite Ew. unfold bind at 1. rewrite Eh.
  unfold bind at 1. rewrite Edl. unfold bind at 1. rewrite Edt. reflexivity.
Qed.

Lemma m_set_architecture_eq (p : point) (v : placeable) (s : fstate) :
  m_set_architecture p v s = (Ok tt, mkState (set_architecture (canvas s) p v) (rng s)).
Proof. reflexivity. Qed.

Lemma m_iter_ext {A} (f g : A -> M unit) (l : list A) (s : fstate) :
  (forall x s, f x s = g x s) -> m_iter f l s = m_iter g l s.
Proof.
  intros Hfg. revert s. induction l as [|x l IH]; intros s; simpl; [done|].
  unfold bind. rewrite Hfg. destruct (g x s) as [[]s1]; [apply IH|done|done].
Qed.

Lemma m_iter_set_architecture (g : point -> placeable) (l : list point) (s : fstate) :
  m_iter (fun p => m_set_architecture p (g p)) l s
  = (Ok tt, mkState (foldl (fun c p => set_architecture c p (g p)) (canvas s) l) (rng s)).
Proof.
  revert s. induction l as [|x l IH]; intros [c rs]; simpl; [done|].
  unfold bind. rewrite m_set_architecture_eq. apply IH.
Qed.

Lemma foldl_set_architecture (g : point -> placeable) (l : list point) (c : MapCanvas) :
  let c' := foldl (fun c p => set_architecture c p (g p)) c l in
  rect c' = rect c /\ item_grid c' = item_grid c /\ creature_grid c' = creature_grid c /\
  (forall p, arch_grid c' !! p = if decide (p ∈ l) then Some (g p) else arch_grid c !! p) /\
  (forall p, p ∈ floor_spaces c' <->
             if decide (p ∈ l) then is_emptyb (ptype (g p)) = true else p ∈ floor_spaces c).
Proof.
  revert c. induction l as [|x l IH]; intros c; cbn [foldl].
  - split; [done|split; [done|split; [done|split]]].
    + intros p. by rewrite decide_False by (by intros H%elem_of_nil).
    + intros p. by rewrite decide_False by (by intros H%elem_of_nil).
  - destruct (IH (set_architecture c x (g x))) as (H1 & H2 & H3 & H4 & H5).
    split; [done|split; [done|split; [done|split]]].
    + intros p. rewrite H4. cbn [arch_grid set_architecture].
      destruct (decide (p ∈ l)); [rewrite decide_True by (by right); done|].
      destruct (decide (p = x)) as [->|Hne].
      * rewrite decide_True by (by left). by rewrite lookup_insert_eq.
      * rewrite decide_False by (intros [|]%elem_of_cons; done). by rewrite lookup_insert_ne by congruence.
    + intros p. rewrite H5. cbn [floor_spaces set_architecture].
      destruct (decide (p ∈ l)); [rewrite decide_True by (by right); done|].
      destruct (decide (p = x)) as [->|Hne].
      * rewrite decide_True by (by left).
        destruct (is_emptyb (ptype (g x))); set_solver.
      * rewrite decide_False by (intros [|]%elem_of_cons; done).
        destruct (is_emptyb (ptype (g x))); set_solver.
Qed.

Lemma elem_of_iter_border (r : Rectangle) (p : point) :
  p ∈ iter_border r <-> in_rectb r p = true /\ on_borderb r p = true.
Proof.
  unfold iter_border. rewrite list_elem_of_filter, elem_of_iter_points, in_rectb_spec. tauto.
Qed.

Lemma draw_to_canvas_run (room : Rectangle) (s : fstate) :
  rect_inb room (rect (canvas s)) = true ->
  exists c', draw_to_canvas room s = (Ok tt, mkState c' (rng s)) /\
    rect c' = rect (canvas s) /\ item_grid c' = item_grid (canvas s) /\
    creature_grid c' = creature_grid (canvas s) /\
    (forall p, arch_grid c' !! p =
       if in_rectb room p then Some (Bare (if on_borderb room p then Wall else Floor))
       else arch_grid (canvas s) !! p) /\
    (forall p, p ∈ floor_spaces c' <->
       if in_rectb room p then on_borderb room p = false else p ∈ floor_spaces (canvas s)).
Proof.
  intros Hin. unfold draw_to_canvas, bind at 1, get_canvas. rewrite Hin.
  unfold bind at 1.
  rewrite (m_iter_set_architecture (fun _ => Bare Floor)).
  rewrite (m_iter_set_architecture (fun _ => Bare Wall)). simpl.
  set (c1 := foldl (fun c p => set_architecture c p (Bare Floor)) (canvas s) (iter_points room)).
  destruct (foldl_set_architecture (fun _ => Bare Floor) (iter_points room) (canvas s))
    as (A1 & A2 & A3 & A4 & A5). fold c1 in A1, A2, A3, A4, A5.
  destruct (foldl_set_architecture (fun _ => Bare Wall) (iter_border room) c1)
    as (B1 & B2 & B3 & B4 & B5).
  eexists. split; [reflexivity|].
  split; [congruence|split; [congruence|split; [congruence|split]]].
  - intros p. rewrite B4, A4.
    pose proof (elem_of_iter_border room p) as Eb. pose proof (elem_of_iter_points room p) as Ep.
    rewrite <- in_rectb_spec in Ep. revert Eb Ep.
    destruct (in_rectb room p), (on_borderb room p); intros Eb Ep; simpl;
      repeat case_decide; intuition congruence.
  - intros p. pose proof (B5 p) as E1. pose proof (A5 p) as E2.
    pose proof (elem_of_iter_border room p) as Eb. pose proof (elem_of_iter_points room p) as Ep.
    rewrite <- in_rectb_spec in Ep. revert E1 E2 Eb Ep.
    destruct (decide (p ∈ iter_border room)), (decide (p ∈ iter_points room));
    destruct (in_rectb room p), (on_borderb room p); cbn [ptype]; change (is_emptyb Wall) with false; change (is_emptyb Floor) with true; intuition congruence.
Qed.

(** X10.  [Room.draw_to_canvas] raises its assertion, leaving the state as
    it was, on a room not within the canvas.  On a room within it, it
    returns without drawing from the random source: the room's border
    points become [Wall], its other points [Floor], every point outside
    the room keeps its tile; the items, creatures and rectangle are kept;
    and the walkable set becomes the room's inner points together with
    the walkable points outside the room. *)
Theorem draw_to_canvas_spec (room : Rectangle) (s : fstate) :
  (rect_inb room (rect (canvas s)) = false ->
   draw_to_canvas room s = (Raise (AssertionError ""), s)) /\
  (rect_inb room (rect (canvas s)) = true ->
   exists c', draw_to_canvas room s = (Ok tt, mkState c' (rng s)) /\
     rect c' = rect (canvas s) /\ item_grid c' = item_grid (canvas s) /\
     creature_grid c' = creature_grid (canvas s) /\
     (forall p, arch_grid c' !! p =
        if in_rectb room p then Some (Bare (if on_borderb room p then Wall else Floor))
        else arch_grid (canvas s) !! p) /\
     (forall p, p ∈ floor_spaces c' <->
        if in_rectb room p then on_borderb room p = false else p ∈ floor_spaces (canvas s))).
Proof.
  split; [|apply draw_to_canvas_run].
  intros Hout. unfold draw_to_canvas, bind at 1, get_canvas. by rewrite Hout.
Qed.

Lemma rect_inb_trans (a b c : Rectangle) :
  rect_inb a b = true -> rect_inb b c = true -> rect_inb a c = true.
Proof. unfold rect_inb. rewrite !andb_true_iff, !Z.leb_le. lia. Qed.

(** X11.  [Fractor.generate_room(region)] on a region of at least 5 by 5
    within the canvas always returns: it draws a room of at least 5 by 5
    within the region (border [Wall], inside [Floor]), and every point
    outside the room keeps its tile, with the items, creatures and
    rectangle unchanged. *)
Theorem generate_room_spec (region : Rectangle) (s : fstate) :
  5 <= r_width region -> 5 <= r_height region -> rect_inb region (rect (canvas s)) = true ->
  exists room c' rs', generate_room region s = (Ok tt, mkState c' rs') /\
    rect_inb room region = true /\ 5 <= r_width room /\ 5 <= r_height room /\
    (forall p, arch_grid c' !! p =
       if in_rectb room p then Some (Bare (if on_borderb room p then Wall else Floor))
       else arch_grid (canvas s) !! p) /\
    item_grid c' = item_grid (canvas s) /\ creature_grid c' = creature_grid (canvas s) /\
    rect c' = rect (canvas s).
Proof.
  intros Hw Hh Hin.
  destruct (room_randomize_total region s Hw Hh) as (room & s1 & Hr).
  destruct (room_randomize_ok region s s1 room Hr) as (Hrin & Hrw & Hrh & Hc).
  assert (Hin1 : rect_inb room (rect (canvas s1)) = true).
  { rewrite Hc. exact (rect_inb_trans _ _ _ Hrin Hin). }
  destruct (draw_to_canvas_run room s1 Hin1) as (c' & Hd & H1 & H2 & H3 & H4 & _).
  exists room, c', (rng s1). unfold generate_room, bind. rewrite Hr, Hd.
  split; [done|]. split; [done|]. split; [lia|]. split; [lia|].
  rewrite <- Hc. auto.
Qed.

Lemma generate_room_spec_witness :
  5 <= r_width (mkRect 1 1 8 7) /\ 5 <= r_height (mkRect 1 1 8 7) /\
  rect_inb (mkRect 1 1 8 7) (rect (canvas (mkState (new_canvas 10 10) [6; 5; 2; 1]))) = true /\
  exists room c' rs', generate_room (mkRect 1 1 8 7) (mkState (new_canvas 10 10) [6; 5; 2; 1])
      = (Ok tt, mkState c' rs') /\
    rect_inb room (mkRect 1 1 8 7) = true /\ 5 <= r_width room /\ 5 <= r_height room /\
    (forall p, arch_grid c' !! p =
       if in_rectb room p then Some (Bare (if on_borderb room p then Wall else Floor))
       else arch_grid (canvas (mkState (new_canvas 10 10) [6; 5; 2; 1])) !! p) /\
    item_grid c' = item_grid (canvas (mkState (new_canvas 10 10) [6; 5; 2; 1])) /\
    creature_grid c' = creature_grid (canvas (mkState (new_canvas 10 10) [6; 5; 2; 1])) /\
    rect c' = rect (canvas (mkState (new_canvas 10 10) [6; 5; 2; 1])).
Proof.
  assert (H1 : 5 <= r_width (mkRect 1 1 8 7)) by (simpl; lia).
  assert (H2 : 5 <= r_height (mkRect 1 1 8 7)) by (simpl; lia).
  assert (H3 : rect_inb (mkRect 1 1 8 7) (rect (canvas (mkState (new_canvas 10 10) [6; 5; 2; 1]))) = true)
    by reflexivity.
  split; [exact H1|]. split; [exact H2|]. split; [exact H3|].
  exact (generate_room_spec _ _ H1 H2 H3).
Defined.

Lemma draw_to_canvas_spec_witness :
  (rect_inb (mkRect 3 3 4 4) (rect (canvas (mkState (new_canvas 5 5) []))) = false /\
   draw_to_canvas (mkRect 3 3 4 4) (mkState (new_canvas 5 5) [])
   = (Raise (AssertionError ""), mkState (new_canvas 5 5) [])) /\
  (rect_inb (mkRect 1 1 3 3) (rect (canvas (mkState (new_canvas 5 5) []))) = true /\
   exists c', draw_to_canvas (mkRect 1 1 3 3) (mkState (new_canvas 5 5) []) = (Ok tt, mkState c' []) /\
     arch_grid c' !! (2, 2) = Some (Bare Floor) /\ arch_grid c' !! (1, 2) = Some (Bare Wall) /\
     arch_grid c' !! (0, 0) = Some (Bare CaveWall)).
Proof.
  assert (H1 : rect_inb (mkRect 3 3 4 4) (rect (canvas (mkState (new_canvas 5 5) []))) = false)
    by reflexivity.
  assert (H2 : rect_inb (mkRect 1 1 3 3) (rect (canvas (mkState (new_canvas 5 5) []))) = true)
    by reflexivity.
  split; [split; [exact H1|exact (proj1 (draw_to_canvas_spec _ _) H1)]|].
  split; [exact H2|].
  destruct (proj2 (draw_to_canvas_spec (mkRect 1 1 3 3) (mkState (new_canvas 5 5) [])) H2)
    as (c' & E & _ & _ & _ & Ha & _).
  exists c'. split; [exact E|].
  rewrite !Ha. split; [|split]; vm_compute; reflexivity.
Defined.

(* ------------------------------------------------------------------ *)
(** ** Further properties: The canvas *)
Lemma filter_all {A} (P : A -> Prop) `{forall x, Decision (P x)} (l : list A) :
  (forall x, x ∈ l -> P x) -> filter P l = l.
Proof.
  induction l as [|x l IH]; intros Ha; [done|]. rewrite filter_cons.
  rewrite decide_True by (apply Ha; by left). f_equal. apply IH. intros y Hy. apply Ha. by right.
Qed.

Local Ltac side_fst :=
  let x := fresh "x" in let Hx := fresh "Hx" in
  intros x Hx;
  first [ apply list_elem_of_singleton in Hx; by subst
        | apply list_elem_of_fmap in Hx as (? & -> & _); done
        | match goal with cr : option entity_type |- _ => destruct cr end;
          [apply list_elem_of_singleton in Hx; by subst|by apply elem_of_nil in Hx] ].

Lemma to_map_points_entries (c : MapCanvas) (pts : list point) :
  NoDup pts ->
  (forall p, p ∈ pts -> is_Some (arch_grid c !! p) /\ is_Some (item_grid c !! p) /\
                        is_Some (creature_grid c !! p)) ->
  exists m, to_map_points c pts = Ok m /\
  forall p, filter (fun e : point * placeable => fst e = p) m =
    if decide (p ∈ pts) then
      match arch_grid c !! p, item_grid c !! p, creature_grid c !! p with
      | Some a, Some items, Some cr =>
          [(p, maybe_create a)] ++ map (fun t => (p, maybe_create (Bare t))) items ++
          match cr with Some t => [(p, maybe_create (Bare t))] | None => [] end
      | _, _, _ => []
      end
    else [].
Proof.
  unfold Map. induction 1 as [|q pts Hq Hnd IH]; intros Hs.
  - exists []. split; [done|]. intros p. rewrite decide_False by (by intros ?%elem_of_nil). done.
  - destruct (IH (fun p Hp => Hs p ltac:(by right))) as (m & Hm & Hf).
    destruct (Hs q ltac:(by left)) as ([a Ha] & [items Hi] & [cr Hc]).
    cbn [to_map_points]. rewrite Ha, Hi, Hc, Hm.
    cbv beta iota. eexists. split; [reflexivity|]. intros p.
    rewrite !filter_app, Hf.
    destruct (decide (q = p)) as [<-|Hne].
    + rewrite (decide_False (P := q ∈ pts)) by done. rewrite (decide_True (P := q ∈ q :: pts)) by (by left).
      rewrite Ha, Hi, Hc, app_nil_r, !filter_all; [done|..]; side_fst.
    + rewrite !filter_none; [|side_fst..].
      simpl. destruct (decide (p ∈ pts)) as [Hp|Hp].
      * rewrite (decide_True (P := p ∈ q :: pts)) by (by right). done.
      * rewrite (decide_False (P := p ∈ q :: pts)); [done|]. intros [->|?]%elem_of_cons; done.
Qed.

(** X12.  On a well-formed canvas [MapCanvas.to_map()] returns a map, and
    the entries it places at a point of the rectangle are, in order, the
    (instantiated) architecture tile, the point's items in list order, and
    its creature if there is one; it places nothing at a point outside the
    rectangle. *)
Theorem to_map_entries (c : MapCanvas) :
  canvas_wf c ->
  exists m, to_map c = Ok m /\
    (forall p a items cr,
       arch_grid c !! p = Some a -> item_grid c !! p = Some items -> creature_grid c !! p = Some cr ->
       filter (fun e : point * placeable => fst e = p) m =
         [(p, maybe_create a)] ++ map (fun t => (p, maybe_create (Bare t))) items ++
         match cr with Some t => [(p, maybe_create (Bare t))] | None => [] end) /\
    (forall p, ~ in_rect (rect c) p -> filter (fun e : point * placeable => fst e = p) m = []).
Proof.
  intros (Ha & Hi & Hc & _).
  assert (Hdom : forall p, p ∈ iter_points (rect c) ->
            is_Some (arch_grid c !! p) /\ is_Some (item_grid c !! p) /\ is_Some (creature_grid c !! p)).
  { intros p Hp. rewrite <- !elem_of_dom, Ha, Hi, Hc.
    unfold rect_points. rewrite elem_of_list_to_set. done. }
  destruct (to_map_points_entries c (iter_points (rect c)) (NoDup_iter_points _) Hdom) as (m & Hm & Hf).
  exists m. split; [exact Hm|]. split.
  - intros p a items cr Hpa Hpi Hpc. rewrite Hf, Hpa, Hpi, Hpc.
    rewrite decide_True; [done|].
    apply point_in_rect_points. rewrite <- Ha. apply elem_of_dom. by exists a.
  - intros p Hp. rewrite Hf. rewrite decide_False; [done|]. by rewrite elem_of_iter_points.
Qed.

Lemma to_map_points_missing (c : MapCanvas) (pts : list point) :
  (exists p, p ∈ pts /\
     (arch_grid c !! p = None \/ item_grid c !! p = None \/ creature_grid c !! p = None)) ->
  to_map_points c pts = Raise KeyError.
Proof.
  induction pts as [|q pts IH]; intros (p & Hp & Hn); [by apply elem_of_nil in Hp|].
  cbn [to_map_points].
  destruct (arch_grid c !! q) as [a|] eqn:Ha; [|done].
  destruct (item_grid c !! q) as [items|] eqn:Hi; [|done].
  destruct (creature_grid c !! q) as [cr|] eqn:Hc; [|done].
  apply elem_of_cons in Hp as [->|Hp].
  - exfalso. rewrite Ha, Hi, Hc in Hn. destruct Hn as [?|[?|?]]; discriminate.
  - rewrite IH; [done|]. eauto.
Qed.

(** X13.  [MapCanvas.to_map()] raises KeyError when some point of the
    rectangle is missing from the architecture, item or creature grid. *)
Theorem to_map_missing_key (c : MapCanvas) (p : point) :
  in_rect (rect c) p ->
  arch_grid c !! p = None \/ item_grid c !! p = None \/ creature_grid c !! p = None ->
  to_map c = Raise KeyError.
Proof.
  intros Hp Hn. apply to_map_points_missing. exists p. split; [by apply elem_of_iter_points|done].
Qed.

(** X14.  Two architecture writes at the same point leave the second one
    (the first is forgotten, in the grid and in the walkable set), and
    writes at two different points commute. *)
Theorem set_architecture_overwrite_commute (c : MapCanvas) (p q : point) (v w : placeable) :
  set_architecture (set_architecture c p v) p w = set_architecture c p w /\
  (p <> q ->
   set_architecture (set_architecture c p v) q w = set_architecture (set_architecture c q w) p v).
Proof.
  unfold set_architecture; simpl. split.
  - rewrite insert_insert_eq. f_equal. apply set_eq. intros x.
    destruct (decide (x = p)), (is_emptyb (ptype v)), (is_emptyb (ptype w)); set_solver.
  - intros Hpq. rewrite insert_insert_ne by congruence. f_equal. apply set_eq. intros x.
    destruct (decide (x = p)), (decide (x = q)), (is_emptyb (ptype v)), (is_emptyb (ptype w));
      set_solver.
Qed.

Lemma set_architecture_overwrite_commute_witness :
  (0, 0) <> (1, 0) /\
  set_architecture (set_architecture (new_canvas 2 2) (0, 0) (Bare Floor)) (1, 0) (Bare Wall)
  = set_architecture (set_architecture (new_canvas 2 2) (1, 0) (Bare Wall)) (0, 0) (Bare Floor).
Proof.
  assert (H : ((0, 0) : point) <> (1, 0)) by discriminate.
  split; [exact H|].
  exact (proj2 (set_architecture_overwrite_commute (new_canvas 2 2) (0, 0) (1, 0) (Bare Floor) (Bare Wall)) H).
Defined.

(** X15.  [MapCanvas.clear(tile)] writes the tile at every point of the
    rectangle and leaves every other point's tile, the items and the
    creatures as they were; for an entity type the walkable set becomes
    the whole rectangle or nothing, by the type's physics; for a
    configured entity it raises AttributeError after the writes, with the
    walkable set left as it was. *)
Theorem clear_spec (c : MapCanvas) (v : placeable) :
  (forall p, arch_grid (snd (clear c v)) !! p = if in_rectb (rect c) p then Some v else arch_grid c !! p) /\
  rect (snd (clear c v)) = rect c /\
  item_grid (snd (clear c v)) = item_grid c /\ creature_grid (snd (clear c v)) = creature_grid c /\
  match v with
  | Bare t => fst (clear c v) = Ok tt /\
              floor_spaces (snd (clear c v)) = if is_emptyb t then rect_points (rect c) else ∅
  | Inst _ _ => fst (clear c v) = Raise AttributeError /\ floor_spaces (snd (clear c v)) = floor_spaces c
  end.
Proof.
  assert (Ha : forall p, foldl (fun g q => <[q := v]> g) (arch_grid c) (iter_points (rect c)) !! p
                 = if in_rectb (rect c) p then Some v else arch_grid c !! p).
  { intros p. rewrite lookup_foldl_insert.
    destruct (in_rectb (rect c) p) eqn:E; case_decide as H; try done.
    - exfalso. apply H, elem_of_iter_points, in_rectb_spec, E.
    - apply elem_of_iter_points, in_rectb_spec in H. congruence. }
  unfold clear. destruct v as [t|t d]; simpl; (split; [exact Ha|]); repeat split.
Qed.

Lemma to_map_entries_witness :
  canvas_wf (new_canvas 2 2) /\
  exists m, to_map (new_canvas 2 2) = Ok m /\
    filter (fun e : point * placeable => fst e = (0, 0)) m = [((0, 0), maybe_create (Bare CaveWall))] /\
    filter (fun e : point * placeable => fst e = (2, 0)) m = [].
Proof.
  assert (Hw := new_canvas_wf 2 2).
  split; [exact Hw|].
  destruct (to_map_entries (new_canvas 2 2) Hw) as (m & E & Hin & Hout).
  exists m. split; [exact E|]. split.
  - rewrite (Hin (0, 0) (Bare CaveWall) [] None); [reflexivity|vm_compute; reflexivity..].
  - apply Hout. unfold in_rect, r_left, r_right, r_top, r_bottom, px, py; simpl. lia.
Defined.

Lemma to_map_missing_key_witness :
  in_rect (rect (mkCanvas (mkRect 0 0 2 2) (delete (0, 0) (arch_grid (new_canvas 2 2)))
                  (item_grid (new_canvas 2 2)) (creature_grid (new_canvas 2 2)) ∅)) (0, 0) /\
  arch_grid (mkCanvas (mkRect 0 0 2 2) (delete (0, 0) (arch_grid (new_canvas 2 2)))
               (item_grid (new_canvas 2 2)) (creature_grid (new_canvas 2 2)) ∅) !! (0, 0) = None /\
  to_map (mkCanvas (mkRect 0 0 2 2) (delete (0, 0) (arch_grid (new_canvas 2 2)))
            (item_grid (new_canvas 2 2)) (creature_grid (new_canvas 2 2)) ∅) = Raise KeyError.
Proof.
  assert (Hp : in_rect (rect (mkCanvas (mkRect 0 0 2 2) (delete (0, 0) (arch_grid (new_canvas 2 2)))
                  (item_grid (new_canvas 2 2)) (creature_grid (new_canvas 2 2)) ∅)) (0, 0)).
  { unfold in_rect, r_left, r_right, r_top, r_bottom, px, py; simpl. lia. }
  assert (Hn : arch_grid (mkCanvas (mkRect 0 0 2 2) (delete (0, 0) (arch_grid (new_canvas 2 2)))
               (item_grid (new_canvas 2 2)) (creature_grid (new_canvas 2 2)) ∅) !! (0, 0) = None).
  { simpl. apply lookup_delete_eq. }
  split; [exact Hp|]. split; [exact Hn|].
  exact (to_map_missing_key _ (0, 0) Hp (or_introl Hn)).
Defined.

(* ------------------------------------------------------------------ *)
(** ** Further properties: Portals and caves *)
Lemma choice_total {A} (l : list A) (s : fstate) :
  l <> [] -> exists x s', choice l s = (Ok x, s').
Proof.
  destruct l as [|y l]; [done|]. intros _. unfold choice, randbelow, bind, draw, ret.
  destruct (rng s); eauto.
Qed.

(** X16.  When the walkable set is not empty, [Fractor.place_portal]
    always returns: it writes the portal instance (with its destination)
    at one walkable point and changes no other tile, item or creature;
    the point stays walkable for a non-solid portal type and leaves the
    walkable set otherwise. *)
Theorem place_portal_spec (T : entity_type) (d : Z) (s : fstate) :
  floor_spaces (canvas s) <> ∅ ->
  exists p s', place_portal T d s = (Ok tt, s') /\ p ∈ floor_spaces (canvas s) /\
    arch_grid (canvas s') = <[p := Inst T (Some d)]> (arch_grid (canvas s)) /\
    item_grid (canvas s') = item_grid (canvas s) /\
    creature_grid (canvas s') = creature_grid (canvas s) /\ rect (canvas s') = rect (canvas s) /\
    floor_spaces (canvas s') =
      if is_emptyb T then floor_spaces (canvas s) else floor_spaces (canvas s) ∖ {[p]}.
Proof.
  intros Hne.
  assert (Hel : elements (floor_spaces (canvas s)) <> []).
  { intros He. apply Hne. apply leibniz_equiv_iff. by apply elements_empty_iff. }
  destruct (choice_total _ s Hel) as (p & s1 & Hc).
  destruct (choice_ok _ _ _ _ Hc) as [Hp Hs1]. apply elem_of_elements in Hp.
  exists p, (mkState (set_architecture (canvas s1) p (Inst T (Some d))) (rng s1)).
  unfold place_portal, bind at 1, get_canvas. rewrite decide_False by done.
  unfold bind. rewrite Hc. split; [reflexivity|]. rewrite Hs1. simpl.
  split; [done|]. do 4 (split; [done|]).
  destruct (is_emptyb T); [|done]. apply set_eq. intros x.
  destruct (decide (x = p)) as [->|]; set_solver.
Qed.

Lemma random_grid_ok (pts : list point) (g : gmap point bool) (s : fstate) :
  exists g' rs, random_grid pts g s = (Ok g', mkState (canvas s) rs).
Proof.
  revert g s. induction pts as [|p pts IH]; intros g [c rs]; simpl.
  - eauto.
  - unfold bind at 1, random_below_040, bind at 1, draw, ret. simpl.
    destruct rs as [|r rs]; apply IH.
Qed.

(** X17.  [generate_caves] always returns, and it writes only the region:
    each point of the region gets [wall_tile] or [CaveFloor], every other
    point keeps its tile, the items, creatures and rectangle are kept; a
    point of the region is walkable exactly when the tile it got is not
    solid, and the walkable set is unchanged outside the region. *)
Theorem generate_caves_spec (region : list point) (wall_tile : placeable) (fw ff : list point) (s : fstate) :
  exists c' rs', generate_caves region wall_tile fw ff s = (Ok tt, mkState c' rs') /\
    rect c' = rect (canvas s) /\ item_grid c' = item_grid (canvas s) /\
    creature_grid c' = creature_grid (canvas s) /\
    (forall p, p ∈ region ->
       arch_grid c' !! p = Some wall_tile \/ arch_grid c' !! p = Some (Bare CaveFloor)) /\
    (forall p, p ∉ region -> arch_grid c' !! p = arch_grid (canvas s) !! p) /\
    (forall p, p ∈ floor_spaces c' <->
       if decide (p ∈ region)
       then exists v, arch_grid c' !! p = Some v /\ is_emptyb (ptype v) = true
       else p ∈ floor_spaces (canvas s)).
Proof.
  unfold generate_caves, caves_grid_after, bind at 1, bind at 1.
  destruct (random_grid_ok region ∅ s) as (g0 & rs0 & Hg). rewrite Hg. unfold ret.
  set (grid := caves_steps 5 region (caves_base_grid fw ff) (caves_base_grid fw ff ∪ g0)).
  set (t := fun p => if default false (grid !! p) then wall_tile else Bare CaveFloor).
  rewrite (m_iter_ext _ (fun p => m_set_architecture p (t p))).
  2:{ intros x s1. unfold t. by destruct (default false (grid !! x)). }
  rewrite m_iter_set_architecture. simpl.
  destruct (foldl_set_architecture t region (canvas s)) as (H1 & H2 & H3 & H4 & H5).
  eexists _, _. split; [reflexivity|]. split; [done|]. split; [done|]. split; [done|].
  split; [|split].
  - intros p Hp. rewrite H4, decide_True by done. unfold t.
    destruct (default false (grid !! p)); auto.
  - intros p Hp. by rewrite H4, decide_False by done.
  - intros p. rewrite H5. rewrite H4. destruct (decide (p ∈ region)); [|done].
    split; [intros He; eauto|intros (v & [= <-] & He); done].
Qed.

Lemma place_portal_spec_witness :
  floor_spaces (canvas (mkState (set_architecture (new_canvas 2 2) (1, 1) (Bare Floor)) [7])) <> ∅ /\
  exists p s', place_portal StairsDown 2
                 (mkState (set_architecture (new_canvas 2 2) (1, 1) (Bare Floor)) [7]) = (Ok tt, s') /\
    p = (1, 1) /\ arch_grid (canvas s') !! (1, 1) = Some (Inst StairsDown (Some 2)).
Proof.
  assert (Hne : floor_spaces (canvas (mkState (set_architecture (new_canvas 2 2) (1, 1) (Bare Floor)) [7])) <> ∅).
  { intros He.
    assert (Hx : ((1, 1) : point) ∈ floor_spaces (canvas (mkState (set_architecture (new_canvas 2 2) (1, 1) (Bare Floor)) [7])))
      by (simpl; set_solver).
    rewrite He in Hx. set_solver. }
  split; [exact Hne|].
  destruct (place_portal_spec StairsDown 2 _ Hne) as (p & s' & E & Hp & Ha & _).
  assert (Hp1 : p = (1, 1)) by (revert Hp; simpl; set_solver).
  exists p, s'. split; [exact E|]. split; [exact Hp1|].
  rewrite Ha, <- Hp1. apply lookup_insert_eq.
Defined.

(* ------------------------------------------------------------------ *)
(** ** Further properties: Entity types and entities *)
Lemma assoc_lookup_None {K V} `{EqDecision K} (k : K) (d : list (K * V)) :
  assoc_lookup k d = None <-> k ∉ map fst d.
Proof.
  induction d as [|[k' v] d IH]; simpl.
  - split; [intros _ H; by apply elem_of_nil in H|done].
  - rewrite elem_of_cons. case_decide; [subst; split; [done|]; intros H; exfalso; by apply H; left|].
    rewrite IH. naive_solver.
Qed.

Lemma assoc_lookup_app {K V} `{EqDecision K} (k : K) (d1 d2 : list (K * V)) :
  assoc_lookup k (d1 ++ d2) = match assoc_lookup k d1 with Some v => Some v | None => assoc_lookup k d2 end.
Proof. induction d1 as [|[k' v] d1 IH]; simpl; [done|]. by case_decide. Qed.

Lemma assoc_lookup_delete_ne {K V} `{EqDecision K} (k k' : K) (d : list (K * V)) :
  k <> k' -> assoc_lookup k (assoc_delete k' d) = assoc_lookup k d.
Proof.
  intros Hne. induction d as [|[k'' v] d IH]; simpl; [done|].
  destruct (decide (k' = k'')) as [<-|Hne']; simpl.
  - by rewrite decide_False.
  - by case_decide.
Qed.

Section EntityProofs.

Context {Iface Comp Init : Type} `{EqDecision Iface}.
Variable comp_interface : Comp -> Iface.
Variable init_interface : Init -> Iface.
Variable init_component : Init -> Comp.
Variable issubclass : Comp -> Comp -> bool.

Lemma add_components_spec (acc : list (Iface * Comp)) (comps : list Comp) :
  NoDup (map fst acc) ->
  (NoDup (map fst acc ++ map comp_interface comps) ->
   add_components comp_interface acc comps = inr (acc ++ map (fun c => (comp_interface c, c)) comps)) /\
  (~ NoDup (map fst acc ++ map comp_interface comps) ->
   exists msg, add_components comp_interface acc comps = inl msg).
Proof.
  revert acc. induction comps as [|c cs IH]; intros acc Hacc; simpl.
  - rewrite !app_nil_r. split; [done|]. intros H. by exfalso.
  - destruct (assoc_lookup (comp_interface c) acc) eqn:E.
    + split.
      * intros Hnd. exfalso. apply NoDup_app in Hnd as (_ & Hdis & _).
        assert (Hin : comp_interface c ∈ map fst acc).
        { destruct (decide (comp_interface c ∈ map fst acc)) as [|Hn]; [done|].
          apply assoc_lookup_None in Hn. congruence. }
        apply (Hdis _ Hin). by left.
      * intros _. eauto.
    + apply assoc_lookup_None in E.
      assert (Hacc' : NoDup (map fst (acc ++ [(comp_interface c, c)]))).
      { rewrite map_app. simpl. apply NoDup_app. split; [done|]. split.
        - intros x Hx Hx'. apply list_elem_of_singleton in Hx'. by subst.
        - apply NoDup_singleton. }
      destruct (IH _ Hacc') as [IH1 IH2].
      rewrite map_app in IH1, IH2. simpl in IH1, IH2. rewrite <- app_assoc in IH1, IH2. simpl in IH1, IH2.
      split.
      * intros Hnd. rewrite IH1 by done. by rewrite <- app_assoc.
      * intros Hnd. apply IH2. exact Hnd.
Qed.

Lemma collect_initializers_spec (acc : list (Iface * Init)) (inits : list Init) :
  NoDup (map fst acc) ->
  (NoDup (map fst acc ++ map init_interface inits) ->
   collect_initializers init_interface acc inits = inr (acc ++ map (fun i => (init_interface i, i)) inits)) /\
  (~ NoDup (map fst acc ++ map init_interface inits) ->
   exists msg, collect_initializers init_interface acc inits = inl msg).
Proof.
  revert acc. induction inits as [|c cs IH]; intros acc Hacc; simpl.
  - rewrite !app_nil_r. split; [done|]. intros H. by exfalso.
  - destruct (assoc_lookup (init_interface c) acc) eqn:E.
    + split.
      * intros Hnd. exfalso. apply NoDup_app in Hnd as (_ & Hdis & _).
        assert (Hin : init_interface c ∈ map fst acc).
        { destruct (decide (init_interface c ∈ map fst acc)) as [|Hn]; [done|].
          apply assoc_lookup_None in Hn. congruence. }
        apply (Hdis _ Hin). by left.
      * intros _. eauto.
    + apply assoc_lookup_None in E.
      assert (Hacc' : NoDup (map fst (acc ++ [(init_interface c, c)]))).
      { rewrite map_app. simpl. apply NoDup_app. split; [done|]. split.
        - intros x Hx Hx'. apply list_elem_of_singleton in Hx'. by subst.
        - apply NoDup_singleton. }
      destruct (IH _ Hacc') as [IH1 IH2].
      rewrite map_app in IH1, IH2. simpl in IH1, IH2. rewrite <- app_assoc in IH1, IH2. simpl in IH1, IH2.
      split.
      * intros Hnd. rewrite IH1 by done. by rewrite <- app_assoc.
      * intros Hnd. apply IH2. exact Hnd.
Qed.


Lemma assoc_lookup_map_find (inits : list Init) (k : Iface) :
  assoc_lookup k (map (fun i => (init_interface i, i)) inits)
  = find (fun i => bool_decide (init_interface i = k)) inits.
Proof.
  induction inits as [|i is IH]; simpl; [done|].
  case_decide as H1; case_bool_decide as H2; congruence.
Qed.

Lemma run_initializers_ok (components : list (Iface * Comp)) (pending : list (Iface * Init))
    (log : list (Init + Comp)) :
  NoDup (map fst components) ->
  (forall k c i, (k, c) ∈ components -> assoc_lookup k pending = Some i ->
                 issubclass c (init_component i) = true) ->
  run_initializers init_component issubclass components pending log
  = inr (log ++ map (fun kc => match assoc_lookup kc.1 pending with
                               | Some i => inl i | None => inr kc.2 end) components).
Proof.
  revert pending log. induction components as [|[k c] rest IH]; intros pending log Hnd Hsub; simpl.
  - by rewrite app_nil_r.
  - apply NoDup_cons in Hnd as [Hk Hnd].
    destruct (assoc_lookup k pending) as [i|] eqn:E.
    + rewrite (Hsub k c i ltac:(by left) E).
      rewrite IH; [|done|].
      * rewrite <- app_assoc. simpl. f_equal. f_equal. f_equal. apply map_ext_in.
        intros [k' c'] Hin. simpl. rewrite assoc_lookup_delete_ne; [done|].
        intros ->. apply Hk. apply list_elem_of_In. apply in_map_iff. exists (k, c'). split; [done|].
        exact Hin.
      * intros k' c' i' Hin Hl. destruct (decide (k' = k)) as [->|Hne].
        -- exfalso. apply Hk. apply list_elem_of_In, in_map_iff. exists (k, c'). split; [done|].
           by apply list_elem_of_In.
        -- rewrite assoc_lookup_delete_ne in Hl by done. apply (Hsub k' c' i'); [by right|done].
    + rewrite IH; [by rewrite <- app_assoc|done|].
      intros k' c' i' Hin Hl. apply (Hsub k' c' i'); [by right|done].
Qed.

Lemma run_initializers_fail (components : list (Iface * Comp)) (pending : list (Iface * Init))
    (log : list (Init + Comp)) (k : Iface) (c : Comp) (i : Init) :
  NoDup (map fst components) -> (k, c) ∈ components -> assoc_lookup k pending = Some i ->
  issubclass c (init_component i) = false ->
  exists msg, run_initializers init_component issubclass components pending log = inl msg.
Proof.
  revert pending log. induction components as [|[k0 c0] rest IH]; intros pending log Hnd Hin Hl Hs;
    [by apply elem_of_nil in Hin|]. simpl.
  apply NoDup_cons in Hnd as [Hk Hnd].
  apply elem_of_cons in Hin as [[= -> ->]|Hin].
  - rewrite Hl, Hs. eauto.
  - assert (Hne : k <> k0).
    { intros ->. apply Hk. apply list_elem_of_In, in_map_iff. exists (k0, c). split; [done|].
      by apply list_elem_of_In. }
    destruct (assoc_lookup k0 pending) as [i0|] eqn:E.
    + destruct (issubclass c0 (init_component i0)); [|eauto].
      apply IH; [done|done| |done]. by rewrite assoc_lookup_delete_ne.
    + apply IH; done.
Qed.

(** X18.  [EntityType]'s components: when no two components share an
    interface, [self.components] maps each interface to its component, in
    the order given; otherwise the constructor raises TypeError. *)
Theorem type_components_spec (comps : list Comp) :
  (NoDup (map comp_interface comps) ->
   type_components comp_interface comps = inr (map (fun c => (comp_interface c, c)) comps)) /\
  (~ NoDup (map comp_interface comps) -> exists msg, type_components comp_interface comps = inl msg).
Proof.
  unfold type_components. apply (add_components_spec [] comps). constructor.
Qed.

(** X19.  [Entity.__init__] on a type whose components have distinct
    interfaces: two initializers for the same interface raise TypeError; an
    initializer whose component is not a superclass of the type's
    component for that interface raises TypeError; otherwise each of the
    type's components, in order, is initialized by the caller's
    initializer for its interface if there is one and by the component
    itself if not, and initializers for interfaces the type lacks are
    ignored. *)
Theorem entity_init_spec (components : list (Iface * Comp)) (inits : list Init) :
  NoDup (map fst components) ->
  (~ NoDup (map init_interface inits) ->
   exists msg, entity_init init_interface init_component issubclass components inits = inl msg) /\
  (forall i c, NoDup (map init_interface inits) -> i ∈ inits -> (init_interface i, c) ∈ components ->
   issubclass c (init_component i) = false ->
   exists msg, entity_init init_interface init_component issubclass components inits = inl msg) /\
  (NoDup (map init_interface inits) ->
   (forall i c, i ∈ inits -> (init_interface i, c) ∈ components -> issubclass c (init_component i) = true) ->
   entity_init init_interface init_component issubclass components inits
   = inr (map (fun kc => match find (fun i => bool_decide (init_interface i = kc.1)) inits with
                         | Some i => inl i | None => inr kc.2 end) components)).
Proof.
  intros Hnd. unfold entity_init.
  destruct (collect_initializers_spec [] inits ltac:(constructor)) as [C1 C2]. simpl in C1, C2.
  split; [|split].
  - intros Hn. destruct (C2 Hn) as [msg ->]. eauto.
  - intros i c Hni Hi Hc Hs. rewrite C1 by done.
    eapply (run_initializers_fail _ _ _ (init_interface i) c i Hnd Hc); [|done].
    rewrite assoc_lookup_map_find.
    assert (Hfind : forall l, NoDup (map init_interface l) -> i ∈ l ->
              find (fun j => bool_decide (init_interface j = init_interface i)) l = Some i).
    { induction l as [|j l IHl]; intros Hl Hil; [by apply elem_of_nil in Hil|]. simpl.
      apply NoDup_cons in Hl as [Hj Hl]. case_bool_decide as Hji.
      - apply elem_of_cons in Hil as [->|Hil]; [done|]. exfalso. apply Hj. rewrite Hji.
        apply list_elem_of_In, in_map_iff. exists i. split; [done|]. by apply list_elem_of_In.
      - apply elem_of_cons in Hil as [->|Hil]; [done|]. by apply IHl. }
    by apply Hfind.
  - intros Hni Hsub. rewrite C1 by done. rewrite run_initializers_ok; [|done|].
    + simpl. f_equal. apply map_ext_in. intros [k c] _. simpl. by rewrite assoc_lookup_map_find.
    + intros k c i Hc Hl. rewrite assoc_lookup_map_find in Hl.
      apply find_some in Hl as [Hi Hk]. apply bool_decide_eq_true in Hk. subst k.
      apply Hsub; [by apply list_elem_of_In|done].
Qed.

End EntityProofs.

Lemma type_components_spec_witness :
  (NoDup (map (fun c => c mod 10) [11; 22]) /\
   type_components (fun c => c mod 10) [11; 22] = inr [(1, 11); (2, 22)]) /\
  (~ NoDup (map (fun c => c mod 10) [11; 21]) /\
   exists msg, type_components (fun c => c mod 10) [11; 21] = inl msg).
Proof.
  assert (H1 : NoDup (map (fun c => c mod 10) [11; 22])).
  { apply (bool_decide_unpack _). vm_compute. reflexivity. }
  assert (H2 : ~ NoDup (map (fun c => c mod 10) [11; 21])).
  { apply (bool_decide_unpack _). vm_compute. reflexivity. }
  split; split; [exact H1| |exact H2|].
  - exact (proj1 (type_components_spec (fun c => c mod 10) [11; 22]) H1).
  - exact (proj2 (type_components_spec (fun c => c mod 10) [11; 21]) H2).
Defined.

Lemma entity_init_spec_witness :
  NoDup (map fst [(1, 11); (2, 22)]) /\ NoDup (map fst [(1, 10)]) /\
  (forall i c, i ∈ [(1, 10)] -> (fst i, c) ∈ [(1, 11); (2, 22)] ->
     Z.eqb (c / 10) (snd i / 10) = true) /\
  entity_init fst snd (fun a b => Z.eqb (a / 10) (b / 10))
    [(1, 11); (2, 22)] [(1, 10)]
  = inr [inl (1, 10); inr 22].
Proof.
  assert (H1 : NoDup (map fst [(1, 11); (2, 22)])).
  { apply (bool_decide_unpack _). vm_compute. reflexivity. }
  assert (H2 : NoDup (map fst [(1, 10)])).
  { apply (bool_decide_unpack _). vm_compute. reflexivity. }
  assert (H3 : forall i c, i ∈ [(1, 10)] -> (fst i, c) ∈ [(1, 11); (2, 22)] ->
     Z.eqb (c / 10) (snd i / 10) = true).
  { intros i c Hi Hc. apply list_elem_of_singleton in Hi as ->. simpl in Hc.
    apply elem_of_cons in Hc as [[= ->]|Hc]; [reflexivity|].
    apply list_elem_of_singleton in Hc. discriminate. }
  split; [exact H1|]. split; [exact H2|]. split; [exact H3|].
  rewrite (proj2 (proj2 (entity_init_spec fst snd (fun a b => Z.eqb (a / 10) (b / 10))
             [(1, 11); (2, 22)] [(1, 10)] H1)) H2 H3).
  vm_compute. reflexivity.
Defined.

(* ------------------------------------------------------------------ *)
(** ** Further properties: Relations and hall rooms *)
Lemma clamp_range_min_max (lb ub r : Z) :
  Z.min lb ub <= clamp_range lb ub r <= Z.max lb ub.
Proof.
  unfold clamp_range. destruct (r <? lb) eqn:H1; [lia|].
  destruct (ub <? r) eqn:H2; rewrite ?Z.ltb_lt, ?Z.ltb_ge in *; lia.
Qed.

Section RelationProofs.

Context {Rel RelType : Type} `{Countable Rel} `{Countable RelType}.
Variable type_of : Rel -> RelType.

(** X20.  [Entity.attach_relation(r)] adds [r] to the set of its type and
    changes no other set: a relation is in a type's set afterwards exactly
    when it was before or it is [r] under [r]'s type. *)
Theorem attach_relation_members (rels : gmap RelType (gset Rel)) (r : Rel) (t : RelType) (x : Rel) :
  x ∈ default ∅ (attach_relation type_of rels r !! t)
  <-> x ∈ default ∅ (rels !! t) \/ (t = type_of r /\ x = r).
Proof.
  unfold attach_relation. destruct (decide (t = type_of r)) as [->|Hne].
  - rewrite lookup_insert_eq. simpl. set_solver.
  - rewrite lookup_insert_ne by congruence. naive_solver.
Qed.

(** X21.  [Entity.detach_relation(r)] succeeds exactly when [r] is in the
    set of its type, and raises KeyError when it is not; either way the
    sets afterwards hold exactly what they held before, less [r] under
    [r]'s type. *)
Theorem detach_relation_spec (rels : gmap RelType (gset Rel)) (r : Rel) :
  (fst (detach_relation type_of rels r) = Ok tt <-> r ∈ default ∅ (rels !! type_of r)) /\
  (r ∉ default ∅ (rels !! type_of r) -> fst (detach_relation type_of rels r) = Raise KeyError) /\
  (forall t x, x ∈ default ∅ (snd (detach_relation type_of rels r) !! t)
     <-> x ∈ default ∅ (rels !! t) /\ ~ (t = type_of r /\ x = r)).
Proof.
  unfold detach_relation. case_decide as Hr; simpl.
  - split; [done|split; [done|]]. intros t x.
    destruct (decide (t = type_of r)) as [->|Hne].
    + rewrite lookup_insert_eq. simpl. set_solver.
    + rewrite lookup_insert_ne by congruence. naive_solver.
  - split; [done|split; [done|]]. intros t x.
    destruct (decide (t = type_of r)) as [->|Hne].
    + rewrite lookup_insert_eq. simpl. split; [|tauto]. intros Hx. split; [done|].
      intros [_ ->]. done.
    + rewrite lookup_insert_ne by congruence. naive_solver.
Qed.

(** X22.  Attaching a relation its type's set lacks and then detaching it
    succeeds and leaves the relation sets as before, except that a type
    with no entry before now has an empty set; when the type had an entry,
    the map is exactly the one before. *)
Theorem attach_detach_relation (rels : gmap RelType (gset Rel)) (r : Rel) :
  r ∉ default ∅ (rels !! type_of r) ->
  detach_relation type_of (attach_relation type_of rels r) r
  = (Ok tt, <[type_of r := default ∅ (rels !! type_of r)]> rels) /\
  (is_Some (rels !! type_of r) ->
   detach_relation type_of (attach_relation type_of rels r) r = (Ok tt, rels)).
Proof.
  intros Hr.
  assert (E : detach_relation type_of (attach_relation type_of rels r) r
              = (Ok tt, <[type_of r := default ∅ (rels !! type_of r)]> rels)).
  { unfold detach_relation, attach_relation. rewrite lookup_insert_eq. simpl.
    rewrite decide_True by set_solver. rewrite insert_insert_eq. do 2 f_equal.
    apply set_eq. intros x. destruct (decide (x = r)) as [->|]; set_solver. }
  split; [done|]. intros [v Hv]. rewrite E, Hv. simpl. by rewrite insert_id.
Qed.

End RelationProofs.

Lemma carve_rooms_spec (k : nat) (space : Rectangle) (num : Z) (rooms : list Rectangle) (s : fstate) :
  exists new s', carve_rooms k space num rooms s = (Ok (rooms ++ new), s') /\
    canvas s' = canvas s /\ length new = S k /\
    (exists a, new !! 0%nat = Some a /\ r_left a = r_left space) /\
    (exists b, last new = Some b /\ r_right b = r_right space) /\
    (forall i a b, new !! i = Some a -> new !! S i = Some b -> r_right a = r_left b) /\
    (forall a, a ∈ new -> r_top a = r_top space /\ r_bottom a = r_bottom space).
Proof.
  revert space num rooms s. induction k as [|k IH]; intros space num rooms s; simpl.
  - exists [space], s. split; [done|]. split; [done|]. split; [done|].
    split; [eauto|]. split; [eauto|]. split.
    + intros [|i] a b _ Hb; simpl in Hb; discriminate.
    + intros a Ha. apply list_elem_of_singleton in Ha as ->. done.
  - unfold bind.
    match goal with |- context [random_normal_int ?mu ?sg s] =>
      destruct (random_normal_int_run mu sg s) as (w & s1 & Hw & Hc1) end.
    rewrite Hw.
    set (room := replace_right space _).
    destruct (IH (replace_left space (r_right room)) (num - 1) (rooms ++ [room]) s1)
      as (new & s' & Hrun & Hc & Hlen & (a & Ha & Hal) & (b & Hb & Hbr) & Hadj & Htb).
    rewrite <- app_assoc in Hrun. simpl in Hrun.
    exists (room :: new), s'. split; [exact Hrun|].
    split; [congruence|]. split; [simpl; lia|].
    unfold room, replace_right, replace_left, from_edges, r_left, r_right, r_top, r_bottom in *; simpl in *.
    split; [eexists; split; [done|simpl; lia]|].
    split.
    { exists b. split; [|lia]. destruct new as [|n0 new]; [done|]. exact Hb. }
    split.
    + intros [|i] x y Hx Hy; simpl in Hx, Hy.
      * injection Hx as <-. rewrite Ha in Hy. injection Hy as <-. simpl. lia.
      * by apply (Hadj i).
    + intros x Hx. apply elem_of_cons in Hx as [->|Hx]; [simpl; lia|].
      destruct (Htb x Hx). lia.
Qed.

(** X23.  The room loop of [RuinedHallFractor.generate] on one side of the
    hallway always returns, leaving the canvas as it was, and splits the
    space into rooms side by side: the first starts at the space's left
    column, the last ends at its right column, each room's right column is
    the next room's left column (neighbours share a wall), and all keep the
    space's top and bottom rows.  With [maximum_rooms = (width - 1) // 6]
    at least 1 it makes between [maximum_rooms // 6 + 1] and
    [maximum_rooms] rooms, and exactly one room otherwise. *)
Theorem hall_rooms_spec (space : Rectangle) (s : fstate) :
  exists rooms s', hall_rooms space s = (Ok rooms, s') /\ canvas s' = canvas s /\
    (1 <= (r_width space - 1) / 6 ->
       (r_width space - 1) / 6 / 6 + 1 <= Z.of_nat (length rooms) <= (r_width space - 1) / 6) /\
    ((r_width space - 1) / 6 < 1 -> length rooms = 1%nat) /\
    (exists a, rooms !! 0%nat = Some a /\ r_left a = r_left space) /\
    (exists b, last rooms = Some b /\ r_right b = r_right space) /\
    (forall i a b, rooms !! i = Some a -> rooms !! S i = Some b -> r_right a = r_left b) /\
    (forall a, a ∈ rooms -> r_top a = r_top space /\ r_bottom a = r_bottom space).
Proof.
  unfold hall_rooms, bind.
  match goal with |- context [random_normal_range ?lb ?ub s] =>
    destruct (random_normal_range_run lb ub s) as (r & s1 & Hr & Hc1);
    pose proof (clamp_range_min_max lb ub r) as Hb end.
  rewrite Hr. set (n := clamp_range _ _ r) in *.
  destruct (carve_rooms_spec (Z.to_nat (n - 1)) space n [] s1)
    as (new & s' & Hrun & Hc & Hlen & Hfirst & Hlast & Hadj & Htb).
  exists new, s'. rewrite Hrun. split; [done|]. split; [congruence|].
  change (7 - 1) with 6 in *. split; [|split; [|done]].
  - intros H1. rewrite Hlen.
    pose proof (Z.div_lt ((r_width space - 1) / 6) 6 ltac:(lia) ltac:(lia)). lia.
  - intros H1. rewrite Hlen.
    assert (0 <= (r_width space - 1) / 6 / 6 + 1 <= 1 \/ (r_width space - 1) / 6 / 6 + 1 <= 0).
    { destruct (Z.le_gt_cases 0 ((r_width space - 1) / 6)).
      - left. rewrite (Z.div_small ((r_width space - 1) / 6) 6) by lia. lia.
      - right. pose proof (Z.div_lt_upper_bound ((r_width space - 1) / 6) 6 0 ltac:(lia) ltac:(lia)). lia. }
    lia.
Qed.

Lemma detach_relation_spec_witness :
  (6 ∉ (default ∅ (({[0 := {[2]}]} : gmap Z (gset Z)) !! (6 mod 2)) : gset Z)) /\
  fst (detach_relation (fun n : Z => n mod 2) {[0 := {[2]}]} 6) = Raise KeyError.
Proof.
  assert (H : 6 ∉ default ∅ (({[0 := {[2]}]} : gmap Z (gset Z)) !! (6 mod 2))).
  { rewrite (lookup_singleton_eq 0). simpl. set_solver. }
  split; [exact H|].
  exact (proj1 (proj2 (detach_relation_spec (fun n : Z => n mod 2) {[0 := {[2]}]} 6)) H).
Defined.

Lemma attach_detach_relation_witness :
  (4 ∉ (default ∅ (({[0 := {[2]}]} : gmap Z (gset Z)) !! (4 mod 2)) : gset Z)) /\
  is_Some (({[0 := {[2]}]} : gmap Z (gset Z)) !! (4 mod 2)) /\
  detach_relation (fun n : Z => n mod 2) (attach_relation (fun n : Z => n mod 2) {[0 := {[2]}]} 4) 4
  = (Ok tt, {[0 := {[2]}]}).
Proof.
  assert (H : 4 ∉ default ∅ (({[0 := {[2]}]} : gmap Z (gset Z)) !! (4 mod 2))).
  { rewrite (lookup_singleton_eq 0). simpl. set_solver. }
  assert (Hs : is_Some (({[0 := {[2]}]} : gmap Z (gset Z)) !! (4 mod 2))).
  { rewrite (lookup_singleton_eq 0). eauto. }
  split; [exact H|]. split; [exact Hs|].
  exact (proj2 (attach_detach_relation (fun n : Z => n mod 2) {[0 := {[2]}]} 4 H) Hs).
Defined.

Lemma hall_rooms_spec_witness :
  1 <= (r_width (mkRect 0 0 30 7) - 1) / 6 /\
  exists rooms s', hall_rooms (mkRect 0 0 30 7) (mkState (new_canvas 1 1) [3; 10; 9]) = (Ok rooms, s') /\
    1 <= Z.of_nat (length rooms) <= 4.
Proof.
  assert (H : 1 <= (r_width (mkRect 0 0 30 7) - 1) / 6) by (vm_compute; discriminate).
  split; [exact H|].
  destruct (hall_rooms_spec (mkRect 0 0 30 7) (mkState (new_canvas 1 1) [3; 10; 9]))
    as (rooms & s' & E & _ & Hl & _).
  exists rooms, s'. split; [exact E|]. exact (Hl H).
Defined.
